(** * Best-of-n selection engine of the MioTTS server

    A shallow embedding of the token parser ([token_parser.py]), the
    heuristic and recognition scorers and the selector ([best_of_n.py]),
    the retrying chat client ([llm_client.py]) and the candidate generator
    ([api.py]), with the properties the specification states about them.
    Further properties cover the rest of these files (the endpoints and
    the responses of the chat client, the settings and the reference
    audio of a request), the recognition service ([asr.py]) and the
    replies of the speech-to-text server ([stt_server.py]).

    Modelling conventions.
    - A Python [str] is a list of Unicode code points ([char := N]).
    - A Python [int] is a [Z]; lengths and indices are [nat].
    - A Python [float] is an exact rational ([Q]); rounding is outside the
      model, and equalities between floats are stated with [==].
    - An exception is a value of [exn], returned on the left of a sum.
    - The interpreter refuses to convert between an [int] and a [str] of
      more digits than [sys.get_int_max_str_digits()], a variable of the
      section.
    - A value decoded from JSON is a [json]; a dict is the list of its
      items.
    - What the code takes from libraries whose tables are not part of the
      repository (Unicode case mapping and character classes, the
      phonemizers, httpx's [raise_for_status], the recognition pipeline) is
      a variable of the section, constrained only where a statement needs
      it. *)

From Stdlib Require Import ZArith QArith Qminmax Qabs Qround Lqa Lia List String Ascii Bool.
From Stdlib Require Import DecimalN DecimalString.
From stdpp Require Import base list gmap.

Import ListNotations.
#[local] Open Scope Z_scope.

(** ** Text *)

Definition char := N.
Definition str := list char.

(** An ASCII literal as a [str]. *)
Definition lit (s : string) : str := map N_of_ascii (list_ascii_of_string s).

Definition chr_space : char := 32%N.

(** [str.isspace] of one character, [\s] of [re] on [str] patterns. *)
Definition isspace (c : char) : bool :=
  ((9 <=? c) && (c <=? 13) || (28 <=? c) && (c <=? 32)
   || (c =? 133) || (c =? 160) || (c =? 5760)
   || (8192 <=? c) && (c <=? 8202)
   || (c =? 8232) || (c =? 8233) || (c =? 8239) || (c =? 8287)
   || (c =? 12288))%N.

(** [c] is one of the characters of the literal [s]. *)
Definition char_in (s : string) (c : char) : bool :=
  existsb (N.eqb c) (lit s).

(** The lower-case counterpart of an ASCII character. *)
Definition ascii_lower (c : char) : char :=
  if ((65 <=? c) && (c <=? 90))%N then (c + 32)%N else c.

Definition is_ascii (c : char) : bool := (c <? 128)%N.

(** The value of an ASCII decimal digit. *)
Definition ascii_digit_val (c : char) : option Z :=
  if ((48 <=? c) && (c <=? 57))%N then Some (Z.of_N c - 48) else None.

Definition ascii_isalnum (c : char) : bool :=
  ((48 <=? c) && (c <=? 57) || (65 <=? c) && (c <=? 90)
   || (97 <=? c) && (c <=? 122))%N.

(** [s.startswith(p)]: the rest of [s] after the prefix [p]. *)
Fixpoint strip_prefix (p s : str) : option str :=
  match p, s with
  | [], _ => Some s
  | a :: p', b :: s' => if (a =? b)%N then strip_prefix p' s' else None
  | _ :: _, [] => None
  end.

(** ** Exceptions *)

Inductive exn : Type :=
| ValueError (msg : string)
| RuntimeError (msg : string)
| ZeroDivisionError
| TimeoutException (id : nat)
| ConnectError (id : nat)
| HTTPStatusError (status : Z)
| OtherError (id : nat).

(** ** Decimal notation of integers *)

Fixpoint uint_chars (d : Decimal.uint) : str :=
  match d with
  | Decimal.Nil => []
  | Decimal.D0 d => 48%N :: uint_chars d
  | Decimal.D1 d => 49%N :: uint_chars d
  | Decimal.D2 d => 50%N :: uint_chars d
  | Decimal.D3 d => 51%N :: uint_chars d
  | Decimal.D4 d => 52%N :: uint_chars d
  | Decimal.D5 d => 53%N :: uint_chars d
  | Decimal.D6 d => 54%N :: uint_chars d
  | Decimal.D7 d => 55%N :: uint_chars d
  | Decimal.D8 d => 56%N :: uint_chars d
  | Decimal.D9 d => 57%N :: uint_chars d
  end.

Definition decimal (z : Z) : str :=
  if z <? 0 then 45%N :: uint_chars (N.to_uint (Z.to_N (- z)))
  else uint_chars (N.to_uint (Z.to_N z)).

(** The digits of the notation: its length, the sign not counted. *)
Definition decimal_digits (z : Z) : nat :=
  (length (decimal z) - (if (z <? 0)%Z then 1 else 0))%nat.

Definition string_of_nat (n : nat) : string := NilEmpty.string_of_uint (Nat.to_uint n).

(** [[f(x) for x in l]] where [f] may raise: the values in order, or the
    first exception. *)
Fixpoint try_map {E A B : Type} (f : A -> E + B) (l : list A) : E + list B :=
  match l with
  | [] => inr []
  | x :: rest =>
      match f x with
      | inl e => inl e
      | inr y =>
          match try_map f rest with
          | inl e => inl e
          | inr ys => inr (y :: ys)
          end
      end
  end.

(** ** Rationals as the model of floats *)

Definition Qltb (a b : Q) : bool := negb (Qle_bool b a).
Definition Qleb (a b : Q) : bool := Qle_bool a b.

(** [int(x)] of a float: truncation towards zero. *)
Definition Qtrunc (x : Q) : Z := Z.quot (Qnum x) (Zpos (Qden x)).

(** [a / b] of two integers (true division). *)
Definition Zdivq (a b : Z) : Q := inject_Z a / inject_Z b.

Fixpoint Qsum (l : list Q) : Q :=
  match l with
  | [] => 0
  | x :: r => x + Qsum r
  end.

(** [tensor.mean()] of a non-empty one-dimensional tensor. *)
Definition mean (l : list Q) : Q := Qsum l / inject_Z (Z.of_nat (length l)).

(** [max(l)] of a list: the first of the largest elements. *)
Definition py_max (l : list Q) : option Q :=
  match l with
  | [] => None
  | x :: r => Some (fold_left (fun best y => if Qltb best y then y else best) r x)
  end.

Definition len {A} (l : list A) : Z := Z.of_nat (length l).

(** [l[i : i + n]]. *)
Definition py_slice {A} (l : list A) (i n : nat) : list A := take n (drop i l).

Fixpoint drop_while {A} (p : A -> bool) (l : list A) : list A :=
  match l with
  | [] => []
  | x :: r => if p x then drop_while p r else l
  end.

(** [s.strip()]. *)
Definition strip (s : str) : str :=
  rev (drop_while isspace (rev (drop_while isspace s))).

(** [len([c for c in s if p(c)])]. *)
Definition count_chars (p : char -> bool) (s : str) : Z := len (List.filter p s).

(** Splits a goal into its conjuncts, and no further. *)
Ltac conjuncts := repeat match goal with |- _ /\ _ => split end.

Section BestOfN.

(** A proof depends on the hypotheses of the section it names, and on no
    other. *)
#[local] Set Default Proof Using "Type".

(** The decimal value of a character of Unicode category Nd, which is
    what [\d] matches and [int] reads; on ASCII these are [0]-[9]. *)
Variable digit_val : char -> option Z.
Hypothesis digit_val_ascii :
  forall c, is_ascii c = true -> digit_val c = ascii_digit_val c.

Definition is_digit (c : char) : bool :=
  match digit_val c with Some _ => true | None => false end.

(** ** The limit on the conversion between integers and text

    [sys.get_int_max_str_digits()]: 4300 in an interpreter started
    without an option, 0 for no limit. A conversion looks at it for more
    than 640 digits only, and raises a ValueError beyond it. *)
Variable int_max_str_digits : nat.

Definition exceeds_limit (digits : nat) : bool :=
  (640 <? digits)%nat && (0 <? int_max_str_digits)%nat && (int_max_str_digits <? digits)%nat.

Definition limit_message_to_int (digits : nat) : string :=
  String.append "Exceeds the limit ("
    (String.append (string_of_nat int_max_str_digits)
       (String.append " digits) for integer string conversion: value has "
          (String.append (string_of_nat digits)
             " digits; use sys.set_int_max_str_digits() to increase the limit"))).

Definition limit_message_to_str : string :=
  String.append "Exceeds the limit ("
    (String.append (string_of_nat int_max_str_digits)
       " digits) for integer string conversion; use sys.set_int_max_str_digits() to increase the limit").

(** [str(z)], as an f-string field renders an integer. *)
Definition str_of_int (z : Z) : exn + str :=
  if exceeds_limit (decimal_digits z) then inl (ValueError limit_message_to_str)
  else inr (decimal z).

(** The number a string of digits writes. *)
Definition digits_value (s : str) : Z :=
  fold_left (fun acc c => 10 * acc + match digit_val c with Some v => v | None => 0 end) s 0.

(** [int(value)] on a string of digits: every character counts towards
    the limit, leading zeros too. *)
Definition int_of_digits (s : str) : exn + Z :=
  if exceeds_limit (length s) then inl (ValueError (limit_message_to_int (length s)))
  else inr (digits_value s).

(** An integer that the interpreter converts to text, and its text back. *)
Definition within_limit (z : Z) : Prop := exceeds_limit (decimal_digits z) = false.

(** [\d+\|>] at the head of [s]: the digits captured. The quantifier is
    greedy and gives digits back only when the rest fails to match. *)
Fixpoint match_digits_close (s : str) : option str :=
  match s with
  | [] => None
  | c :: r =>
      if is_digit c then
        match match_digits_close r with
        | Some ds => Some (c :: ds)
        | None =>
            match strip_prefix (lit "|>") r with
            | Some _ => Some [c]
            | None => None
            end
        end
      else None
  end.

(** TOKEN_PATTERN [<\|s_(\d+)\|>] at the head of [s]: group 1. *)
Definition match_token (s : str) : option str :=
  match strip_prefix (lit "<|s_") s with
  | Some r => match_digits_close r
  | None => None
  end.

(** [TOKEN_PATTERN.findall(text)]: the matches from left to right, each
    search resuming where the previous match ended. [skip] counts the
    characters of the current match still to pass. *)
Fixpoint findall_from (skip : nat) (s : str) : list str :=
  match s with
  | [] => []
  | _ :: r =>
      match skip with
      | S k => findall_from k r
      | O =>
          match match_token s with
          | Some ds => ds :: findall_from (length (lit "<|s_") + length ds + 1) r
          | None => findall_from 0 r
          end
      end
  end.

Definition findall (text : str) : list str := findall_from 0 text.

Definition parse_speech_tokens (text : str) : exn + list Z :=
  match try_map int_of_digits (findall text) with
  | inl e => inl e
  | inr [] => inl (ValueError "No speech tokens found in LLM output.")
  | inr tokens => inr tokens
  end.

Definition tokens_to_str (tokens : list Z) : exn + str :=
  match try_map (fun token =>
                   match str_of_int token with
                   | inl e => inl e
                   | inr digits => inr (lit "<|s_" ++ digits ++ lit "|>")
                   end) tokens with
  | inl e => inl e
  | inr markers => inr (concat markers)
  end.

(** [parse_speech_tokens(tokens_to_str(tokens))]. *)
Definition parse_rendered (tokens : list Z) : exn + list Z :=
  match tokens_to_str tokens with
  | inl e => inl e
  | inr text => parse_speech_tokens text
  end.

(** ** Language detection *)

Definition _is_ascii_alpha (ch : char) : bool :=
  ((97 <=? ch) && (ch <=? 122) || (65 <=? ch) && (ch <=? 90))%N.

Definition _is_japanese_char (ch : char) : bool :=
  ((0x3040 <=? ch) && (ch <=? 0x309F)
   || (0x30A0 <=? ch) && (ch <=? 0x30FF)
   || (0x4E00 <=? ch) && (ch <=? 0x9FFF)
   || (0x3400 <=? ch) && (ch <=? 0x4DBF)
   || (0xF900 <=? ch) && (ch <=? 0xFAFF))%N.

Definition detect_language (text : str) : string :=
  let total := count_chars (fun ch => negb (isspace ch)) text in
  if total =? 0 then "auto"%string
  else
    let ja_count := count_chars _is_japanese_char text in
    let en_count := count_chars _is_ascii_alpha text in
    let ja_ratio := Zdivq ja_count total in
    let en_ratio := Zdivq en_count total in
    if Qleb 0.2 ja_ratio then "ja"%string
    else if Qleb 0.5 en_ratio then "en"%string
    else "auto"%string.

Definition is_ja_or_en (language : string) : bool :=
  String.eqb language "ja" || String.eqb language "en".

Definition resolve_language (text : str) (preferred : option string) : string :=
  match preferred with
  | Some l => if is_ja_or_en l then l else detect_language text
  | None => detect_language text
  end.

(** ** Repetition penalty *)

(** The dictionary [counts] after the loop over [range(total)]. *)
Definition count_grams (tokens : list Z) (n total : nat) : gmap (list Z) Z :=
  fold_left
    (fun (counts : gmap (list Z) Z) i =>
       let gram := py_slice tokens i n in
       <[gram := default 0 (counts !! gram) + 1]> counts)
    (seq 0 total) ∅.

Definition _ngram_repeat_ratio (tokens : list Z) (n : nat) : Q :=
  let total := len tokens - Z.of_nat n + 1 in
  if total <=? 0 then 0%Q
  else
    let counts := count_grams tokens n (Z.to_nat total) in
    let unique := Z.of_nat (size counts) in
    (1 - Zdivq unique total)%Q.

Definition _repeat_penalty (tokens : list Z) : Q :=
  let ratios := map (_ngram_repeat_ratio tokens) [2; 3; 4]%nat in
  match py_max ratios with
  | Some m => m
  | None => 0%Q
  end.

(** ** Length penalty *)

Definition _TOKEN_RATE_HZ : Q := 25.

(** [_SPP_MINMAX.get(lang, _SPP_MINMAX["other"])]. *)
Definition _SPP_MINMAX (lang : string) : Q * Q :=
  if String.eqb lang "en" then (0.06, 0.12)%Q
  else if String.eqb lang "ja" then (0.07, 0.15)%Q
  else (0.07, 0.18)%Q.

(** The phonemizers, once loaded: [_g2p_en(text)] gives a list of phoneme
    strings and [pyopenjtalk.g2p(text)] one space-separated string;
    either may raise. The lazy construction of the global [_g2p_en] on
    first use is not part of the model. *)
Variable g2p_en : str -> exn + list str.
Variable pyopenjtalk_g2p : str -> exn + str.

(** [s.split(sep)] for a one-character separator. *)
Fixpoint split_on (sep : char) (s : str) : list str :=
  match s with
  | [] => [[]]
  | c :: r =>
      if (c =? sep)%N then [] :: split_on sep r
      else
        match split_on sep r with
        | w :: ws => (c :: w) :: ws
        | [] => [[c]]
        end
  end.

(** [p and p not in names]. *)
Definition is_phoneme (names : list str) (p : str) : bool :=
  match p with
  | [] => false
  | _ => negb (bool_decide (p ∈ names))
  end.

Definition _phoneme_count_en (text : str) : Z :=
  match g2p_en text with
  | inr phonemes =>
      len (List.filter
             (is_phoneme [lit " "; lit "<pad>"; lit "<s>"; lit "</s>"; lit "<unk>"])
             phonemes)
  | inl _ => Z.max (len text) 1
  end.

Definition _phoneme_count_ja (text : str) : Z :=
  match pyopenjtalk_g2p text with
  | inr ph =>
      len (List.filter (is_phoneme [lit "pau"; lit "sil"]) (split_on chr_space ph))
  | inl _ => Z.max (len text) 1
  end.

Definition _phoneme_count (text : str) (lang : string) : Z :=
  if String.eqb lang "en" then _phoneme_count_en text
  else if String.eqb lang "ja" then _phoneme_count_ja text
  else Z.max (len text) 1.

(** [len(re.findall(r"(…|\.\.\.)", t))]. *)
Fixpoint count_ellipsis (t : str) : Z :=
  match t with
  | [] => 0
  | c :: r =>
      if (c =? 8230)%N then 1 + count_ellipsis r
      else
        match r with
        | c2 :: c3 :: r3 =>
            if ((c =? 46) && (c2 =? 46) && (c3 =? 46))%N
            then 1 + count_ellipsis r3
            else count_ellipsis r
        | _ => count_ellipsis r
        end
  end.

(** [len(re.findall(r"(—|--)", t))]. *)
Fixpoint count_dash_pause (t : str) : Z :=
  match t with
  | [] => 0
  | c :: r =>
      if (c =? 8212)%N then 1 + count_dash_pause r
      else
        match r with
        | c2 :: r2 =>
            if ((c =? 45) && (c2 =? 45))%N
            then 1 + count_dash_pause r2
            else count_dash_pause r
        | [] => count_dash_pause r
        end
  end.

Definition is_major (c : char) : bool :=
  char_in ".!?" c || (c =? 12290)%N || (c =? 65281)%N || (c =? 65311)%N.

Definition is_minor (c : char) : bool :=
  char_in ",;:" c || (c =? 12289)%N || (c =? 65292)%N || (c =? 65307)%N.

Definition _punctuation_bonus_sec (text : str) : Q :=
  let t := strip text in
  match last t with
  | None => 0%Q
  | Some t_last =>
      let major := count_chars is_major t in
      let minor := count_chars is_minor t in
      let major := if is_major t_last then Z.max 0 (major - 1) else major in
      let ellipsis := count_ellipsis t in
      let dash_pause := count_dash_pause t in
      let major_bonus := (inject_Z major * 0.40)%Q in
      let minor_bonus := (inject_Z minor * 0.20)%Q in
      let ellipsis_bonus := (inject_Z ellipsis * 1.0)%Q in
      let dash_bonus := (inject_Z dash_pause * 0.12)%Q in
      Qmin 10 (major_bonus + minor_bonus + ellipsis_bonus + dash_bonus)
  end.

Definition _length_penalty (text : str) (tokens : list Z) (language : string) : Q :=
  let duration_sec := (inject_Z (len tokens) / _TOKEN_RATE_HZ)%Q in
  let lang := if is_ja_or_en language then language else detect_language text in
  let phonemes := Z.max (_phoneme_count text lang) 1 in
  let '(min_spp, max_spp) := _SPP_MINMAX lang in
  let bonus := _punctuation_bonus_sec text in
  let min_expected := (inject_Z phonemes * min_spp + bonus)%Q in
  let max_expected := (inject_Z phonemes * max_spp + bonus)%Q in
  if Qleb duration_sec 0 || Qleb min_expected 0 then 0%Q
  else if Qltb duration_sec min_expected
       then ((min_expected - duration_sec) / min_expected)%Q
  else if Qltb max_expected duration_sec
       then ((duration_sec - max_expected) / max_expected)%Q
  else 0%Q.

(** ** The pause bonus in the words of the specification

    Major sentence punctuation adds 0.40 s for each mark, minus one for a
    trailing terminator, minor punctuation 0.20 s, an ellipsis 1.0 s and
    a dash pause 0.12 s, capped at 10 s in total. The marks are those of
    the text without the white space at its ends. An ellipsis is the
    character [U+2026] or three full stops of a run of full stops, a dash
    pause the character [U+2014] or two hyphens of a run of hyphens. *)

(** [. ! ?] and their full-width counterparts. *)
Definition major_marks : str := [46; 33; 63; 12290; 65281; 65311]%N.
(** The commas, semicolons and the colon. *)
Definition minor_marks : str := [12289; 65292; 44; 59; 65307; 58]%N.

(** How many characters of [t] are one of the marks. *)
Definition occurrences (marks : str) (t : str) : Z :=
  fold_right (fun mark total => Z.of_nat (count_occ N.eq_dec t mark) + total) 0 marks.

(** The groups of [k] characters in the runs of the character [c]: a run
    of [n] of them holds [n / k] groups. [run] is the length of the run
    that ends where [t] starts. *)
Fixpoint run_groups (c : char) (k : nat) (run : nat) (t : str) : Z :=
  match t with
  | [] => Z.of_nat (run / k)
  | x :: rest =>
      if (x =? c)%N then run_groups c k (S run) rest
      else Z.of_nat (run / k) + run_groups c k 0 rest
  end.

Definition pause_bonus_spec (text : str) : Q :=
  let t := strip text in
  let trailing_terminator :=
    match last t with
    | Some c => occurrences major_marks [c]
    | None => 0
    end in
  let major := occurrences major_marks t - trailing_terminator in
  let minor := occurrences minor_marks t in
  let ellipses := occurrences [8230%N] t + run_groups 46%N 3 0 t in
  let dash_pauses := occurrences [8212%N] t + run_groups 45%N 2 0 t in
  Qmin 10 (0.40 * inject_Z major + 0.20 * inject_Z minor
           + 1.0 * inject_Z ellipses + 0.12 * inject_Z dash_pauses).

(** ** Silence penalty *)

Definition _SILENCE_RATIO_THRESHOLD : Q := 0.2.
Definition _SILENCE_LONG_THRESHOLD_SEC : Q := 2.0.

(** One pass through the body of the loop of [_longest_run], on the pair
    [(longest, current)]. *)
Definition longest_run_step (st : Z * Z) (flag : bool) : Z * Z :=
  let '(longest, current) := st in
  if flag then
    let current := current + 1 in
    if longest <? current then (current, current) else (longest, current)
  else (longest, 0).

Definition _longest_run (flags : list bool) : Z :=
  fst (fold_left longest_run_step flags (0, 0)).

(** [t.view(frames, frame_size)]: the rows of a tensor of
    [frames * frame_size] samples. *)
Fixpoint view (frames frame_size : nat) (t : list Q) : list (list Q) :=
  match frames with
  | O => []
  | S k => take frame_size t :: view k frame_size (drop frame_size t)
  end.

(** [energy < 1e-4]. *)
Definition is_silent (energy : Q) : bool := Qltb energy (1 # 10000).

(** [silent.float()]. *)
Definition float_of_bool (b : bool) : Q := if b then 1 else 0.

(** The frames of the code and their flags, once [frames] is not zero. *)
Definition frame_size_of (sample_rate : Z) : Z :=
  Z.max 1 (Qtrunc (inject_Z sample_rate * 0.02)).

Definition silent_flags (audio : list Q) (sample_rate : Z) : list bool :=
  let audio := map Qabs audio in
  let frame_size := frame_size_of sample_rate in
  let frames := len audio / frame_size in
  let trimmed := take (Z.to_nat (frames * frame_size)) audio in
  let energy := map mean (view (Z.to_nat frames) (Z.to_nat frame_size) trimmed) in
  map is_silent energy.

Definition _silence_stats (audio : list Q) (sample_rate : Z) : exn + (Q * Q) :=
  let audio_abs := map Qabs audio in
  let numel := len audio_abs in
  if numel =? 0 then inr (1.0, 0.0)%Q
  else
    let frame_size := frame_size_of sample_rate in
    let frames := numel / frame_size in
    if frames =? 0 then
      let energy := mean audio_abs in
      if sample_rate =? 0 then inl ZeroDivisionError
      else inr ((if is_silent energy then 1.0 else 0.0)%Q, Zdivq numel sample_rate)
    else
      let silent := silent_flags audio sample_rate in
      let ratio := mean (map float_of_bool silent) in
      if sample_rate =? 0 then inl ZeroDivisionError
      else inr (ratio, Zdivq (_longest_run silent * frame_size) sample_rate)
  .

(** The penalty accumulated from the two statistics. *)
Definition silence_penalty_of (ratio longest : Q) : Q :=
  let penalty := 0.0%Q in
  let penalty :=
    if Qltb _SILENCE_RATIO_THRESHOLD ratio
    then (penalty + (ratio - _SILENCE_RATIO_THRESHOLD)
                    / Qmax (1 # 1000000) (1.0 - _SILENCE_RATIO_THRESHOLD))%Q
    else penalty in
  let penalty :=
    if Qltb _SILENCE_LONG_THRESHOLD_SEC longest
    then (penalty + (longest - _SILENCE_LONG_THRESHOLD_SEC)
                    / Qmax (1 # 1000000) _SILENCE_LONG_THRESHOLD_SEC)%Q
    else penalty in
  penalty.

Definition _silence_penalty (audio : list Q) (sample_rate : Z) : exn + Q :=
  match _silence_stats audio sample_rate with
  | inl e => inl e
  | inr (ratio, longest) => inr (silence_penalty_of ratio longest)
  end.

(** ** Recognition error *)

(** [str.lower] and [str.isalnum] of the Unicode database. *)
Variable lower : str -> str.
Variable isalnum : char -> bool.
Hypothesis lower_ascii :
  forall s, forallb is_ascii s = true -> lower s = map ascii_lower s.

(** The reference after normalisation: a string for the character error
    rate, a list of words for the word error rate. *)
Inductive ref_norm : Type :=
| RefStr (s : str)
| RefWords (ws : list str).

Definition _normalize_for_cer (text : str) : str :=
  let lowered := lower text in
  List.filter (fun ch => isalnum ch || _is_japanese_char ch) lowered.

(** A character of the class [[a-z0-9']]. *)
Definition is_word_char (c : char) : bool :=
  ((97 <=? c) && (c <=? 122) || (48 <=? c) && (c <=? 57) || (c =? 39))%N.

(** [re.sub(cls+, " ", s)]: each maximal run of characters of the class
    becomes one space. [in_run] tells that the previous character was in
    the class. *)
Fixpoint sub_runs (cls : char -> bool) (in_run : bool) (s : str) : str :=
  match s with
  | [] => []
  | c :: r =>
      if cls c then
        if in_run then sub_runs cls true r
        else chr_space :: sub_runs cls true r
      else c :: sub_runs cls false r
  end.

(** [s.split()]: the maximal runs of characters that are not white
    space. [cur] holds the current word, last character first. *)
Fixpoint split_ws (cur : str) (s : str) : list str :=
  match s with
  | [] => match cur with [] => [] | _ => [rev cur] end
  | c :: r =>
      if isspace c then
        match cur with
        | [] => split_ws [] r
        | _ => rev cur :: split_ws [] r
        end
      else split_ws (c :: cur) r
  end.

Definition _normalize_for_wer (text : str) : list str :=
  let lowered := lower text in
  let lowered := sub_runs (fun c => negb (is_word_char c)) false lowered in
  let lowered := strip (sub_runs isspace false lowered) in
  match lowered with
  | [] => []
  | _ => split_ws [] lowered
  end.

Definition _normalize_reference (text : str) (language : string) : ref_norm :=
  if String.eqb language "en" then RefWords (_normalize_for_wer text)
  else RefStr (_normalize_for_cer text).

(** [dp[j]]; every index the code reads is within the list. *)
Definition dp_get (dp : list Z) (j : nat) : Z := default 0 (dp !! j).

Section EditDistance.
Context {A : Type} `{EqDecision A}.

(** The loop over [enumerate(seq_b, start=1)] for one element [a]. *)
Fixpoint edit_row (a : A) (seq_b : list A) (j : nat) (dp : list Z) (prev : Z)
  : list Z :=
  match seq_b with
  | [] => dp
  | b :: rest =>
      let temp := dp_get dp j in
      let cost := if bool_decide (a = b) then 0 else 1 in
      let dp :=
        <[j := Z.min (Z.min (dp_get dp j + 1) (dp_get dp (j - 1) + 1)) (prev + cost)]> dp in
      edit_row a rest (S j) dp temp
  end.

(** The loop over [enumerate(seq_a, start=1)]. *)
Fixpoint edit_rows (seq_a seq_b : list A) (i : Z) (dp : list Z) : list Z :=
  match seq_a with
  | [] => dp
  | a :: rest =>
      let prev := dp_get dp 0 in
      let dp := <[0%nat := i]> dp in
      let dp := edit_row a seq_b 1 dp prev in
      edit_rows rest seq_b (i + 1) dp
  end.

Definition _edit_distance (seq_a seq_b : list A) : Z :=
  match seq_a, seq_b with
  | [], _ => len seq_b
  | _, [] => len seq_a
  | _, _ =>
      let dp := map Z.of_nat (seq 0 (length seq_b + 1)) in
      let dp := edit_rows seq_a seq_b 1 dp in
      dp_get dp (length dp - 1)
  end.

(** The Levenshtein distance as the specification words it: the
    classic recurrence over insertion, deletion and substitution at
    unit cost. *)
Fixpoint levenshtein (s t : list A) : Z :=
  match s with
  | [] => len t
  | x :: s' =>
      (fix lev_row (t : list A) : Z :=
         match t with
         | [] => len s
         | y :: t' =>
             Z.min (Z.min (levenshtein s' t + 1) (lev_row t' + 1))
                   (levenshtein s' t' + (if bool_decide (x = y) then 0 else 1))
         end) t
  end.

(** An edit script of [n] unit-cost operations turning [s] into [t]. *)
Inductive edits : list A -> list A -> Z -> Prop :=
| edits_nil : edits [] [] 0
| edits_keep x s t n : edits s t n -> edits (x :: s) (x :: t) n
| edits_subst x y s t n : edits s t n -> edits (x :: s) (y :: t) (n + 1)
| edits_delete x s t n : edits s t n -> edits (x :: s) t (n + 1)
| edits_insert y s t n : edits s t n -> edits s (y :: t) (n + 1).

Definition subst_cost (x y : A) : Z := if bool_decide (x = y) then 0 else 1.

(** Row [|pa|] of the table: the distances from the prefix [pa] of the
    first sequence to every prefix of the second. *)
Definition lev_row (pa b : list A) : list Z :=
  map (fun j => levenshtein pa (take j b)) (seq 0 (S (length b))).

End EditDistance.

Definition _cer (ref hyp : str) : Q :=
  match ref with
  | [] => match hyp with [] => 0.0%Q | _ => 1.0%Q end
  | _ =>
      let dist := _edit_distance ref hyp in
      Zdivq dist (Z.max 1 (len ref))
  end.

Definition _wer (ref hyp : list str) : Q :=
  match ref with
  | [] => match hyp with [] => 0.0%Q | _ => 1.0%Q end
  | _ =>
      let dist := _edit_distance ref hyp in
      Zdivq dist (Z.max 1 (len ref))
  end.

Definition _asr_error (ref : ref_norm) (hyp_text : str) (language : string) : Q :=
  if String.eqb language "en" then
    let hyp_norm := _normalize_for_wer hyp_text in
    _wer (match ref with RefWords ws => ws | RefStr _ => [] end) hyp_norm
  else
    let hyp_norm := _normalize_for_cer hyp_text in
    _cer (match ref with RefStr s => s | RefWords _ => [] end) hyp_norm.

(** ** Candidates, scoring and selection *)

Record BestOfNCandidate : Type := {
  tokens : list Z;
  audio : list Q;
  asr_text : option str;
  asr_error : option Q;
  repeat_penalty : Q;
  length_penalty : Q;
  silence_penalty : Q;
  score : option Q
}.

(** [BestOfNCandidate(tokens=tokens, audio=audio)]. *)
Definition new_candidate (tokens : list Z) (audio : list Q) : BestOfNCandidate :=
  {| tokens := tokens; audio := audio; asr_text := None; asr_error := None;
     repeat_penalty := 0.0; length_penalty := 0.0; silence_penalty := 0.0;
     score := None |}.

Definition set_repeat_length (rp lp : Q) (c : BestOfNCandidate) : BestOfNCandidate :=
  {| tokens := tokens c; audio := audio c; asr_text := asr_text c;
     asr_error := asr_error c; repeat_penalty := rp; length_penalty := lp;
     silence_penalty := silence_penalty c; score := score c |}.

Definition set_silence (sp : Q) (c : BestOfNCandidate) : BestOfNCandidate :=
  {| tokens := tokens c; audio := audio c; asr_text := asr_text c;
     asr_error := asr_error c; repeat_penalty := repeat_penalty c;
     length_penalty := length_penalty c; silence_penalty := sp; score := score c |}.

Definition set_asr (t : str) (e : Q) (c : BestOfNCandidate) : BestOfNCandidate :=
  {| tokens := tokens c; audio := audio c; asr_text := Some t;
     asr_error := Some e; repeat_penalty := repeat_penalty c;
     length_penalty := length_penalty c; silence_penalty := silence_penalty c;
     score := score c |}.

Definition set_score (s : Q) (c : BestOfNCandidate) : BestOfNCandidate :=
  {| tokens := tokens c; audio := audio c; asr_text := asr_text c;
     asr_error := asr_error c; repeat_penalty := repeat_penalty c;
     length_penalty := length_penalty c; silence_penalty := silence_penalty c;
     score := Some s |}.

(** The recognition collaborator: [transcribe_batch(audio_list,
    sample_rate, language)], which may raise. *)
Definition ASRService : Type := list (list Q) -> Z -> option string -> exn + list str.

(** Successive readings of [time.perf_counter()]. *)
Variable perf_counter : nat -> Q.

Definition _WEIGHT_LEN : Q := 0.4.
Definition _WEIGHT_SILENCE : Q := 0.4.
Definition _WEIGHT_REPEAT : Q := 0.2.
Definition _HYBRID_HEUR_WEIGHT : Q := 0.3.

(** The first loop of [score_candidates]: the three heuristic penalties
    of each candidate, written in place. An exception leaves the
    candidates as they are at that point. *)
Fixpoint heuristics_loop (text : str) (sample_rate : Z) (resolved_lang : string)
         (candidates : list BestOfNCandidate) : list BestOfNCandidate * option exn :=
  match candidates with
  | [] => ([], None)
  | candidate :: rest =>
      let candidate :=
        set_repeat_length (_repeat_penalty (tokens candidate))
                          (_length_penalty text (tokens candidate) resolved_lang)
                          candidate in
      match _silence_penalty (audio candidate) sample_rate with
      | inl e => (candidate :: rest, Some e)
      | inr sp =>
          let '(rest, r) := heuristics_loop text sample_rate resolved_lang rest in
          (set_silence sp candidate :: rest, r)
      end
  end.

Definition _run_asr (asr_service : ASRService) (candidates : list BestOfNCandidate)
           (sample_rate : Z) (language : string) : exn + (Q * list str) :=
  let start := perf_counter 0 in
  let lang := if is_ja_or_en language then Some language else None in
  let audio_list := map audio candidates in
  match asr_service audio_list sample_rate lang with
  | inl e => inl e
  | inr texts =>
      let end_ := perf_counter 1 in
      inr ((end_ - start)%Q, texts)
  end.

(** The loop over [zip(candidates, asr_texts, strict=False)]: it stops at
    the end of the shorter list. *)
Fixpoint attach_asr (ref : ref_norm) (resolved_lang : string)
         (candidates : list BestOfNCandidate) (asr_texts : list str)
  : list BestOfNCandidate :=
  match candidates, asr_texts with
  | candidate :: rest, asr_text :: texts =>
      set_asr asr_text (_asr_error ref asr_text resolved_lang) candidate
      :: attach_asr ref resolved_lang rest texts
  | _, _ => candidates
  end.

(** The final score of one candidate. *)
Definition assign_score (candidate : BestOfNCandidate) : BestOfNCandidate :=
  let heuristic :=
    (_WEIGHT_LEN * length_penalty candidate
     + _WEIGHT_SILENCE * silence_penalty candidate
     + _WEIGHT_REPEAT * repeat_penalty candidate)%Q in
  let asr_score := match asr_error candidate with Some e => e | None => 1.0%Q end in
  set_score (asr_score + _HYBRID_HEUR_WEIGHT * heuristic)%Q candidate.

(** [candidates[i].score or 0.0]. *)
Definition score_key (candidate : BestOfNCandidate) : Q :=
  match score candidate with
  | Some s => if Qeq_bool s 0 then 0.0%Q else s
  | None => 0.0%Q
  end.

(** [min(range(len(keys)), key=...)]: the running best index and its
    key; a later index replaces it only with a strictly smaller key. *)
Fixpoint argmin_from (keys : list Q) (i best : nat) (best_key : Q) : nat :=
  match keys with
  | [] => best
  | k :: rest =>
      if Qltb k best_key then argmin_from rest (S i) i k
      else argmin_from rest (S i) best best_key
  end.

Definition argmin (keys : list Q) : nat :=
  match keys with
  | [] => 0%nat
  | k :: rest => argmin_from rest 1 0 k
  end.

(** The Selector: the last loop of [score_candidates] and the choice of
    [best_idx], on a pool that is not empty. *)
Definition select_best (candidates : list BestOfNCandidate)
  : list BestOfNCandidate * nat :=
  let candidates := map assign_score candidates in
  (candidates, argmin (map score_key candidates)).

(** [score_candidates]: the pool as the call leaves it, and what the call
    returns or raises. *)
Definition score_candidates (text : str) (candidates : list BestOfNCandidate)
           (sample_rate : Z) (language : string) (asr_service : option ASRService)
  : list BestOfNCandidate * (exn + (nat * Q)) :=
  match candidates with
  | [] => (candidates, inl (ValueError "No candidates to score."))
  | _ =>
      let resolved_lang := resolve_language text (Some language) in
      match heuristics_loop text sample_rate resolved_lang candidates with
      | (candidates, Some e) => (candidates, inl e)
      | (candidates, None) =>
          match asr_service with
          | None => (candidates, inl (RuntimeError "ASR is required but not available."))
          | Some asr =>
              match _run_asr asr candidates sample_rate resolved_lang with
              | inl e => (candidates, inl e)
              | inr (asr_sec, asr_texts) =>
                  let ref := _normalize_reference text resolved_lang in
                  let candidates := attach_asr ref resolved_lang candidates asr_texts in
                  let '(candidates, best_idx) := select_best candidates in
                  (candidates, inr (best_idx, asr_sec))
              end
          end
      end
  end.

(** ** The chat client and its retries *)

Definition DEFAULT_MAX_RETRIES : Z := 3.
Definition DEFAULT_RETRY_DELAY : Q := 0.5.
Definition RETRYABLE_STATUS_CODES : list Z := [502; 503; 504; 429].

(** What one [client.post] does: it raises, or it returns a response
    with a status code and a body. [body] is what
    [_extract_content(response.json())] makes of the body: the text, or
    the message of the error raised on a malformed body (a [ValueError]
    for a body without choices or one that is not JSON). *)
Inductive PostOutcome : Type :=
| PostRaises (e : exn)
| Response (status_code : Z) (body : string + str).

(** What the client does to the outside, in order. *)
Inductive event : Type :=
| EvPost (attempt : nat)
| EvSleep (delay : Q).

(** httpx's [raise_for_status]: whether it raises for a status code. It
    does for every client and server error. *)
Variable status_raises : Z -> bool.
Hypothesis status_raises_error :
  forall s, 400 <= s <= 599 -> status_raises s = true.

Definition is_retryable (status_code : Z) : bool :=
  bool_decide (status_code ∈ RETRYABLE_STATUS_CODES).

(** How one pass through the body of the loop ends. *)
Inductive step_result : Type :=
| Return (text : str)
| Raise (e : exn)
| Continue (last_exc : option exn).

Definition backoff (retry_delay : Q) (attempt : nat) : Q :=
  (retry_delay * inject_Z (2 ^ Z.of_nat attempt))%Q.

(** The sleep before the next attempt, when there is one. *)
Definition sleep_unless_last (max_retries : Z) (retry_delay : Q) (attempt : nat)
  : list event :=
  if Z.of_nat attempt <? max_retries - 1
  then [EvSleep (backoff retry_delay attempt)]
  else [].

(** One attempt: the [try] block and its [except] clauses. *)
Definition attempt_step (max_retries : Z) (retry_delay : Q) (post : nat -> PostOutcome)
           (attempt : nat) (last_exc : option exn) : list event * step_result :=
  let after_status (status_code : Z) (body : string + str) : step_result :=
    if status_raises status_code then Raise (HTTPStatusError status_code)
    else match body with
         | inl msg => Raise (ValueError msg)
         | inr text => Return text
         end in
  let tried : list event * step_result :=
    match post attempt with
    | PostRaises e => ([], Raise e)
    | Response status_code body =>
        if is_retryable status_code && (Z.of_nat attempt <? max_retries - 1)
        then ([EvSleep (backoff retry_delay attempt)], Continue last_exc)
        else ([], after_status status_code body)
    end in
  match tried with
  | (evs, Raise (TimeoutException id)) =>
      (evs ++ sleep_unless_last max_retries retry_delay attempt,
       Continue (Some (TimeoutException id)))
  | (evs, Raise (ConnectError id)) =>
      (evs ++ sleep_unless_last max_retries retry_delay attempt,
       Continue (Some (ConnectError id)))
  | other => other
  end.

(** The loop [for attempt in range(max_retries)], with [remaining] passes
    to go, and the two statements after it. *)
Fixpoint retry_loop (max_retries : Z) (retry_delay : Q) (post : nat -> PostOutcome)
         (remaining attempt : nat) (last_exc : option exn) : list event * (exn + str) :=
  match remaining with
  | O =>
      match last_exc with
      | Some e => ([], inl e)
      | None => ([], inl (RuntimeError "All retry attempts failed."))
      end
  | S remaining =>
      let '(evs, r) := attempt_step max_retries retry_delay post attempt last_exc in
      match r with
      | Return text => (EvPost attempt :: evs, inr text)
      | Raise e => (EvPost attempt :: evs, inl e)
      | Continue last_exc =>
          let '(evs', r') :=
            retry_loop max_retries retry_delay post remaining (S attempt) last_exc in
          (EvPost attempt :: evs ++ evs', r')
      end
  end.

Definition _post_with_retry (max_retries : Z) (retry_delay : Q)
           (post : nat -> PostOutcome) : list event * (exn + str) :=
  retry_loop max_retries retry_delay post (Z.to_nat max_retries) 0 None.

(** ** The candidate generator *)

(** The backend as the generator meets it: the outcome of each post of
    each chat request, by the request's position among the tasks. *)
Definition Backend : Type := nat -> nat -> PostOutcome.

Definition chat (max_retries : Z) (retry_delay : Q) (backend : Backend) (request : nat)
  : list event * (exn + str) :=
  _post_with_retry max_retries retry_delay (backend request).

(** The loop over the results of [asyncio.gather] (called with
    [return_exceptions=True]) that builds the list [texts]. *)
Fixpoint successful_texts (results : list (exn + str)) : list str :=
  match results with
  | [] => []
  | inl _ :: rest => successful_texts rest
  | inr text :: rest => text :: successful_texts rest
  end.

(** [_fetch_llm_candidates]: the trace of every chat request issued, and
    what the call returns or raises. *)
Definition _fetch_llm_candidates (max_retries : Z) (retry_delay : Q)
           (backend : Backend) (n : Z) : list (list event) * (exn + list str) :=
  if n <=? 1 then
    let '(trace, r) := chat max_retries retry_delay backend 0 in
    match r with
    | inl e => ([trace], inl e)
    | inr text => ([trace], inr [text])
    end
  else
    let tasks := map (chat max_retries retry_delay backend) (seq 0 (Z.to_nat n)) in
    let results := map snd tasks in
    let texts := successful_texts results in
    match texts with
    | [] => (map fst tasks, inl (RuntimeError "All LLM candidate requests failed."))
    | _ => (map fst tasks, inr texts)
    end.

(** ** Definitions used in the statements *)

(** The characters of a rendered number are ASCII digits. *)
Definition ascii_digit (c : char) : Prop := (48 <= c <= 57)%N.

(** The contiguous subsequences of length [n], as the specification
    describes the n-grams of a token sequence. *)
Fixpoint ngrams (n : nat) (l : list Z) : list (list Z) :=
  match l with
  | [] => []
  | _ :: r => if (n <=? length l)%nat then take n l :: ngrams n r else []
  end.

(** [1 - unique n-grams / total n-grams], and [0] for a sequence shorter
    than [n]. *)
Definition ngram_ratio (n : nat) (tokens : list Z) : Q :=
  if (length tokens <? n)%nat then 0%Q
  else (1 - Zdivq (Z.of_nat (length (remove_dups (ngrams n tokens))))
                  (Z.of_nat (length (ngrams n tokens))))%Q.

(** The [n] flags from index [i] on are all set. *)
Definition run_at (flags : list bool) (i n : nat) : Prop :=
  forall j, (i <= j < i + n)%nat -> flags !! j = Some true.

(** The state of the loop of [_longest_run] after the flags [flags]:
    [current] is the length of the run of set flags that ends the list
    and [longest] the length of the longest run met. *)
Definition longest_run_state (flags : list bool) (st : Z * Z) : Prop :=
  let '(longest, current) := st in
  0 <= current <= longest
  /\ (Z.to_nat current <= length flags)%nat
  /\ run_at flags (length flags - Z.to_nat current) (Z.to_nat current)
  /\ (forall i n, run_at flags i n -> (i + n)%nat = length flags -> Z.of_nat n <= current)
  /\ (exists i, run_at flags i (Z.to_nat longest))
  /\ (forall i n, run_at flags i n -> Z.of_nat n <= longest).

(** [len([f for f in flags if f])]. *)
Definition count_set (flags : list bool) : Z := len (List.filter (fun f : bool => f) flags).

(** The maximal runs of characters of [[a-z0-9']] in a string: the words
    the normalisation for the word error rate is meant to yield. [cur]
    holds the current run, last character first. *)
Fixpoint word_runs (cur : str) (s : str) : list str :=
  match s with
  | [] => match cur with [] => [] | _ => [rev cur] end
  | c :: r =>
      if is_word_char c then word_runs (c :: cur) r
      else
        match cur with
        | [] => word_runs [] r
        | _ => rev cur :: word_runs [] r
        end
  end.

(** The error rate as the specification words it: the Levenshtein distance
    over the reference length clamped to at least 1, and for an empty
    reference 1.0 against a hypothesis that is not empty, 0.0 otherwise. *)
Definition error_rate_spec {A : Type} `{EqDecision A} (ref hyp : list A) : Q :=
  match ref, hyp with
  | [], [] => 0
  | [], _ :: _ => 1
  | _ :: _, _ => Zdivq (levenshtein ref hyp) (Z.max 1 (len ref))
  end.

(** The final score of a candidate, from its own fields. *)
Definition final_score (c : BestOfNCandidate) : Q :=
  ((match asr_error c with Some e => e | None => 1 end)
   + 0.3 * (0.4 * length_penalty c + 0.4 * silence_penalty c + 0.2 * repeat_penalty c))%Q.

(** The recognition collaborator honours its contract: one text for each
    waveform of the batch. *)
Definition one_text_per_waveform (asr : ASRService) : Prop :=
  forall audio_list sample_rate lang texts,
    asr audio_list sample_rate lang = inr texts -> length texts = length audio_list.

(** A candidate whose recognition error is [e] and whose heuristic
    penalties are all zero: its final score is [e]. *)
Definition scored_candidate (e : Q) : BestOfNCandidate :=
  set_asr [] e (new_candidate [] []).

(** The exceptions the [except] clauses catch. *)
Definition is_transient (e : exn) : bool :=
  match e with
  | TimeoutException _ | ConnectError _ => true
  | _ => false
  end.

(** What triggers a retry: a timeout, a connection failure, or a response
    whose status is retryable. *)
Definition triggers_retry (o : PostOutcome) : bool :=
  match o with
  | PostRaises e => is_transient e
  | Response status_code _ => is_retryable status_code
  end.

(** What an attempt ends on when no further attempt follows it: its text,
    or its error. *)
Definition attempt_result (o : PostOutcome) : exn + str :=
  match o with
  | PostRaises e => inl e
  | Response status_code body =>
      if status_raises status_code then inl (HTTPStatusError status_code)
      else match body with
           | inl msg => inl (ValueError msg)
           | inr text => inr text
           end
  end.

(** The posts [first], ..., [first + k], each but the last followed by its
    backoff sleep. *)
Definition attempts_trace (retry_delay : Q) (first k : nat) : list event :=
  flat_map (fun i => [EvPost i; EvSleep (backoff retry_delay i)]) (seq first k)
  ++ [EvPost (first + k)].

Definition is_post (ev : event) : bool :=
  match ev with EvPost _ => true | EvSleep _ => false end.

Definition count_posts (trace : list event) : nat := length (List.filter is_post trace).

(** The texts of the requests that succeeded, in the order of the
    requests, as the specification describes the result set. *)
Definition texts_of (outcome : nat -> exn + str) (n : nat) : list str :=
  flat_map (fun i => match outcome i with inr text => [text] | inl _ => [] end) (seq 0 n).

(** ** Sample collaborators and inputs *)

(** Lower-casing on ASCII text. *)
Definition ascii_lower_str (s : str) : str := map ascii_lower s.

(** Phonemizers that always raise, so that the code falls back on the
    length of the text. *)
Definition failing_g2p_en (text : str) : exn + list str := inl (OtherError 0).
Definition failing_g2p_ja (text : str) : exn + str := inl (OtherError 0).

(** A clock that advances by one second at each reading. *)
Definition ticking_clock (k : nat) : Q := inject_Z (Z.of_nat k).

(** [raise_for_status] raising for every status outside 2xx. *)
Definition raises_unless_success (status_code : Z) : bool :=
  negb ((200 <=? status_code) && (status_code <? 300)).

(** A recognition service that hears the same words in every waveform. *)
Definition constant_asr : ASRService :=
  fun audio_list _ _ => inr (map (fun _ => lit "the cat") audio_list).


Definition sample_pool : list BestOfNCandidate :=
  [new_candidate [1; 2; 3] [1%Q; 1%Q]; new_candidate [4; 4; 4; 4; 4; 4] [0%Q]].

(** A backend that always answers 503. *)
Definition unavailable_server (attempt : nat) : PostOutcome :=
  Response 503 (inr (lit "busy")).

(** A backend that answers the second request with 400 and the others
    with a text. *)
Definition sample_backend : Backend :=
  fun request _ =>
    match request with
    | 1%nat => Response 400 (inl "bad request"%string)
    | _ => Response 200 (inr (lit "<|s_1|>"))
    end.

(** ** Model output around the markers *)

(** A piece of the text a model returns: free text, or the marker of a
    token, its number in decimal notation. *)
Inductive segment : Type :=
| Junk (s : str)
| Marker (t : Z).

Definition render_segment (seg : segment) : str :=
  match seg with
  | Junk s => s
  | Marker t => lit "<|s_" ++ decimal t ++ lit "|>"
  end.

Definition render_segments (segs : list segment) : str :=
  concat (map render_segment segs).

(** The tokens written in the pieces with a number that is not negative,
    from left to right. *)
Definition segment_tokens (segs : list segment) : list Z :=
  flat_map (fun seg =>
              match seg with
              | Junk _ => []
              | Marker t => if 0 <=? t then [t] else []
              end) segs.

(** Free text holds no [<]. *)
Definition free_text (seg : segment) : Prop :=
  match seg with
  | Junk s => Forall (fun c => c <> 60%N) s
  | Marker _ => True
  end.

(** ** Time spent sleeping *)

Definition sleep_time (ev : event) : Q :=
  match ev with
  | EvSleep delay => delay
  | EvPost _ => 0
  end.

(** The seconds a trace spends in [asyncio.sleep]. *)
Definition total_sleep (trace : list event) : Q := Qsum (map sleep_time trace).

(** ** The endpoints of the chat client *)

Definition chr_slash : char := 47%N.

(** [s.rstrip(c)] for a one-character [c]. *)
Definition rstrip_char (c : char) (s : str) : str :=
  rev (drop_while (fun x => (x =? c)%N) (rev s)).

(** [s.endswith(suffix)]: read backwards, [s] starts with [suffix] read
    backwards. *)
Definition endswith (s suffix : str) : bool :=
  match strip_prefix (rev suffix) (rev s) with
  | Some _ => true
  | None => false
  end.

(** [s[:-n]] for a positive [n]. *)
Definition drop_last (n : nat) (s : str) : str := take (length s - n) s.

Definition _resolve_chat_url (base_url : str) : str :=
  let base := rstrip_char chr_slash base_url in
  if endswith base (lit "/chat/completions") then base
  else if endswith base (lit "/v1") then base ++ lit "/chat/completions"
  else base ++ lit "/v1/chat/completions".

Definition _resolve_models_url (base_url : str) : str :=
  let base := rstrip_char chr_slash base_url in
  if endswith base (lit "/models") then base
  else
    let base :=
      if endswith base (lit "/chat/completions")
      then rstrip_char chr_slash (drop_last (length (lit "/chat/completions")) base)
      else base in
    if endswith base (lit "/v1") then base ++ lit "/models"
    else base ++ lit "/v1/models".

(** ** Responses of the language-model server *)

(** A value decoded by [response.json()]. A dict is given by its items in
    insertion order, under keys that are distinct. The floats that are
    not numbers are not part of the model. *)
#[warnings="-register-all"]
Inductive json : Type :=
| JNull
| JBool (b : bool)
| JInt (z : Z)
| JFloat (q : Q)
| JStr (s : str)
| JList (elements : list json)
| JDict (items : list (str * json)).

(** What the built-in operations raise on a value of the wrong type, next
    to the exceptions the code raises itself. *)
Inductive content_error : Type :=
| Raised (e : exn)
| TypeError
| KeyError
| AttributeError.

(** [bool(v)], as [if v], [not v] and [or] read a value. *)
Definition truthy (v : json) : bool :=
  match v with
  | JNull => false
  | JBool b => b
  | JInt z => negb (z =? 0)
  | JFloat q => negb (Qeq_bool q 0)
  | JStr [] => false
  | JStr (_ :: _) => true
  | JList [] => false
  | JList (_ :: _) => true
  | JDict [] => false
  | JDict (_ :: _) => true
  end.

(** The value under [key], if the dict has the key. *)
Fixpoint dict_get (key : str) (items : list (str * json)) : option json :=
  match items with
  | [] => None
  | (k, v) :: rest => if bool_decide (k = key) then Some v else dict_get key rest
  end.

(** [d.get(key)] and [d.get(key, fallback)]. *)
Definition get (key : string) (items : list (str * json)) : json :=
  default JNull (dict_get (lit key) items).

Definition get_or (key : string) (fallback : json) (items : list (str * json)) : json :=
  default fallback (dict_get (lit key) items).

(** [a or b]. *)
Definition py_or (a b : json) : json := if truthy a then a else b.

(** [p in s] for two strings. *)
Fixpoint is_substring (p s : str) : bool :=
  match strip_prefix p s with
  | Some _ => true
  | None =>
      match s with
      | [] => false
      | _ :: r => is_substring p r
      end
  end.

(** [v[0]] for a value [v] that is truthy: a dict decoded from JSON has
    strings for keys, none of which is [0]. *)
Definition subscript_0 (v : json) : content_error + json :=
  match v with
  | JList (x :: _) => inr x
  | JStr (c :: _) => inr (JStr [c])
  | JDict _ => inl KeyError
  | _ => inl TypeError
  end.

(** [key in v]. *)
Definition py_in (key : string) (v : json) : content_error + bool :=
  match v with
  | JDict items => inr (bool_decide (is_Some (dict_get (lit key) items)))
  | JList elements => inr (existsb (fun x => match x with
                                             | JStr s => bool_decide (s = lit key)
                                             | _ => false
                                             end) elements)
  | JStr s => inr (is_substring (lit key) s)
  | _ => inl TypeError
  end.

(** [v[key]] for a string [key]. *)
Definition subscript (key : string) (v : json) : content_error + json :=
  match v with
  | JDict items =>
      match dict_get (lit key) items with
      | Some x => inr x
      | None => inl KeyError
      end
  | _ => inl TypeError
  end.

(** [v.get(key, fallback)] on any value: only a dict has the method. *)
Definition method_get (key : string) (fallback : json) (v : json) : content_error + json :=
  match v with
  | JDict items => inr (get_or key fallback items)
  | _ => inl AttributeError
  end.

Section Responses.

(** [str(v)], the built-in. *)
Variable py_str : json -> str.

(** One pass through the loop of [_flatten_content]. *)
Definition part_text (part : json) : str :=
  match part with
  | JDict items =>
      let text := py_or (get "text" items) (py_or (get "content" items) (JStr [])) in
      py_str text
  | _ => py_str part
  end.

Definition _flatten_content (content : json) : str :=
  match content with
  | JStr s => s
  | JList parts => concat (map part_text parts)
  | _ => py_str content
  end.

Definition _extract_content (payload : json) : content_error + str :=
  match method_get "choices" JNull payload with
  | inl e => inl e
  | inr choices =>
      if negb (truthy choices)
      then inl (Raised (ValueError "LLM response missing 'choices'."))
      else
        match subscript_0 choices with
        | inl e => inl e
        | inr choice =>
            match py_in "message" choice with
            | inl e => inl e
            | inr true =>
                match subscript "message" choice with
                | inl e => inl e
                | inr message =>
                    match method_get "content" (JStr []) message with
                    | inl e => inl e
                    | inr content => inr (_flatten_content content)
                    end
                end
            | inr false =>
                match method_get "text" (JStr []) choice with
                | inl e => inl e
                | inr content => inr (_flatten_content content)
                end
            end
        end
  end.

(** The loop over the fields [("id", "model", "name")] of one item: the
    first value that is truthy. *)
Fixpoint first_field (fields : list string) (item : list (str * json)) : option json :=
  match fields with
  | [] => None
  | field :: rest =>
      let value := get field item in
      if truthy value then Some value else first_field rest item
  end.

(** What one item of a listing appends to [models]. *)
Definition item_models (item : json) : list str :=
  match item with
  | JDict fields =>
      match first_field ["id"; "model"; "name"]%string fields with
      | Some value => [py_str value]
      | None => []
      end
  | _ => []
  end.

Definition _extract_model_ids (payload : json) : list str :=
  match payload with
  | JDict items =>
      flat_map (fun key =>
                  match get key items with
                  | JList elements => flat_map item_models elements
                  | _ => []
                  end) ["data"; "models"]%string
  | _ => []
  end.

(** What [client.get] does for [list_models]: it raises, or it returns a
    response with a status code and a body. [body] is what
    [response.json()] makes of the body: the value decoded, or the
    message of the [ValueError] raised on a body that is not JSON. *)
Inductive GetOutcome : Type :=
| GetRaises (e : exn)
| GetResponse (status_code : Z) (body : string + json).

Definition list_models (response : GetOutcome) : exn + list str :=
  match response with
  | GetRaises e => inl e
  | GetResponse status_code body =>
      if status_raises status_code then inl (HTTPStatusError status_code)
      else
        match body with
        | inl msg => inl (ValueError msg)
        | inr payload => inr (_extract_model_ids payload)
        end
  end.

(** [resolve_model]: what it returns or raises, the cached
    [_default_model] after the call, and the number of requests it
    sent. One caller at a time: under the lock the second test of the
    cache reads what the first read. *)
Definition resolve_model (response : GetOutcome) (model : option str)
           (_default_model : option str) : (exn + str) * option str * nat :=
  match model with
  | Some (c :: m) => (inr (c :: m), _default_model, 0%nat)
  | _ =>
      match _default_model with
      | Some (c :: m) => (inr (c :: m), _default_model, 0%nat)
      | _ =>
          match list_models response with
          | inl e => (inl e, _default_model, 1%nat)
          | inr [] =>
              (inl (RuntimeError "No models available from /v1/models."), _default_model, 1%nat)
          | inr (first :: _) => (inr first, Some first, 1%nat)
          end
      end
  end.

End Responses.

(** A text part of a message content, as the chat API writes it. *)
Definition text_part (t : str) : json :=
  JDict [(lit "type", JStr (lit "text")); (lit "text", JStr t)].

(** An entry of a model listing with its identifier. *)
Definition has_id (item : json) (id : str) : Prop :=
  exists fields, item = JDict fields /\ dict_get (lit "id") fields = Some (JStr id) /\ id <> [].

(** [str(v)] on the scalars that are not floats, an integer in its
    decimal notation; the empty string stands for the rendering of the
    other values, which the samples do not need. *)
Definition str_of_scalar (v : json) : str :=
  match v with
  | JStr s => s
  | JInt z => decimal z
  | JNull => lit "None"
  | JBool true => lit "True"
  | JBool false => lit "False"
  | _ => []
  end.

(** A chat response and a model listing of the server. *)
Definition sample_message : list (str * json) :=
  [(lit "role", JStr (lit "assistant")); (lit "content", JStr (lit "<|s_1|><|s_2|>"))].

Definition sample_choice : list (str * json) :=
  [(lit "index", JInt 0); (lit "message", JDict sample_message)].

Definition sample_response : list (str * json) :=
  [(lit "id", JStr (lit "chatcmpl-1")); (lit "choices", JList [JDict sample_choice])].

Definition sample_listing : list (str * json) :=
  [(lit "object", JStr (lit "list"));
   (lit "data", JList [JDict [(lit "id", JStr (lit "mio-tts")); (lit "object", JStr (lit "model"))];
                       JDict [(lit "id", JStr (lit "other"))]])].

(** ** Settings of a request *)

(** [BestOfNConfig] of a request, and the fields of the server
    configuration that [_resolve_best_of_n] reads. A language is a
    string here, as the function lower-cases it. *)
Record BestOfNConfig : Type := {
  req_enabled : option bool;
  req_n : option Z;
  req_language : option str
}.

Record ServerConfig : Type := {
  best_of_n_enabled : bool;
  best_of_n_default : Z;
  best_of_n_max : Z;
  best_of_n_language : str
}.

Record _ResolvedBestOfN : Type := {
  resolved_enabled : bool;
  resolved_n : Z;
  resolved_language : str
}.

Inductive http_error : Type :=
| HTTPException (status_code : Z) (detail : string).

Definition _resolve_best_of_n (request_best_of_n : option BestOfNConfig)
           (config : ServerConfig) : http_error + _ResolvedBestOfN :=
  if negb (best_of_n_enabled config) then
    if match request_best_of_n with
       | Some r => match req_enabled r with Some true => true | _ => false end
       | None => false
       end
    then inl (HTTPException 400 "best_of_n is disabled on the server")
    else inr {| resolved_enabled := false; resolved_n := 1;
                resolved_language := best_of_n_language config |}
  else
    let req :=
      match request_best_of_n with
      | Some r => r
      | None => {| req_enabled := None; req_n := None; req_language := None |}
      end in
    let n := match req_n req with Some n => n | None => best_of_n_default config end in
    let n := Z.max 1 (Z.min n (best_of_n_max config)) in
    let enabled := match req_enabled req with Some b => b | None => 1 <? n end in
    let language :=
      lower (match req_language req with
             | Some (c :: l) => c :: l
             | _ => best_of_n_language config
             end) in
    let language :=
      if bool_decide (language ∈ [lit "ja"; lit "en"; lit "auto"]) then language
      else lit "auto" in
    let n := if negb enabled then 1 else n in
    inr {| resolved_enabled := enabled; resolved_n := n; resolved_language := language |}.

(** ** The reference audio of a request *)

Definition chr_equals : char := 61%N.

(** The words of [data.split()] joined without a separator. *)
Definition _strip_base64_whitespace (data : str) : str := concat (split_ws [] data).

Definition _estimate_base64_decoded_size (data : str) : Z :=
  match data with
  | [] => 0
  | _ =>
      let padding_len := len data - len (rstrip_char chr_equals data) in
      Z.max 0 (len data * 3 / 4 - padding_len)
  end.

(** The length of the Base64 text of [nbytes] bytes and the number of
    [=] that end it (RFC 4648). *)
Definition base64_length (nbytes : Z) : Z := 4 * ((nbytes + 2) / 3).
Definition base64_padding (nbytes : Z) : Z := (3 - nbytes mod 3) mod 3.

(** [" ".join(words)]. *)
Fixpoint join_spaces (words : list str) : str :=
  match words with
  | [] => []
  | [w] => w
  | w :: rest => w ++ chr_space :: join_spaces rest
  end.

(** ** The recognition service *)

(** The fields of [ASRConfig] that [transcribe_batch] reads. *)
Record ASRConfig : Type := {
  batch_size : Z;
  language : string
}.

Definition _resolve_language (requested : option string) (default_lang : string)
  : option string :=
  if match requested with Some l => is_ja_or_en l | None => false end then requested
  else if is_ja_or_en default_lang then Some default_lang
  else None.

(** The dict of keyword arguments, by its items. *)
Definition _build_generate_kwargs (language : option string) : list (string * string) :=
  let kwargs := [("task", "transcribe")]%string in
  match language with
  | Some l =>
      if String.eqb l "ja" then kwargs ++ [("language", "japanese")]%string
      else if String.eqb l "en" then kwargs ++ [("language", "english")]%string
      else kwargs
  | None => kwargs
  end.

(** The recognition pipeline of [transformers], called with the prepared
    waveforms, [batch_size] and [generate_kwargs]: what it returns, or
    the exception it raises. *)
Definition Pipeline : Type := list (list Q) -> Z -> list (string * string) -> exn + json.

(** The first error of a list of results, or all the values. *)
Fixpoint collect {E A : Type} (results : list (E + A)) : E + list A :=
  match results with
  | [] => inr []
  | inl e :: _ => inl e
  | inr x :: rest =>
      match collect rest with
      | inl e => inl e
      | inr xs => inr (x :: xs)
      end
  end.

Section Recognition.

(** [_prepare_audio]: the waveform flattened, resampled to 16 kHz by
    torchaudio and converted, or the exception raised on the way. *)
Variable _prepare_audio : list Q -> Z -> exn + list Q.

Variable py_str : json -> str.

Definition _extract_text (output : json) : content_error + str :=
  match output with
  | JDict items =>
      match get_or "text" (JStr []) items with
      | JStr text => inr (strip text)
      | _ => inl AttributeError
      end
  | JList (first :: _) =>
      let text :=
        match first with
        | JDict items => get_or "text" (JStr []) items
        | _ => JStr (py_str first)
        end in
      inr (strip (py_str text))
  | _ => inr (strip (py_str output))
  end.

(** [transcribe_batch], with the pipeline when it is loaded. *)
Definition transcribe_batch (config : ASRConfig) (pipeline : option Pipeline)
           (audio_list : list (list Q)) (sample_rate : Z) (requested : option string)
  : content_error + list str :=
  let total := len audio_list in
  if total =? 0 then inr []
  else
    let batch_size :=
      if batch_size config <=? 0 then total else Z.min (batch_size config) total in
    match collect (map (fun audio => _prepare_audio audio sample_rate) audio_list) with
    | inl e => inl (Raised e)
    | inr audio_np_list =>
        let lang := _resolve_language requested (language config) in
        let generate_kwargs := _build_generate_kwargs lang in
        match pipeline with
        | None => inl (Raised (RuntimeError "ASR pipeline is not loaded."))
        | Some pipeline =>
            match pipeline audio_np_list batch_size generate_kwargs with
            | inl e => inl (Raised e)
            | inr (JDict items) =>
                match _extract_text (JDict items) with
                | inl e => inl e
                | inr text => inr [text]
                end
            | inr (JList outputs) => collect (map _extract_text outputs)
            | inr (JStr s) => collect (map (fun c => _extract_text (JStr [c])) s)
            | inr _ => inl TypeError
            end
        end
    end.

End Recognition.

(** A pipeline called within its contract: with as many waveforms as
    the batch holds and a batch size between 1 and that number. *)
Definition guarded (total : nat) (pipeline : Pipeline) : Pipeline :=
  fun audio_np_list batch_size generate_kwargs =>
    if (length audio_np_list =? total)%nat && (1 <=? batch_size)
       && (batch_size <=? Z.of_nat total)
    then pipeline audio_np_list batch_size generate_kwargs
    else inl (OtherError 0).

(** An output of the pipeline for one waveform. *)
Definition text_output (text : str) : json := JDict [(lit "text", JStr text)].

(** A pipeline that hears the same words in every waveform, and a
    preparation that leaves a waveform as it is. *)
Definition sample_pipeline : Pipeline :=
  fun audio_np_list _ _ => inr (JList (map (fun _ => text_output (lit " the cat ")) audio_np_list)).

Definition sample_prepare (audio : list Q) (sample_rate : Z) : exn + list Q := inr audio.

(** ** The speech-to-text server *)

(** A character of the class of [_EMOJI_RE]. *)
Definition is_emoji (c : char) : bool :=
  ((0x1F600 <=? c) && (c <=? 0x1F64F)
   || (0x1F300 <=? c) && (c <=? 0x1F5FF)
   || (0x1F680 <=? c) && (c <=? 0x1F6FF)
   || (0x1F700 <=? c) && (c <=? 0x1F77F)
   || (0x1F780 <=? c) && (c <=? 0x1F7FF)
   || (0x1F800 <=? c) && (c <=? 0x1F8FF)
   || (0x1F900 <=? c) && (c <=? 0x1F9FF)
   || (0x1FA00 <=? c) && (c <=? 0x1FA6F)
   || (0x1FA70 <=? c) && (c <=? 0x1FAFF)
   || (0x1F1E0 <=? c) && (c <=? 0x1F1FF)
   || (0x2702 <=? c) && (c <=? 0x27B0)
   || (0x24C2 <=? c) && (c <=? 0x24FF)
   || (0x2640 <=? c) && (c <=? 0x2642)
   || (0x2600 <=? c) && (c <=? 0x2B55)
   || (c =? 0x200D)
   || (c =? 0x23CF)
   || (0x23E9 <=? c) && (c <=? 0x23F3)
   || (0x231A <=? c) && (c <=? 0x231B)
   || (c =? 0xFE0F)
   || (c =? 0x3030)
   || (0x2934 <=? c) && (c <=? 0x2935)
   || (0x25AA <=? c) && (c <=? 0x25AB)
   || (0x25FB <=? c) && (c <=? 0x25FE)
   || (0x2B05 <=? c) && (c <=? 0x2B07)
   || (0x2B1B <=? c) && (c <=? 0x2B1C))%N.

Definition strip_emoji (text : str) : str :=
  strip (List.filter (fun c => negb (is_emoji c)) text).

Definition MAX_HISTORY : nat := 5.

(** [d.append(x)] on a [deque(maxlen=maxlen)]: a full deque drops its
    oldest entry. *)
Definition deque_append {A : Type} (maxlen : nat) (d : list A) (x : A) : list A :=
  drop (length (d ++ [x]) - maxlen) (d ++ [x]).

(** The reply used when the model returns nothing. *)
Definition fallback_reply : str :=
  [0x3046; 0x3093; 0x3001; 0x304D; 0x3044; 0x3066; 0x308B; 0x3088; 0xFF01]%N.

(** What [generate_content] and the reading of [response.text] do: they
    raise, or they give the text, if any; [then_raises] tells whether
    the reading of the grounding metadata that follows raises. *)
Inductive GenerateOutcome : Type :=
| GenerateRaises
| Generated (text : option str) (then_raises : bool).

(** The reply the code makes of the text of a response. *)
Definition reply_of (text : option str) : str :=
  let reply :=
    match text with
    | Some (c :: t) => strip (c :: t)
    | _ => []
    end in
  let reply := strip_emoji reply in
  let reply := if 30 <? len reply then take 30 reply else reply in
  match reply with
  | [] => fallback_reply
  | _ => reply
  end.

(** [ask_gemini]: what it returns and the history of the character after
    the call. [client] tells whether [get_gemini] gives a client; an
    entry of the history is the pair of the user's text and the reply. *)
Definition ask_gemini (client : bool) (outcome : GenerateOutcome) (user_text : str)
           (history : list (str * str)) : str * list (str * str) :=
  if negb client then (user_text, history)
  else
    match outcome with
    | GenerateRaises => (user_text, history)
    | Generated text then_raises =>
        let reply := reply_of text in
        let history := deque_append MAX_HISTORY history (user_text, reply) in
        if then_raises then (user_text, history) else (reply, history)
    end.

(** ** Upload of a reference file *)

(** The details of the errors [_read_reference_file] raises, both with
    status 400: each stands for the f-string the code builds from it. *)
Inductive upload_error : Type :=
| UnsupportedExtension (ext : str)
| ReferenceTooLarge (max_reference_mb : Q).

Definition chr_dot : char := 46%N.

(** [name.rsplit(".", 1)[-1]]: what follows the last dot, the whole name
    when it has none. *)
Definition after_last_dot (name : str) : str :=
  rev ((fix until_dot (s : str) : str :=
          match s with
          | [] => []
          | c :: r => if (c =? chr_dot)%N then [] else c :: until_dot r
          end) (rev name)).

(** The loop over [file.read(chunk_size)]: [reads] holds what the
    successive calls return, and the end of the list stands for the end
    of the file, as an empty chunk does. *)
Fixpoint read_chunks {byte : Type} (max_reference_mb : Q) (reads : list (list byte))
         (total : Z) (chunks : list (list byte)) : upload_error + list byte :=
  match reads with
  | [] => inr (concat chunks)
  | [] :: _ => inr (concat chunks)
  | chunk :: rest =>
      let total := total + len chunk in
      if Qltb (max_reference_mb * 1024 * 1024) (inject_Z total)
      then inl (ReferenceTooLarge max_reference_mb)
      else read_chunks max_reference_mb rest total (chunks ++ [chunk])
  end.

Definition _read_reference_file {byte : Type} (max_reference_mb : Q)
           (allowed_extensions : list str) (filename : option str)
           (reads : list (list byte)) : upload_error + list byte :=
  let check :=
    match filename with
    | Some (c :: name) =>
        let ext :=
          if existsb (fun x => (x =? chr_dot)%N) (c :: name)
          then lower (chr_dot :: after_last_dot (c :: name))
          else [] in
        if bool_decide (ext ∈ allowed_extensions) then None
        else Some (UnsupportedExtension ext)
    | _ => None
    end in
  match check with
  | Some e => inl e
  | None => read_chunks max_reference_mb reads 0 []
  end.

(** The chunks of a file up to its end. *)
Fixpoint file_chunks {byte : Type} (reads : list (list byte)) : list (list byte) :=
  match reads with
  | [] => []
  | [] :: _ => []
  | chunk :: rest => chunk :: file_chunks rest
  end.

(** * Properties *)

(** ** Token parser *)

Lemma fold_digits_acc (d : Decimal.uint) (acc : positive) :
  fold_left (fun a c => 10 * a + match digit_val c with Some v => v | None => 0 end)
            (uint_chars d) (Zpos acc)
  = Zpos (Pos.of_uint_acc d acc).
Proof using digit_val_ascii.
  revert acc.
  induction d; intros acc; cbn [uint_chars fold_left Pos.of_uint_acc];
    try reflexivity;
    rewrite digit_val_ascii by reflexivity; cbn [ascii_digit_val];
    match goal with
    | |- fold_left _ _ ?z = _ =>
        match goal with
        | |- _ = Zpos (Pos.of_uint_acc _ ?p) =>
            replace z with (Zpos p) by (cbn; lia)
        end
    end; apply IHd.
Qed.

Lemma digits_value_uint (d : Decimal.uint) :
  digits_value (uint_chars d) = Z.of_N (Pos.of_uint d).
Proof using digit_val_ascii.
  unfold digits_value.
  induction d; cbn [uint_chars fold_left Pos.of_uint]; try reflexivity;
    rewrite digit_val_ascii by reflexivity; cbn [ascii_digit_val];
    [ exact IHd | .. ];
    match goal with
    | |- fold_left _ _ ?z = Z.of_N (N.pos (Pos.of_uint_acc _ ?p)) =>
        replace z with (Zpos p) by (cbn; lia)
    end; apply fold_digits_acc.
Qed.

Lemma digits_value_decimal (t : Z) :
  0 <= t -> digits_value (decimal t) = t.
Proof using digit_val_ascii.
  intros Ht. unfold decimal.
  destruct (Z.ltb_spec t 0) as [Hneg | _]; [lia |].
  rewrite digits_value_uint.
  change (Pos.of_uint (N.to_uint (Z.to_N t))) with (N.of_uint (N.to_uint (Z.to_N t))).
  rewrite DecimalN.Unsigned.of_to. lia.
Qed.


Lemma uint_chars_digits (d : Decimal.uint) : Forall ascii_digit (uint_chars d).
Proof.
  induction d; cbn [uint_chars]; constructor; try assumption; unfold ascii_digit; lia.
Qed.

Lemma ascii_digit_is_digit (c : char) : ascii_digit c -> is_digit c = true.
Proof using digit_val_ascii.
  unfold ascii_digit, is_digit. intros Hc.
  rewrite digit_val_ascii by (unfold is_ascii; apply N.ltb_lt; lia).
  unfold ascii_digit_val.
  destruct (N.leb_spec 48 c); [| lia].
  destruct (N.leb_spec c 57); [| lia].
  reflexivity.
Qed.

Lemma N_to_uint_nonnil (n : N) : N.to_uint n <> Decimal.Nil.
Proof.
  destruct n as [| p]; cbn; [discriminate |].
  apply DecimalPos.Unsigned.to_uint_nonnil.
Qed.

Lemma decimal_digits_shape (t : Z) :
  0 <= t -> decimal t <> [] /\ Forall ascii_digit (decimal t).
Proof.
  intros Ht. unfold decimal.
  destruct (Z.ltb_spec t 0) as [Hneg | _]; [lia |].
  split; [| apply uint_chars_digits].
  pose proof (N_to_uint_nonnil (Z.to_N t)) as Hnn.
  destruct (N.to_uint (Z.to_N t)); cbn [uint_chars]; congruence.
Qed.

(** On digits followed by the closing [|>], the greedy match captures
    exactly the digits. *)
Lemma match_digits_close_digits (ds rest : str) :
  ds <> [] -> Forall ascii_digit ds ->
  match_digits_close (ds ++ lit "|>" ++ rest) = Some ds.
Proof using digit_val_ascii.
  induction ds as [| c ds IH]; [congruence |].
  intros _ Hall. inversion Hall as [| ? ? Hc Hds]; subst.
  cbn [app match_digits_close].
  rewrite (ascii_digit_is_digit c Hc).
  destruct ds as [| c' ds'].
  - cbn [app]. change (lit "|>" ++ rest) with (124%N :: 62%N :: rest).
    cbn [match_digits_close].
    unfold is_digit at 1. rewrite digit_val_ascii by reflexivity.
    cbn. reflexivity.
  - rewrite IH by (congruence || assumption). reflexivity.
Qed.

Lemma match_token_marker (ds rest : str) :
  ds <> [] -> Forall ascii_digit ds ->
  match_token (lit "<|s_" ++ ds ++ lit "|>" ++ rest) = Some ds.
Proof using digit_val_ascii.
  intros Hne Hall. unfold match_token.
  change (lit "<|s_" ++ ds ++ lit "|>" ++ rest)
    with (60%N :: 124%N :: 115%N :: 95%N :: (ds ++ lit "|>" ++ rest)).
  cbn [strip_prefix lit map list_ascii_of_string N_of_ascii N.eqb Pos.eqb].
  change (strip_prefix (lit "<|s_") (60%N :: 124%N :: 115%N :: 95%N :: (ds ++ lit "|>" ++ rest)))
    with (Some (ds ++ lit "|>" ++ rest)).
  apply match_digits_close_digits; assumption.
Qed.

(** Passing over the rest of a match. *)
Lemma findall_from_skip (p s : str) :
  findall_from (length p) (p ++ s) = findall_from 0 s.
Proof.
  induction p as [| c p IH]; [reflexivity |].
  cbn [length app findall_from]. exact IH.
Qed.

(** *** The conversions within and beyond the limit *)

Lemma exceeds_limit_le (digits : nat) :
  int_max_str_digits = 0%nat \/ (digits <= int_max_str_digits)%nat ->
  exceeds_limit digits = false.
Proof.
  unfold exceeds_limit. intros [H0 | Hle].
  - rewrite H0. change (0 <? 0)%nat with false.
    rewrite andb_false_r. reflexivity.
  - destruct (Nat.ltb_spec int_max_str_digits digits); [lia |]. apply andb_false_r.
Qed.

Lemma exceeds_limit_gt (digits : nat) :
  exceeds_limit digits = true ->
  (0 < int_max_str_digits < digits)%nat.
Proof.
  unfold exceeds_limit. intros H.
  apply andb_true_iff in H as [H H3]. apply andb_true_iff in H as [_ H2].
  apply Nat.ltb_lt in H2, H3. lia.
Qed.

Lemma within_limit_iff (t : Z) :
  int_max_str_digits = 0%nat
  \/ (decimal_digits t <= 640)%nat
  \/ (decimal_digits t <= int_max_str_digits)%nat <-> within_limit t.
Proof.
  unfold within_limit, exceeds_limit.
  destruct (Nat.ltb_spec 640 (decimal_digits t));
    destruct (Nat.ltb_spec 0 int_max_str_digits);
    destruct (Nat.ltb_spec int_max_str_digits (decimal_digits t));
    cbn [andb]; split; intros; try reflexivity; try discriminate; lia.
Qed.

Lemma decimal_digits_nonneg (t : Z) : 0 <= t -> decimal_digits t = length (decimal t).
Proof.
  intros Ht. unfold decimal_digits.
  destruct (Z.ltb_spec t 0); [lia |]. lia.
Qed.

Lemma str_of_int_within (t : Z) : within_limit t -> str_of_int t = inr (decimal t).
Proof. unfold within_limit, str_of_int. intros ->. reflexivity. Qed.

Lemma str_of_int_beyond (t : Z) :
  ~ within_limit t -> str_of_int t = inl (ValueError limit_message_to_str).
Proof.
  unfold within_limit, str_of_int. intros H.
  destruct (exceeds_limit (decimal_digits t)); [reflexivity | congruence].
Qed.

Lemma int_of_digits_decimal (t : Z) :
  0 <= t -> within_limit t -> int_of_digits (decimal t) = inr t.
Proof using digit_val_ascii.
  intros Ht Hw. unfold int_of_digits.
  rewrite <- decimal_digits_nonneg by assumption. rewrite Hw.
  rewrite digits_value_decimal by assumption. reflexivity.
Qed.

Lemma int_of_digits_beyond (t : Z) :
  0 <= t -> ~ within_limit t ->
  int_of_digits (decimal t)
  = inl (ValueError (limit_message_to_int (decimal_digits t))).
Proof.
  intros Ht Hw. unfold int_of_digits.
  rewrite <- decimal_digits_nonneg by assumption.
  unfold within_limit in Hw.
  destruct (exceeds_limit (decimal_digits t)); [reflexivity | congruence].
Qed.

Lemma try_map_all {E A B : Type} (f : A -> E + B) (g : A -> B) (l : list A) :
  Forall (fun x => f x = inr (g x)) l -> try_map f l = inr (map g l).
Proof.
  induction 1 as [| x l Hx _ IH]; [reflexivity |].
  cbn [try_map map]. rewrite Hx, IH. reflexivity.
Qed.

(** The first member that raises decides the error. *)
Lemma try_map_raises {E A B : Type} (f : A -> E + B) (P : E -> Prop) (l : list A) :
  (forall x e, In x l -> f x = inl e -> P e) ->
  Exists (fun x => exists e, f x = inl e) l ->
  exists e, try_map f l = inl e /\ P e.
Proof.
  intros HP Hex. induction Hex as [x l (e & He) | x l _ IH].
  - cbn [try_map]. rewrite He. exists e. split; [reflexivity |].
    apply (HP x); [left; reflexivity | exact He].
  - cbn [try_map]. destruct (f x) as [e | y] eqn:Efx.
    + exists e. split; [reflexivity |]. apply (HP x); [left; reflexivity | exact Efx].
    + destruct IH as (e & -> & He); [intros x' e' Hin; apply HP; right; exact Hin |].
      exists e. split; [reflexivity | exact He].
Qed.

(** Within the limit, the rendering is the text of the markers. *)
Lemma tokens_to_str_within (S : list Z) :
  Forall within_limit S ->
  tokens_to_str S = inr (render_segments (map Marker S)).
Proof.
  intros Hw. unfold tokens_to_str, render_segments.
  rewrite (try_map_all _ (fun t => render_segment (Marker t))).
  - rewrite map_map. reflexivity.
  - eapply Forall_impl; [exact Hw |].
    intros t Ht. cbn beta. rewrite str_of_int_within by exact Ht. reflexivity.
Qed.

(** Beyond it, for one token at least, the rendering raises. *)
Lemma tokens_to_str_beyond (S : list Z) :
  Exists (fun t => ~ within_limit t) S ->
  tokens_to_str S = inl (ValueError limit_message_to_str).
Proof.
  intros Hex. unfold tokens_to_str.
  destruct (try_map_raises
              (fun token =>
                 match str_of_int token with
                 | inl e => inl e
                 | inr digits => inr (lit "<|s_" ++ digits ++ lit "|>")
                 end)
              (fun e => e = ValueError limit_message_to_str) S) as (e & -> & ->).
  - intros t e _. unfold str_of_int.
    destruct (exceeds_limit (decimal_digits t)); [intros [= <-]; reflexivity | discriminate].
  - eapply Exists_impl; [exact Hex |].
    intros t Ht. cbn beta. rewrite str_of_int_beyond by exact Ht. eexists. reflexivity.
  - reflexivity.
Qed.

(** The markers of tokens that are not negative are found, each with
    its digits. *)
Lemma findall_markers (S : list Z) :
  Forall (fun t => 0 <= t) S ->
  findall (render_segments (map Marker S)) = map decimal S.
Proof using digit_val_ascii.
  unfold findall, render_segments.
  induction S as [| t S IH]; intros Hall; [reflexivity |].
  inversion Hall as [| ? ? Ht HS]; subst.
  destruct (decimal_digits_shape t Ht) as [Hne Hdig].
  cbn [map concat render_segment].
  set (rest := concat (map render_segment (map Marker S))) in *.
  rewrite <- !app_assoc.
  remember (lit "<|s_" ++ decimal t ++ lit "|>" ++ rest) as text eqn:Etext.
  assert (Hm : match_token text = Some (decimal t))
    by (subst text; apply match_token_marker; assumption).
  assert (Etext' : text = 60%N :: (lit "|s_" ++ decimal t ++ lit "|>") ++ rest).
  { subst text. rewrite <- !app_assoc. reflexivity. }
  rewrite Etext' in Hm |- *.
  cbn [findall_from]. rewrite Hm. cbn [map]. f_equal.
  replace (length (lit "<|s_") + length (decimal t) + 1)%nat
    with (length (lit "|s_" ++ decimal t ++ lit "|>")).
  - rewrite findall_from_skip. apply IH. assumption.
  - rewrite !length_app. cbn. lia.
Qed.

Lemma parse_of_findall (text : str) (S : list Z) :
  Forall (fun t => 0 <= t) S ->
  Forall within_limit S ->
  findall text = map decimal S ->
  parse_speech_tokens text
  = match S with
    | [] => inl (ValueError "No speech tokens found in LLM output.")
    | _ => inr S
    end.
Proof using digit_val_ascii.
  intros Hall Hw Hfind. unfold parse_speech_tokens. rewrite Hfind.
  rewrite (try_map_all _ (fun ds => digits_value ds)).
  - rewrite map_map.
    assert (Hid : map (fun t => digits_value (decimal t)) S = S).
    { clear Hfind Hw. induction Hall as [| t S Ht _ IH]; [reflexivity |].
      cbn [map]. rewrite digits_value_decimal by assumption.
      rewrite IH. reflexivity. }
    rewrite Hid. destruct S; reflexivity.
  - apply Forall_map. clear Hfind.
    induction Hall as [| t S Ht _ IH]; [constructor |].
    inversion Hw as [| ? ? Hwt HwS]; subst.
    constructor; [| apply IH; exact HwS].
    cbn beta. pose proof (int_of_digits_decimal t Ht Hwt) as H.
    unfold int_of_digits in H |- *.
    destruct (exceeds_limit (length (decimal t))); [discriminate | reflexivity].
Qed.

(** A marker found beyond the limit makes the parser raise the error of
    the conversion. *)
Lemma parse_of_findall_beyond (text : str) (S : list Z) :
  Forall (fun t => 0 <= t) S ->
  Exists (fun t => ~ within_limit t) S ->
  findall text = map decimal S ->
  exists digits,
    parse_speech_tokens text = inl (ValueError (limit_message_to_int digits))
    /\ (0 < int_max_str_digits < digits)%nat.
Proof.
  intros Hall Hex Hfind. unfold parse_speech_tokens. rewrite Hfind.
  destruct (try_map_raises int_of_digits
              (fun e => exists digits,
                          e = ValueError (limit_message_to_int digits)
                          /\ (0 < int_max_str_digits < digits)%nat)
              (map decimal S)) as (e & -> & digits & -> & Hd).
  - intros ds e _. unfold int_of_digits.
    destruct (exceeds_limit (length ds)) eqn:E; [| discriminate].
    intros [= <-]. exists (length ds). split; [reflexivity |].
    apply exceeds_limit_gt, E.
  - apply Exists_exists. apply Exists_exists in Hex as (t & Hin & Ht).
    exists (decimal t). split; [apply list_elem_of_In, in_map, list_elem_of_In, Hin |].
    rewrite Forall_forall in Hall.
    rewrite int_of_digits_beyond; [eexists; reflexivity | | exact Ht].
    apply Hall, Hin.
  - exists digits. split; [reflexivity | exact Hd].
Qed.

(** C2, as amended: for every sequence [S] of non-negative integers that
    is not empty and whose members the interpreter converts (no limit
    set, no more than 640 digits, or no more digits than the limit, 4300
    unless set otherwise), rendering [S] and parsing the text succeeds
    and yields exactly [S]. The empty sequence renders to the empty text,
    on which the parser raises its error instead of returning the empty
    sequence, and a member of more digits than the limit makes the
    rendering raise the ValueError of the conversion. *)
Theorem parse_render_roundtrip (S : list Z) :
  Forall (fun t => 0 <= t) S ->
  (S <> [] -> Forall within_limit S ->
   exists text, tokens_to_str S = inr text /\ parse_speech_tokens text = inr S)
  /\ (S = [] ->
      tokens_to_str S = inr []
      /\ parse_speech_tokens [] = inl (ValueError "No speech tokens found in LLM output."))
  /\ (Exists (fun t => ~ within_limit t) S ->
      tokens_to_str S = inl (ValueError limit_message_to_str))
  /\ (forall t, int_max_str_digits = 0%nat
                \/ (decimal_digits t <= 640)%nat
                \/ (decimal_digits t <= int_max_str_digits)%nat <-> within_limit t).
Proof using digit_val_ascii.
  intros Hall. split; [| split; [| split]].
  - intros Hne Hw. exists (render_segments (map Marker S)).
    split; [apply tokens_to_str_within, Hw |].
    rewrite (parse_of_findall _ S Hall Hw (findall_markers S Hall)).
    destruct S; [congruence | reflexivity].
  - intros ->. split; reflexivity.
  - apply tokens_to_str_beyond.
  - intros t. apply within_limit_iff.
Qed.

(** ** Comparisons and quotients of rationals *)

Lemma Qltb_lt (a b : Q) : Qltb a b = true <-> (a < b)%Q.
Proof.
  unfold Qltb. rewrite negb_true_iff. split.
  - intros H. apply Qnot_le_lt. intros Hle. apply Qle_bool_iff in Hle. congruence.
  - intros H. destruct (Qle_bool b a) eqn:E; [| reflexivity].
    apply Qle_bool_iff in E. exfalso. exact (Qlt_not_le _ _ H E).
Qed.

Lemma Qltb_ge (a b : Q) : Qltb a b = false <-> (b <= a)%Q.
Proof.
  unfold Qltb. rewrite negb_false_iff. apply Qle_bool_iff.
Qed.

Lemma Qleb_le (a b : Q) : Qleb a b = true <-> (a <= b)%Q.
Proof. apply Qle_bool_iff. Qed.

Lemma Qleb_gt (a b : Q) : Qleb a b = false <-> (b < a)%Q.
Proof.
  unfold Qleb. split.
  - intros H. apply Qnot_le_lt. intros Hle. apply Qle_bool_iff in Hle. congruence.
  - intros H. destruct (Qle_bool a b) eqn:E; [| reflexivity].
    apply Qle_bool_iff in E. exfalso. exact (Qlt_not_le _ _ H E).
Qed.

Lemma Zdivq_make (a b : Z) : 0 < b -> (Zdivq a b == a # Z.to_pos b)%Q.
Proof.
  intros Hb. unfold Zdivq. destruct b as [| p | p]; try lia.
  cbn [Z.to_pos]. symmetry. apply Qmake_Qdiv.
Qed.

Lemma Zdivq_bounds (a b : Z) :
  0 <= a <= b -> 0 < b -> (0 <= Zdivq a b <= 1)%Q.
Proof.
  intros Ha Hb. rewrite (Zdivq_make a b Hb).
  unfold Qle. cbn [Qnum Qden]. rewrite Z2Pos.id by lia. lia.
Qed.

Lemma Zdivq_pos (a b : Z) : 0 < a -> 0 < b -> (0 < Zdivq a b)%Q.
Proof.
  intros Ha Hb. rewrite (Zdivq_make a b Hb).
  unfold Qlt. cbn [Qnum Qden]. lia.
Qed.

Lemma Zdivq_same (a : Z) : 0 < a -> (Zdivq a a == 1)%Q.
Proof.
  intros Ha. rewrite (Zdivq_make a a Ha).
  unfold Qeq. cbn [Qnum Qden]. rewrite Z2Pos.id by lia. lia.
Qed.

(** [max] of three numbers. *)
Lemma py_max_three (a b c : Q) :
  exists m, py_max [a; b; c] = Some m /\ (m == Qmax (Qmax a b) c)%Q.
Proof.
  unfold py_max. cbn [fold_left]. eexists. split; [reflexivity |].
  destruct (Qltb a b) eqn:Eab.
  - apply Qltb_lt in Eab.
    rewrite (Q.max_r a b) by (apply Qlt_le_weak; exact Eab).
    destruct (Qltb b c) eqn:Ebc.
    + apply Qltb_lt in Ebc. rewrite Q.max_r by (apply Qlt_le_weak; exact Ebc). reflexivity.
    + apply Qltb_ge in Ebc. rewrite Q.max_l by exact Ebc. reflexivity.
  - apply Qltb_ge in Eab. rewrite (Q.max_l a b) by exact Eab.
    destruct (Qltb a c) eqn:Eac.
    + apply Qltb_lt in Eac. rewrite Q.max_r by (apply Qlt_le_weak; exact Eac). reflexivity.
    + apply Qltb_ge in Eac. rewrite Q.max_l by exact Eac. reflexivity.
Qed.

(** ** Repetition penalty *)

Lemma ngrams_short (n : nat) (l : list Z) : (length l < n)%nat -> ngrams n l = [].
Proof.
  intros H. destruct l as [| x r]; [reflexivity |].
  cbn [ngrams]. destruct (Nat.leb_spec n (length (x :: r))); [lia | reflexivity].
Qed.

Lemma slices_ngrams (n : nat) (l : list Z) :
  (1 <= n <= length l)%nat ->
  map (fun i => py_slice l i n) (seq 0 (length l - n + 1)) = ngrams n l.
Proof.
  induction l as [| x r IH]; intros Hn.
  - cbn in Hn. lia.
  - cbn [ngrams]. destruct (Nat.leb_spec n (length (x :: r))) as [_ | Hlt]; [| lia].
    cbn [length] in *.
    destruct (Nat.le_gt_cases n (length r)) as [Hle | Hgt].
    + replace (S (length r) - n + 1)%nat with (S (length r - n + 1)) by lia.
      cbn [seq map]. rewrite <- seq_shift, map_map.
      unfold py_slice at 1. cbn [drop]. f_equal.
      rewrite <- IH by lia. apply map_ext. intros i. reflexivity.
    + replace (S (length r) - n + 1)%nat with 1%nat by lia.
      cbn [seq map]. rewrite (ngrams_short n r Hgt). reflexivity.
Qed.

Lemma length_ngrams (n : nat) (l : list Z) :
  (1 <= n <= length l)%nat -> length (ngrams n l) = (length l - n + 1)%nat.
Proof.
  intros H. rewrite <- (slices_ngrams n l H), length_map, length_seq. reflexivity.
Qed.

(** The keys of [counts] after the loop are the n-grams met. *)
Lemma dom_count_loop (grams : list (list Z)) (m : gmap (list Z) Z) :
  dom (fold_left (fun (counts : gmap (list Z) Z) gram =>
                    <[gram := default 0 (counts !! gram) + 1]> counts) grams m)
  = dom m ∪ list_to_set grams.
Proof.
  clear digit_val_ascii lower_ascii status_raises_error int_max_str_digits.
  revert m. induction grams as [| g grams IH]; intros m; cbn [fold_left].
  - set_solver.
  - rewrite IH, dom_insert_L. set_solver.
Qed.

Lemma count_grams_fold (tokens : list Z) (n total : nat) :
  count_grams tokens n total
  = fold_left (fun (counts : gmap (list Z) Z) gram =>
                 <[gram := default 0 (counts !! gram) + 1]> counts)
              (map (fun i => py_slice tokens i n) (seq 0 total)) ∅.
Proof.
  unfold count_grams. generalize (∅ : gmap (list Z) Z). generalize (seq 0 total).
  intros l. induction l as [| i l IH]; intros m; [reflexivity |].
  cbn [map fold_left]. apply IH.
Qed.

Lemma size_list_to_set_dups (l : list (list Z)) :
  size (list_to_set l : gset (list Z)) = length (remove_dups l).
Proof.
  rewrite <- (size_list_to_set (C := gset (list Z)) (remove_dups l))
    by apply NoDup_remove_dups.
  f_equal. apply set_eq. intros x.
  rewrite !elem_of_list_to_set, elem_of_remove_dups. reflexivity.
Qed.

(** [len(counts)] is the number of distinct n-grams. *)
Lemma size_count_grams (tokens : list Z) (n : nat) :
  (1 <= n <= length tokens)%nat ->
  size (count_grams tokens n (length tokens - n + 1))
  = length (remove_dups (ngrams n tokens)).
Proof.
  intros Hn. rewrite count_grams_fold, (slices_ngrams n tokens Hn).
  rewrite <- size_dom, dom_count_loop, dom_empty_L, (left_id_L ∅ (∪)).
  apply size_list_to_set_dups.
Qed.

(** The code's ratio is the ratio of the specification. *)
Lemma ngram_repeat_ratio_spec (tokens : list Z) (n : nat) :
  (1 <= n)%nat -> (_ngram_repeat_ratio tokens n == ngram_ratio n tokens)%Q.
Proof.
  intros Hn1. unfold _ngram_repeat_ratio, ngram_ratio, len.
  destruct (Z.leb_spec (Z.of_nat (length tokens) - Z.of_nat n + 1) 0) as [Hle | Hgt];
    destruct (Nat.ltb_spec (length tokens) n) as [Hlt | Hge]; try lia.
  - reflexivity.
  - replace (Z.to_nat (Z.of_nat (length tokens) - Z.of_nat n + 1))
      with (length tokens - n + 1)%nat by lia.
    rewrite (size_count_grams tokens n), (length_ngrams n tokens) by lia.
    replace (Z.of_nat (length tokens - n + 1))
      with (Z.of_nat (length tokens) - Z.of_nat n + 1) by lia.
    reflexivity.
Qed.


Lemma remove_dups_nonempty (l : list (list Z)) : l <> [] -> remove_dups l <> [].
Proof.
  destruct l as [| x r]; [congruence |]. intros _ Hnil.
  assert (Hx : x ∈ remove_dups (x :: r)) by (apply elem_of_remove_dups; left).
  rewrite Hnil in Hx. inversion Hx.
Qed.

Lemma length_remove_dups_le (l : list (list Z)) :
  (length (remove_dups l) <= length l)%nat.
Proof.
  induction l as [| x r IH]; [reflexivity |].
  cbn [remove_dups length]. destruct (decide_rel elem_of x r); cbn [length]; lia.
Qed.

Lemma length_remove_dups_NoDup (l : list (list Z)) :
  NoDup l -> length (remove_dups l) = length l.
Proof.
  intros Hnd. rewrite <- size_list_to_set_dups.
  apply (size_list_to_set (C := gset (list Z))). exact Hnd.
Qed.

(** Each ratio lies in [[0, 1)]: at least one n-gram is unique. *)
Lemma ngram_ratio_range (n : nat) (tokens : list Z) :
  (1 <= n)%nat -> (0 <= ngram_ratio n tokens < 1)%Q.
Proof.
  intros Hn. unfold ngram_ratio.
  destruct (Nat.ltb_spec (length tokens) n) as [Hlt | Hge]; [split; lra |].
  pose proof (length_ngrams n tokens (conj Hn Hge)) as Hlen.
  assert (Hne : ngrams n tokens <> []).
  { intros E. rewrite E in Hlen. cbn in Hlen. lia. }
  pose proof (remove_dups_nonempty _ Hne) as Hd.
  pose proof (length_remove_dups_le (ngrams n tokens)) as Hle.
  set (d := length (remove_dups (ngrams n tokens))) in *.
  set (p := length (ngrams n tokens)) in *.
  assert (Hd0 : (0 < d)%nat).
  { subst d. destruct (remove_dups (ngrams n tokens)); [congruence | cbn; lia]. }
  pose proof (Zdivq_bounds (Z.of_nat d) (Z.of_nat p) ltac:(lia) ltac:(lia)) as [_ Hub].
  pose proof (Zdivq_pos (Z.of_nat d) (Z.of_nat p) ltac:(lia) ltac:(lia)) as Hpos.
  split; lra.
Qed.

(** Without a repeated token no n-gram repeats. *)
Lemma ngrams_heads (n : nat) (l w : list Z) :
  (1 <= n)%nat -> w ∈ ngrams n l -> exists y w', w = y :: w' /\ y ∈ l.
Proof.
  intros Hn. induction l as [| x r IH]; cbn [ngrams]; intros Hw.
  - inversion Hw.
  - destruct (n <=? length (x :: r))%nat; [| inversion Hw].
    apply elem_of_cons in Hw as [-> | Hw].
    + destruct n as [| k]; [lia |]. cbn [take]. exists x, (take k r). split; [reflexivity | left].
    + destruct (IH Hw) as (y & w' & -> & Hy). exists y, w'. split; [reflexivity | right; exact Hy].
Qed.

Lemma NoDup_ngrams (n : nat) (l : list Z) :
  (1 <= n)%nat -> NoDup l -> NoDup (ngrams n l).
Proof.
  intros Hn Hnd. induction Hnd as [| x r Hx Hr IH]; cbn [ngrams]; [constructor |].
  destruct (n <=? length (x :: r))%nat; [| constructor].
  constructor; [| exact IH].
  intros Hin. destruct (ngrams_heads n r _ Hn Hin) as (y & w' & E & Hy).
  destruct n as [| k]; [lia |]. cbn [take] in E. injection E as -> _. contradiction.
Qed.

Lemma ngram_ratio_NoDup (n : nat) (tokens : list Z) :
  (1 <= n)%nat -> NoDup tokens -> (ngram_ratio n tokens == 0)%Q.
Proof.
  intros Hn Hnd. unfold ngram_ratio.
  destruct (Nat.ltb_spec (length tokens) n) as [Hlt | Hge]; [reflexivity |].
  rewrite (length_remove_dups_NoDup _ (NoDup_ngrams n tokens Hn Hnd)).
  rewrite Zdivq_same; [reflexivity |].
  rewrite (length_ngrams n tokens (conj Hn Hge)). lia.
Qed.

Lemma ngram_ratio_short (n : nat) (tokens : list Z) :
  (length tokens < n)%nat -> ngram_ratio n tokens = 0%Q.
Proof.
  intros H. unfold ngram_ratio.
  destruct (Nat.ltb_spec (length tokens) n); [reflexivity | lia].
Qed.

Lemma repeat_penalty_max (tokens : list Z) :
  (_repeat_penalty tokens
   == Qmax (Qmax (ngram_ratio 2 tokens) (ngram_ratio 3 tokens)) (ngram_ratio 4 tokens))%Q.
Proof.
  unfold _repeat_penalty. cbn [map].
  destruct (py_max_three (_ngram_repeat_ratio tokens 2) (_ngram_repeat_ratio tokens 3)
                         (_ngram_repeat_ratio tokens 4)) as (m & -> & Hm).
  rewrite Hm, !ngram_repeat_ratio_spec by lia. reflexivity.
Qed.

(** C6: the repetition penalty is the maximum over the n-gram sizes 2, 3
    and 4 of [1 - distinct n-grams / n-gram positions], a sequence
    shorter than [n] contributing 0 for that [n]; so it is 0 for a
    sequence of length at least 4 in which no token repeats, and
    [[1,1,1,1,1,1]] scores strictly higher than [[1,2,3,4,5,6]]. *)
Theorem repeat_penalty_is_max_ngram_ratio (tokens : list Z) :
  (_repeat_penalty tokens
   == Qmax (Qmax (ngram_ratio 2 tokens) (ngram_ratio 3 tokens)) (ngram_ratio 4 tokens))%Q
  /\ (forall n, (length tokens < n)%nat -> ngram_ratio n tokens = 0%Q)
  /\ (NoDup tokens -> (4 <= length tokens)%nat -> (_repeat_penalty tokens == 0)%Q)
  /\ (_repeat_penalty [1; 2; 3; 4; 5; 6]%Z < _repeat_penalty [1; 1; 1; 1; 1; 1]%Z)%Q.
Proof.
  split; [apply repeat_penalty_max |].
  split; [intros n; apply ngram_ratio_short |].
  split.
  - intros Hnd _. rewrite repeat_penalty_max.
    rewrite !ngram_ratio_NoDup by (lia || assumption). reflexivity.
  - vm_compute. reflexivity.
Qed.

(** C10: the repetition penalty lies in the half-open interval [[0, 1)]:
    it is never negative, it is exactly 0 for a sequence of fewer than 2
    tokens, and it stays strictly below 1 however repetitive the sequence
    is, since at least one n-gram is always unique. *)
Theorem repeat_penalty_in_unit_interval (tokens : list Z) :
  (0 <= _repeat_penalty tokens)%Q
  /\ (_repeat_penalty tokens < 1)%Q
  /\ ((length tokens < 2)%nat -> (_repeat_penalty tokens == 0)%Q).
Proof.
  pose proof (ngram_ratio_range 2 tokens ltac:(lia)) as [H2l H2u].
  pose proof (ngram_ratio_range 3 tokens ltac:(lia)) as [H3l H3u].
  pose proof (ngram_ratio_range 4 tokens ltac:(lia)) as [H4l H4u].
  rewrite repeat_penalty_max.
  split; [| split].
  - apply Q.max_le_iff. left. apply Q.max_le_iff. left. exact H2l.
  - apply Q.max_lub_lt; [apply Q.max_lub_lt |]; assumption.
  - intros Hlen. rewrite !ngram_ratio_short by lia. reflexivity.
Qed.


(** ** Silence penalty *)

Lemma run_at_snoc_inside (p : list bool) (x : bool) (i n : nat) :
  (i + n <= length p)%nat -> run_at (p ++ [x]) i n -> run_at p i n.
Proof.
  intros Hin H j Hj. specialize (H j Hj).
  rewrite lookup_app_l in H by lia. exact H.
Qed.

Lemma run_at_snoc_extend (p : list bool) (x : bool) (i n : nat) :
  run_at p i n -> run_at (p ++ [x]) i n.
Proof.
  intros H j Hj. specialize (H j Hj).
  apply lookup_app_l_Some. exact H.
Qed.

Lemma run_at_bound (flags : list bool) (i n : nat) :
  run_at flags i n -> (1 <= n)%nat -> (i + n <= length flags)%nat.
Proof.
  intros H Hn. specialize (H (i + n - 1)%nat ltac:(lia)).
  apply lookup_lt_Some in H. lia.
Qed.

Lemma longest_run_invariant (flags : list bool) :
  longest_run_state flags (fold_left longest_run_step flags (0, 0)).
Proof.
  induction flags as [| x p IH] using rev_ind.
  - cbn. refine (conj _ (conj _ (conj _ (conj _ (conj _ _))))).
    + lia.
    + lia.
    + intros j Hj. lia.
    + intros i n H Hin. lia.
    + exists 0%nat. intros j Hj. lia.
    + intros i n H. destruct n as [| n]; [lia |].
      pose proof (run_at_bound [] i (S n) H ltac:(lia)) as Hb. cbn in Hb. lia.
  - rewrite fold_left_app. cbn [fold_left].
    destruct (fold_left longest_run_step p (0, 0)) as [L c].
    destruct IH as (Hc & Hlen & Hsuf & Hmaxsuf & (i0 & Hex) & Hmax).
    assert (Hsuf' : x = true ->
                    run_at (p ++ [x]) (length (p ++ [x]) - Z.to_nat (c + 1)) (Z.to_nat (c + 1))).
    { intros -> j Hj. rewrite length_app in Hj. cbn [length] in Hj.
      destruct (Nat.eq_dec j (length p)) as [-> | Hne].
      - rewrite lookup_app_r by lia. rewrite Nat.sub_diag. reflexivity.
      - apply lookup_app_l_Some. apply Hsuf. lia. }
    assert (Hend : forall i n, run_at (p ++ [x]) i n -> (1 <= n)%nat ->
                               (i + n)%nat = length (p ++ [x]) ->
                               x = true /\ Z.of_nat n <= c + 1).
    { intros i n H Hn Hin. rewrite length_app in Hin. cbn [length] in Hin.
      split.
      - specialize (H (length p) ltac:(lia)).
        rewrite lookup_app_r in H by lia. rewrite Nat.sub_diag in H. cbn in H. congruence.
      - assert (Hp : run_at p i (n - 1)).
        { intros j Hj. specialize (H j ltac:(lia)).
          rewrite lookup_app_l in H by lia. exact H. }
        specialize (Hmaxsuf i (n - 1)%nat Hp ltac:(lia)). lia. }
    assert (Hany : forall i n, run_at (p ++ [x]) i n ->
                               Z.of_nat n <= L \/ (x = true /\ Z.of_nat n <= c + 1)).
    { intros i n H. destruct n as [| n]; [left; lia |].
      pose proof (run_at_bound _ i (S n) H ltac:(lia)) as Hb.
      rewrite length_app in Hb. cbn [length] in Hb.
      destruct (Nat.eq_dec (i + S n)%nat (length p + 1)%nat) as [E | Hne].
      - right. apply (Hend i (S n) H); [lia |]. rewrite length_app. cbn [length]. lia.
      - left. apply (Hmax i). apply (run_at_snoc_inside p x); [lia | exact H]. }
    assert (Hlen' : length (p ++ [x]) = S (length p))
      by (rewrite length_app; cbn [length]; lia).
    unfold longest_run_step. destruct x.
    + specialize (Hsuf' eq_refl).
      assert (Hmaxsuf' : forall i n, run_at (p ++ [true]) i n ->
                                     (i + n)%nat = length (p ++ [true]) ->
                                     Z.of_nat n <= c + 1).
      { intros i n H Hin. destruct n as [| n]; [lia |].
        apply (Hend i (S n) H); [lia | exact Hin]. }
      destruct (Z.ltb_spec L (c + 1)) as [Hlt | Hge]; unfold longest_run_state;
        refine (conj _ (conj _ (conj _ (conj Hmaxsuf' (conj _ _))))); try lia;
        try exact Hsuf'.
      * eexists. exact Hsuf'.
      * intros i n H. destruct (Hany i n H) as [? | [_ ?]]; lia.
      * exists i0. apply run_at_snoc_extend. exact Hex.
      * intros i n H. destruct (Hany i n H) as [? | [_ ?]]; lia.
    + unfold longest_run_state.
      refine (conj _ (conj _ (conj _ (conj _ (conj _ _))))).
      * lia.
      * lia.
      * intros j Hj. cbn in Hj. lia.
      * intros i n H Hin. destruct n as [| n]; [lia |].
        destruct (Hend i (S n) H ltac:(lia) Hin) as [? _]. discriminate.
      * exists i0. apply run_at_snoc_extend. exact Hex.
      * intros i n H. destruct (Hany i n H) as [? | [? _]]; [lia | discriminate].
Qed.

(** [_longest_run] is the length of the longest run of set flags. *)
Lemma longest_run_spec (flags : list bool) :
  0 <= _longest_run flags
  /\ (exists i, run_at flags i (Z.to_nat (_longest_run flags)))
  /\ (forall i n, run_at flags i n -> Z.of_nat n <= _longest_run flags).
Proof.
  unfold _longest_run. pose proof (longest_run_invariant flags) as H.
  destruct (fold_left longest_run_step flags (0, 0)) as [L c].
  destruct H as (Hc & _ & _ & _ & Hex & Hmax). cbn [fst].
  repeat apply conj; [lia | exact Hex | exact Hmax].
Qed.


Lemma silence_penalty_of_spec (ratio longest : Q) :
  (silence_penalty_of ratio longest
   == Qmax 0 ((ratio - 0.2) / (1 - 0.2)) + Qmax 0 ((longest - 2.0) / 2.0))%Q.
Proof.
  unfold silence_penalty_of, _SILENCE_RATIO_THRESHOLD, _SILENCE_LONG_THRESHOLD_SEC.
  assert (E1 : (Qmax (1 # 1000000) (1.0 - 0.2) == 1.0 - 0.2)%Q)
    by (apply Q.max_r; unfold Qle; cbn; lia).
  assert (E2 : (Qmax (1 # 1000000) 2.0 == 2.0)%Q)
    by (apply Q.max_r; unfold Qle; cbn; lia).
  destruct (Qltb 0.2 ratio) eqn:Er; destruct (Qltb 2.0 longest) eqn:El;
    try apply Qltb_lt in Er; try apply Qltb_lt in El;
    try apply Qltb_ge in Er; try apply Qltb_ge in El;
    rewrite ?E1, ?E2.
  - rewrite !Q.max_r by (apply Qle_shift_div_l; lra). field.
  - rewrite (Q.max_r 0 ((ratio - 0.2) / (1 - 0.2))) by (apply Qle_shift_div_l; lra).
    rewrite (Q.max_l 0 ((longest - 2.0) / 2.0)) by (apply Qle_shift_div_r; lra). field.
  - rewrite (Q.max_l 0 ((ratio - 0.2) / (1 - 0.2))) by (apply Qle_shift_div_r; lra).
    rewrite (Q.max_r 0 ((longest - 2.0) / 2.0)) by (apply Qle_shift_div_l; lra). field.
  - rewrite (Q.max_l 0 ((ratio - 0.2) / (1 - 0.2))) by (apply Qle_shift_div_r; lra).
    rewrite (Q.max_l 0 ((longest - 2.0) / 2.0)) by (apply Qle_shift_div_r; lra). field.
Qed.

Lemma frame_size_of_pos (sample_rate : Z) :
  0 <= sample_rate -> frame_size_of sample_rate = Z.max 1 (sample_rate / 50).
Proof.
  intros Hsr. unfold frame_size_of, Qtrunc. cbn [Qnum Qden Qmult inject_Z]. f_equal.
  change (Z.pos (1 * 100)) with (50 * 2).
  rewrite Z.quot_div_nonneg by lia.
  apply Z.div_mul_cancel_r; lia.
Qed.

Lemma frame_size_of_bounds (sample_rate : Z) :
  0 < sample_rate -> 1 <= frame_size_of sample_rate <= sample_rate.
Proof.
  intros Hsr. rewrite frame_size_of_pos by lia.
  assert (sample_rate / 50 <= sample_rate).
  { apply Z.div_le_upper_bound; lia. }
  lia.
Qed.

Lemma length_view (frames frame_size : nat) (t : list Q) :
  length (view frames frame_size t) = frames.
Proof.
  revert t. induction frames as [| k IH]; intros t; cbn [view length]; [reflexivity |].
  rewrite IH. reflexivity.
Qed.

(** Row [j] of the view holds the samples of frame [j]. *)
Lemma view_lookup (frames frame_size : nat) (t : list Q) (j : nat) :
  (j < frames)%nat ->
  view frames frame_size t !! j = Some (py_slice t (j * frame_size) frame_size).
Proof.
  revert t j. induction frames as [| k IH]; intros t j Hj; [lia |].
  cbn [view]. destruct j as [| j].
  - cbn. reflexivity.
  - cbn [lookup list_lookup]. rewrite IH by lia. unfold py_slice.
    rewrite drop_drop. do 2 f_equal; lia.
Qed.

Lemma slice_of_trimmed (t : list Q) (total j frame_size : nat) :
  (j * frame_size + frame_size <= total)%nat ->
  py_slice (take total t) (j * frame_size) frame_size = py_slice t (j * frame_size) frame_size.
Proof.
  intros H. unfold py_slice.
  rewrite !take_drop_commute, take_take. do 2 f_equal. lia.
Qed.

Lemma lookup_map_list {A B} (f : A -> B) (l : list A) (j : nat) :
  map f l !! j = f <$> (l !! j).
Proof.
  revert j. induction l as [| x r IH]; intros [| j]; cbn; auto.
Qed.

(** The number of frames and the flag of each frame. *)
Lemma silent_flags_spec (audio : list Q) (sample_rate : Z) :
  0 < sample_rate ->
  len (silent_flags audio sample_rate) = len audio / frame_size_of sample_rate
  /\ forall j : nat,
      Z.of_nat j < len audio / frame_size_of sample_rate ->
      silent_flags audio sample_rate !! j
      = Some (is_silent (mean (py_slice (map Qabs audio)
                                        (j * Z.to_nat (frame_size_of sample_rate))
                                        (Z.to_nat (frame_size_of sample_rate))))).
Proof.
  intros Hsr. pose proof (frame_size_of_bounds sample_rate Hsr) as Hfs.
  unfold silent_flags, len.
  set (fs := frame_size_of sample_rate) in *.
  set (a := map Qabs audio).
  assert (Hla : length a = length audio) by apply length_map.
  rewrite <- Hla.
  assert (Hfr : 0 <= Z.of_nat (length a) / fs) by (apply Z.div_pos; lia).
  split.
  - rewrite !length_map, length_view. lia.
  - intros j Hj. rewrite !lookup_map_list, view_lookup by lia.
    cbn [fmap option_fmap option_map]. do 3 f_equal.
    replace (Z.to_nat (Z.of_nat (length a) / fs * fs))
      with (Z.to_nat (Z.of_nat (length a) / fs) * Z.to_nat fs)%nat by lia.
    apply slice_of_trimmed.
    assert (Z.of_nat j + 1 <= Z.of_nat (length a) / fs) by lia. nia.
Qed.


Lemma Qsum_flags (flags : list bool) :
  (Qsum (map float_of_bool flags) == inject_Z (count_set flags))%Q.
Proof.
  unfold count_set, len. induction flags as [| f r IH]; [reflexivity |].
  cbn [map Qsum List.filter]. rewrite IH. destruct f; cbn [float_of_bool length].
  - rewrite Nat2Z.inj_succ, <- Z.add_1_l, inject_Z_plus. reflexivity.
  - lra.
Qed.

Lemma mean_flags (flags : list bool) :
  (mean (map float_of_bool flags) == Zdivq (count_set flags) (len flags))%Q.
Proof.
  unfold mean, Zdivq, len. rewrite Qsum_flags, length_map. reflexivity.
Qed.

(** [_silence_stats] once the clip holds at least one frame. *)
Lemma silence_stats_frames (audio : list Q) (sample_rate : Z) :
  0 < sample_rate -> 0 < len audio / frame_size_of sample_rate ->
  _silence_stats audio sample_rate
  = inr (mean (map float_of_bool (silent_flags audio sample_rate)),
         Zdivq (_longest_run (silent_flags audio sample_rate) * frame_size_of sample_rate)
               sample_rate).
Proof.
  intros Hsr Hfr. unfold _silence_stats, len in *. rewrite length_map.
  destruct (Z.eqb_spec (Z.of_nat (length audio)) 0) as [E | _].
  { rewrite E in Hfr. rewrite Z.div_0_l in Hfr; [lia |].
    pose proof (frame_size_of_bounds sample_rate Hsr). lia. }
  destruct (Z.eqb_spec (Z.of_nat (length audio) / frame_size_of sample_rate) 0); [lia |].
  destruct (Z.eqb_spec sample_rate 0); [lia |]. reflexivity.
Qed.

Lemma Qsum_zero (l : list Q) : Forall (fun x => x == 0)%Q l -> (Qsum l == 0)%Q.
Proof.
  induction 1 as [| x r Hx _ IH]; cbn [Qsum]; [reflexivity |]. rewrite Hx, IH. reflexivity.
Qed.

Lemma mean_zero_silent (l : list Q) : Forall (fun x => x == 0)%Q l -> is_silent (mean l) = true.
Proof.
  intros H. unfold is_silent. apply Qltb_lt. unfold mean.
  rewrite (Qsum_zero l H). unfold Qdiv. rewrite Qmult_0_l. reflexivity.
Qed.

Lemma view_zero (frames frame_size : nat) (t : list Q) :
  Forall (fun x => x == 0)%Q t ->
  Forall (Forall (fun x => x == 0)%Q) (view frames frame_size t).
Proof.
  revert t. induction frames as [| k IH]; intros t Ht; cbn [view]; constructor.
  - apply Forall_take. exact Ht.
  - apply IH. apply Forall_drop. exact Ht.
Qed.

(** Every frame of an all-zero waveform is silent. *)
Lemma silent_flags_zero (audio : list Q) (sample_rate : Z) :
  Forall (fun x => x == 0)%Q audio ->
  Forall (fun f => f = true) (silent_flags audio sample_rate).
Proof.
  intros Hz. unfold silent_flags.
  assert (Ha : Forall (fun x => x == 0)%Q (map Qabs audio)).
  { induction Hz as [| x r Hx _ IH]; cbn [map]; constructor; [| exact IH].
    rewrite Hx. reflexivity. }
  set (rows := view _ _ _).
  assert (Hrows : Forall (Forall (fun x => x == 0)%Q) rows).
  { apply view_zero. apply Forall_take. exact Ha. }
  clearbody rows. induction Hrows as [| row rows Hrow _ IH]; cbn [map]; constructor.
  - apply mean_zero_silent. exact Hrow.
  - exact IH.
Qed.

Lemma count_set_all (flags : list bool) :
  Forall (fun f => f = true) flags -> count_set flags = len flags.
Proof.
  unfold count_set, len. induction 1 as [| f r Hf _ IH]; [reflexivity |].
  subst f. cbn [List.filter length]. lia.
Qed.

Lemma count_set_nonneg (flags : list bool) : 0 <= count_set flags <= len flags.
Proof.
  unfold count_set, len. induction flags as [| f r IH]; cbn [List.filter length]; [lia |].
  destruct f; cbn [length]; lia.
Qed.

(** With no flag set, the longest run is empty. *)
Lemma longest_run_none (flags : list bool) :
  count_set flags = 0 -> _longest_run flags = 0.
Proof.
  intros Hc. destruct (longest_run_spec flags) as (H0 & (i & Hrun) & _).
  destruct (Z.eq_dec (_longest_run flags) 0) as [E | Hne]; [exact E | exfalso].
  specialize (Hrun i ltac:(lia)).
  assert (Hin : In true flags).
  { apply list_elem_of_In. apply list_elem_of_lookup. exists i. exact Hrun. }
  clear Hrun. unfold count_set, len in Hc.
  induction flags as [| f r IH]; [inversion Hin |].
  cbn [List.filter] in Hc. destruct f; cbn [length] in Hc; [lia |].
  destruct Hin as [? | Hin]; [discriminate | auto].
Qed.


(** A zero-length waveform scores exactly 1.0, whatever the sample rate. *)
Lemma silence_penalty_empty (sample_rate : Z) :
  exists p, _silence_penalty [] sample_rate = inr p /\ (p == 1)%Q.
Proof.
  eexists. split; [reflexivity |]. vm_compute. reflexivity.
Qed.

(** An all-zero waveform longer than two seconds scores at least 1. *)
Lemma silence_penalty_all_zero (a : list Q) (sample_rate : Z) :
  0 < sample_rate -> Forall (fun x => x == 0)%Q a -> 2 * sample_rate < len a ->
  exists pa, _silence_penalty a sample_rate = inr pa /\ (1 <= pa)%Q.
Proof.
  intros Hsr Hz Hlen.
  pose proof (frame_size_of_bounds sample_rate Hsr) as Hfs.
  assert (Hfr : 0 < len a / frame_size_of sample_rate).
  { apply Z.div_str_pos. lia. }
  unfold _silence_penalty. rewrite (silence_stats_frames a sample_rate Hsr Hfr).
  eexists. split; [reflexivity |].
  rewrite silence_penalty_of_spec.
  set (flags := silent_flags a sample_rate).
  assert (Hall : Forall (fun f => f = true) flags) by (apply silent_flags_zero; exact Hz).
  assert (Hlenf : len flags = len a / frame_size_of sample_rate)
    by apply (silent_flags_spec a sample_rate Hsr).
  assert (Hratio : (mean (map float_of_bool flags) == 1)%Q).
  { rewrite mean_flags, (count_set_all flags Hall). apply Zdivq_same. lia. }
  pose proof (Q.le_max_l 0 ((Zdivq (_longest_run flags * frame_size_of sample_rate) sample_rate
                             - 2.0) / 2.0)) as Hsecond.
  assert (Hfirst : (1 <= Qmax 0 ((mean (map float_of_bool flags) - 0.2) / (1 - 0.2)))%Q).
  { eapply Qle_trans; [| apply Q.le_max_r]. rewrite Hratio.
    apply Qle_bool_iff. vm_compute. reflexivity. }
  lra.
Qed.

(** A waveform whose silent-frame ratio is zero scores 0. *)
Lemma silence_penalty_no_silence (b : list Q) (sample_rate : Z) (ratio longest : Q) :
  0 < sample_rate ->
  _silence_stats b sample_rate = inr (ratio, longest) -> (ratio == 0)%Q ->
  exists pb, _silence_penalty b sample_rate = inr pb /\ (pb == 0)%Q.
Proof.
  intros Hsr Hstats Hratio.
  pose proof (frame_size_of_bounds sample_rate Hsr) as Hfs.
  unfold _silence_penalty. rewrite Hstats. eexists. split; [reflexivity |].
  rewrite silence_penalty_of_spec.
  assert (Hlong : (longest <= 2)%Q).
  { unfold _silence_stats in Hstats. unfold len in Hstats. rewrite length_map in Hstats.
    destruct (Z.eqb_spec (Z.of_nat (length b)) 0) as [E0 | Hne0].
    { injection Hstats as <- <-. exfalso. revert Hratio. vm_compute. discriminate. }
    destruct (Z.eqb_spec (Z.of_nat (length b) / frame_size_of sample_rate) 0) as [Ef | Hnf];
      destruct (Z.eqb_spec sample_rate 0) as [| _]; try lia.
    - injection Hstats as _ <-.
      assert (Hsmall : Z.of_nat (length b) < frame_size_of sample_rate).
      { apply Z.div_small_iff in Ef; lia. }
      pose proof (Zdivq_bounds (Z.of_nat (length b)) sample_rate ltac:(lia) Hsr). lra.
    - injection Hstats as Er <-. rewrite <- Er in Hratio.
      set (flags := silent_flags b sample_rate) in *.
      assert (Hlenf : len flags = len b / frame_size_of sample_rate)
        by apply (silent_flags_spec b sample_rate Hsr).
      assert (Hfr : 0 < len b / frame_size_of sample_rate).
      { unfold len. assert (0 <= Z.of_nat (length b) / frame_size_of sample_rate)
          by (apply Z.div_pos; lia). lia. }
      assert (Hcount : count_set flags = 0).
      { rewrite mean_flags in Hratio. pose proof (count_set_nonneg flags) as Hc.
        destruct (Z.eq_dec (count_set flags) 0) as [? | Hne]; [assumption | exfalso].
        pose proof (Zdivq_pos (count_set flags) (len flags) ltac:(lia) ltac:(lia)). lra. }
      rewrite (longest_run_none flags Hcount). rewrite Z.mul_0_l.
      unfold Zdivq, Qdiv. rewrite Qmult_0_l. lra. }
  rewrite (Q.max_l 0 ((ratio - 0.2) / (1 - 0.2))) by (apply Qle_shift_div_r; lra).
  rewrite (Q.max_l 0 ((longest - 2.0) / 2.0)) by (apply Qle_shift_div_r; lra).
  reflexivity.
Qed.

(** C7: the silence penalty is the sum of the two terms
    [max(0, (ratio - 0.2) / (1 - 0.2))] and [max(0, (longest - 2.0) / 2.0)],
    where, over the frames of 20 ms ([max(1, sample_rate / 50)] samples),
    a frame is silent when the mean of its absolute amplitudes is below
    [1e-4], [ratio] is the share of silent frames and [longest] the
    longest run of silent frames in seconds; a zero-length waveform
    scores exactly 1.0; and an all-zero waveform longer than two seconds
    scores strictly more than a waveform none of whose frames is silent
    (silent-frame ratio 0). *)
Theorem silence_penalty_two_terms :
  (forall audio sample_rate ratio longest,
      _silence_stats audio sample_rate = inr (ratio, longest) ->
      exists p, _silence_penalty audio sample_rate = inr p
                /\ (p == Qmax 0 ((ratio - 0.2) / (1 - 0.2))
                         + Qmax 0 ((longest - 2.0) / 2.0))%Q)
  /\ (forall audio sample_rate,
        0 < sample_rate -> 0 < len audio / frame_size_of sample_rate ->
        let flags := silent_flags audio sample_rate in
        let frame_size := frame_size_of sample_rate in
        frame_size = Z.max 1 (sample_rate / 50)
        /\ len flags = len audio / frame_size
        /\ (forall j : nat,
               Z.of_nat j < len audio / frame_size ->
               flags !! j
               = Some (is_silent (mean (py_slice (map Qabs audio)
                                                 (j * Z.to_nat frame_size)
                                                 (Z.to_nat frame_size)))))
        /\ exists ratio longest,
            _silence_stats audio sample_rate = inr (ratio, longest)
            /\ (ratio == Zdivq (count_set flags) (len flags))%Q
            /\ (longest == Zdivq (_longest_run flags * frame_size) sample_rate)%Q)
  /\ (forall flags,
        0 <= _longest_run flags
        /\ (exists i, run_at flags i (Z.to_nat (_longest_run flags)))
        /\ (forall i n, run_at flags i n -> Z.of_nat n <= _longest_run flags))
  /\ (forall sample_rate,
        exists p, _silence_penalty [] sample_rate = inr p /\ (p == 1)%Q)
  /\ (forall a b sample_rate ratio_b longest_b,
        0 < sample_rate ->
        Forall (fun x => x == 0)%Q a -> 2 * sample_rate < len a ->
        _silence_stats b sample_rate = inr (ratio_b, longest_b) -> (ratio_b == 0)%Q ->
        exists pa pb,
          _silence_penalty a sample_rate = inr pa
          /\ _silence_penalty b sample_rate = inr pb
          /\ (pb < pa)%Q).
Proof.
  refine (conj _ (conj _ (conj longest_run_spec (conj silence_penalty_empty _)))).
  - intros audio sample_rate ratio longest Hstats.
    unfold _silence_penalty. rewrite Hstats. eexists. split; [reflexivity |].
    apply silence_penalty_of_spec.
  - intros audio sample_rate Hsr Hfr flags frame_size.
    destruct (silent_flags_spec audio sample_rate Hsr) as [Hlen Hflags].
    refine (conj _ (conj Hlen (conj Hflags _))).
    + apply frame_size_of_pos. lia.
    + eexists _, _. split; [apply silence_stats_frames; assumption |].
      split; [apply mean_flags | reflexivity].
  - intros a b sample_rate ratio_b longest_b Hsr Hz Hlen Hstats Hratio.
    destruct (silence_penalty_all_zero a sample_rate Hsr Hz Hlen) as (pa & Hpa & Hge).
    destruct (silence_penalty_no_silence b sample_rate _ _ Hsr Hstats Hratio)
      as (pb & Hpb & Hzero).
    exists pa, pb. repeat apply conj; try assumption. lra.
Qed.


(** ** Length penalty *)

Lemma count_ellipsis_nonneg (t : str) : 0 <= count_ellipsis t.
Proof.
  assert (H : forall n (t : str), (length t <= n)%nat -> 0 <= count_ellipsis t).
  { induction n as [| n IH]; intros [| c r] Hlen; cbn [length] in Hlen; try (cbn; lia).
    cbn [count_ellipsis].
    assert (Hr : 0 <= count_ellipsis r) by (apply IH; lia).
    destruct (c =? 8230)%N; [lia |].
    destruct r as [| c2 [| c3 r3]]; try assumption.
    destruct ((c =? 46) && (c2 =? 46) && (c3 =? 46))%N; [| assumption].
    assert (0 <= count_ellipsis r3) by (apply IH; cbn [length] in *; lia). lia. }
  apply (H (length t)). lia.
Qed.

Lemma count_dash_pause_nonneg (t : str) : 0 <= count_dash_pause t.
Proof.
  assert (H : forall n (t : str), (length t <= n)%nat -> 0 <= count_dash_pause t).
  { induction n as [| n IH]; intros [| c r] Hlen; cbn [length] in Hlen; try (cbn; lia).
    cbn [count_dash_pause].
    assert (Hr : 0 <= count_dash_pause r) by (apply IH; lia).
    destruct (c =? 8212)%N; [lia |].
    destruct r as [| c2 r2]; try assumption.
    destruct ((c =? 45) && (c2 =? 45))%N; [| assumption].
    assert (0 <= count_dash_pause r2) by (apply IH; cbn [length] in *; lia). lia. }
  apply (H (length t)). lia.
Qed.

Lemma count_chars_nonneg (p : char -> bool) (s : str) : 0 <= count_chars p s.
Proof. unfold count_chars, len. lia. Qed.

Lemma inject_Z_nonneg (z : Z) : 0 <= z -> (0 <= inject_Z z)%Q.
Proof. intros H. unfold Qle. cbn. lia. Qed.

(** The pause bonus is never negative and never above 10 seconds. *)
Lemma punctuation_bonus_range (text : str) :
  (0 <= _punctuation_bonus_sec text <= 10)%Q.
Proof.
  unfold _punctuation_bonus_sec.
  destruct (last (strip text)) as [t_last |]; [| split; lra].
  set (t := strip text).
  set (major := if is_major t_last then Z.max 0 (count_chars is_major t - 1)
                else count_chars is_major t).
  assert (Hmajor : 0 <= major).
  { subst major. pose proof (count_chars_nonneg is_major t). destruct (is_major t_last); lia. }
  pose proof (inject_Z_nonneg major Hmajor).
  pose proof (inject_Z_nonneg _ (count_chars_nonneg is_minor t)).
  pose proof (inject_Z_nonneg _ (count_ellipsis_nonneg t)).
  pose proof (inject_Z_nonneg _ (count_dash_pause_nonneg t)).
  split.
  - apply Q.min_glb; lra.
  - apply Q.le_min_l.
Qed.

Lemma SPP_MINMAX_range (lang : string) :
  (0 < fst (_SPP_MINMAX lang) <= snd (_SPP_MINMAX lang))%Q.
Proof.
  unfold _SPP_MINMAX.
  destruct (String.eqb lang "en"); [| destruct (String.eqb lang "ja")];
    cbn [fst snd]; split; lra.
Qed.

(** *** The pause bonus of the specification *)

Lemma occurrences_nil (marks : str) : occurrences marks [] = 0.
Proof. induction marks as [| m marks IH]; [reflexivity |]. cbn. exact IH. Qed.

Lemma occurrences_cons (marks : str) (c : char) (t : str) :
  occurrences marks (c :: t) = occurrences marks [c] + occurrences marks t.
Proof.
  induction marks as [| m marks IH]; [reflexivity |].
  change (Z.of_nat (count_occ N.eq_dec (c :: t) m) + occurrences marks (c :: t)
          = (Z.of_nat (count_occ N.eq_dec [c] m) + occurrences marks [c])
            + (Z.of_nat (count_occ N.eq_dec t m) + occurrences marks t)).
  rewrite IH. cbn [count_occ]. destruct (N.eq_dec c m); lia.
Qed.

Lemma count_chars_cons (p : char -> bool) (c : char) (t : str) :
  count_chars p (c :: t) = (if p c then 1 else 0) + count_chars p t.
Proof.
  unfold count_chars, len. cbn [List.filter]. destruct (p c); cbn [length]; lia.
Qed.

Lemma occurrences_major (c : char) :
  occurrences major_marks [c] = if is_major c then 1 else 0.
Proof.
  unfold occurrences, major_marks, is_major, char_in.
  cbn [fold_right count_occ lit map list_ascii_of_string existsb].
  repeat match goal with
         | |- context [N.eq_dec c ?m] =>
             destruct (N.eq_dec c m) as [-> | ?]; [reflexivity |]
         end.
  repeat match goal with
         | H : c <> ?m |- _ => apply N.eqb_neq in H
         end.
  change (N_of_ascii "."%char) with 46%N. change (N_of_ascii "!"%char) with 33%N.
  change (N_of_ascii "?"%char) with 63%N.
  repeat match goal with H : (c =? _)%N = false |- _ => rewrite H; clear H end.
  reflexivity.
Qed.

Lemma occurrences_minor (c : char) :
  occurrences minor_marks [c] = if is_minor c then 1 else 0.
Proof.
  unfold occurrences, minor_marks, is_minor, char_in.
  cbn [fold_right count_occ lit map list_ascii_of_string existsb].
  repeat match goal with
         | |- context [N.eq_dec c ?m] =>
             destruct (N.eq_dec c m) as [-> | ?]; [reflexivity |]
         end.
  repeat match goal with
         | H : c <> ?m |- _ => apply N.eqb_neq in H
         end.
  change (N_of_ascii ","%char) with 44%N. change (N_of_ascii ";"%char) with 59%N.
  change (N_of_ascii ":"%char) with 58%N.
  repeat match goal with H : (c =? _)%N = false |- _ => rewrite H; clear H end.
  reflexivity.
Qed.

Lemma count_major_occurrences (t : str) :
  count_chars is_major t = occurrences major_marks t.
Proof.
  induction t as [| c t IH]; [rewrite occurrences_nil; reflexivity |].
  rewrite count_chars_cons, occurrences_cons, occurrences_major, IH. reflexivity.
Qed.

Lemma count_minor_occurrences (t : str) :
  count_chars is_minor t = occurrences minor_marks t.
Proof.
  induction t as [| c t IH]; [rewrite occurrences_nil; reflexivity |].
  rewrite count_chars_cons, occurrences_cons, occurrences_minor, IH. reflexivity.
Qed.

Lemma count_last_major (t : str) (c : char) :
  last t = Some c -> is_major c = true -> 1 <= count_chars is_major t.
Proof.
  intros Hlast Hc. apply last_Some in Hlast as [t' ->].
  unfold count_chars, len. rewrite List.filter_app, length_app. cbn [List.filter].
  rewrite Hc. cbn [length]. lia.
Qed.

Lemma occurrences_single (m c : char) :
  occurrences [m] [c] = if (c =? m)%N then 1 else 0.
Proof.
  unfold occurrences. cbn [fold_right count_occ].
  destruct (N.eq_dec c m) as [-> | Hne].
  - rewrite N.eqb_refl. reflexivity.
  - apply N.eqb_neq in Hne. rewrite Hne. reflexivity.
Qed.

(** *** Ellipses *)

Lemma count_ellipsis_dots (q : nat) (t : str) :
  count_ellipsis (repeat 46%N (3 * q) ++ t) = Z.of_nat q + count_ellipsis t.
Proof.
  induction q as [| q IH]; [reflexivity |].
  replace (3 * S q)%nat with (S (S (S (3 * q)))) by lia.
  cbn [repeat app].
  change (count_ellipsis (46%N :: 46%N :: 46%N :: repeat 46%N (3 * q) ++ t))
    with (1 + count_ellipsis (repeat 46%N (3 * q) ++ t)).
  rewrite IH. lia.
Qed.

Lemma count_ellipsis_other (x : char) (t : str) :
  x <> 46%N ->
  count_ellipsis (x :: t) = (if (x =? 8230)%N then 1 else 0) + count_ellipsis t.
Proof.
  intros Hx. apply N.eqb_neq in Hx. cbn [count_ellipsis].
  destruct (x =? 8230)%N; [reflexivity |].
  rewrite Hx. cbn [andb]. destruct t as [| c2 [| c3 r3]]; reflexivity.
Qed.

Lemma count_ellipsis_short (r : nat) (x : char) (t : str) :
  (r < 3)%nat -> x <> 46%N ->
  count_ellipsis (repeat 46%N r ++ x :: t) = count_ellipsis (x :: t).
Proof.
  intros Hr Hx. apply N.eqb_neq in Hx.
  assert (H1 : count_ellipsis (46%N :: x :: t) = count_ellipsis (x :: t)).
  { cbn [count_ellipsis N.eqb Pos.eqb]. destruct t as [| c3 r3]; [reflexivity |].
    rewrite Hx. reflexivity. }
  destruct r as [| [| [| r]]]; [reflexivity | exact H1 | | lia].
  cbn [repeat app]. rewrite <- H1.
  cbn [count_ellipsis N.eqb Pos.eqb]. rewrite Hx. reflexivity.
Qed.

Lemma count_ellipsis_short_end (r : nat) :
  (r < 3)%nat -> count_ellipsis (repeat 46%N r) = 0.
Proof. intros Hr. destruct r as [| [| [| r]]]; [reflexivity .. | lia]. Qed.

Lemma count_ellipsis_runs (t : str) (run : nat) :
  count_ellipsis (repeat 46%N run ++ t)
  = occurrences [8230%N] t + run_groups 46%N 3 run t.
Proof.
  revert run. induction t as [| x t IH]; intros run.
  - rewrite app_nil_r. cbn [run_groups]. rewrite occurrences_nil.
    rewrite (Nat.div_mod_eq run 3) at 1.
    rewrite repeat_app, count_ellipsis_dots, count_ellipsis_short_end
      by (apply Nat.mod_upper_bound; lia).
    lia.
  - cbn [run_groups]. rewrite occurrences_cons.
    destruct (N.eqb_spec x 46) as [-> | Hx].
    + change (46%N :: t) with ([46%N] ++ t). rewrite app_assoc, <- repeat_cons.
      change ((46%N :: repeat 46%N run) ++ t) with (repeat 46%N (S run) ++ t).
      rewrite IH. change (occurrences [8230%N] [46%N]) with 0. lia.
    + rewrite (Nat.div_mod_eq run 3) at 1.
      rewrite repeat_app, <- app_assoc, count_ellipsis_dots, count_ellipsis_short
        by (assumption || apply Nat.mod_upper_bound; lia).
      rewrite count_ellipsis_other by assumption.
      specialize (IH 0%nat). cbn [repeat app] in IH. rewrite IH.
      rewrite occurrences_single. lia.
Qed.

(** *** Dash pauses *)

Lemma count_dash_pause_dashes (q : nat) (t : str) :
  count_dash_pause (repeat 45%N (2 * q) ++ t) = Z.of_nat q + count_dash_pause t.
Proof.
  induction q as [| q IH]; [reflexivity |].
  replace (2 * S q)%nat with (S (S (2 * q))) by lia.
  cbn [repeat app].
  change (count_dash_pause (45%N :: 45%N :: repeat 45%N (2 * q) ++ t))
    with (1 + count_dash_pause (repeat 45%N (2 * q) ++ t)).
  rewrite IH. lia.
Qed.

Lemma count_dash_pause_other (x : char) (t : str) :
  x <> 45%N ->
  count_dash_pause (x :: t) = (if (x =? 8212)%N then 1 else 0) + count_dash_pause t.
Proof.
  intros Hx. apply N.eqb_neq in Hx. cbn [count_dash_pause].
  destruct (x =? 8212)%N; [reflexivity |].
  rewrite Hx. cbn [andb]. destruct t as [| c2 r2]; reflexivity.
Qed.

Lemma count_dash_pause_short (r : nat) (x : char) (t : str) :
  (r < 2)%nat -> x <> 45%N ->
  count_dash_pause (repeat 45%N r ++ x :: t) = count_dash_pause (x :: t).
Proof.
  intros Hr Hx. apply N.eqb_neq in Hx.
  destruct r as [| [| r]]; [reflexivity | | lia].
  cbn [repeat app count_dash_pause N.eqb Pos.eqb]. rewrite Hx. reflexivity.
Qed.

Lemma count_dash_pause_short_end (r : nat) :
  (r < 2)%nat -> count_dash_pause (repeat 45%N r) = 0.
Proof. intros Hr. destruct r as [| [| r]]; [reflexivity .. | lia]. Qed.

Lemma count_dash_pause_runs (t : str) (run : nat) :
  count_dash_pause (repeat 45%N run ++ t)
  = occurrences [8212%N] t + run_groups 45%N 2 run t.
Proof.
  revert run. induction t as [| x t IH]; intros run.
  - rewrite app_nil_r. cbn [run_groups]. rewrite occurrences_nil.
    rewrite (Nat.div_mod_eq run 2) at 1.
    rewrite repeat_app, count_dash_pause_dashes, count_dash_pause_short_end
      by (apply Nat.mod_upper_bound; lia).
    lia.
  - cbn [run_groups]. rewrite occurrences_cons.
    destruct (N.eqb_spec x 45) as [-> | Hx].
    + change (45%N :: t) with ([45%N] ++ t). rewrite app_assoc, <- repeat_cons.
      change ((45%N :: repeat 45%N run) ++ t) with (repeat 45%N (S run) ++ t).
      rewrite IH. change (occurrences [8212%N] [45%N]) with 0. lia.
    + rewrite (Nat.div_mod_eq run 2) at 1.
      rewrite repeat_app, <- app_assoc, count_dash_pause_dashes, count_dash_pause_short
        by (assumption || apply Nat.mod_upper_bound; lia).
      rewrite count_dash_pause_other by assumption.
      specialize (IH 0%nat). cbn [repeat app] in IH. rewrite IH.
      rewrite occurrences_single. lia.
Qed.

(** The bonus the code computes is the one the specification words. *)
Lemma punctuation_bonus_spec (text : str) :
  (_punctuation_bonus_sec text == pause_bonus_spec text)%Q.
Proof.
  unfold _punctuation_bonus_sec, pause_bonus_spec.
  set (t := strip text).
  pose proof (count_ellipsis_runs t 0) as He. cbn [repeat app] in He.
  pose proof (count_dash_pause_runs t 0) as Hd. cbn [repeat app] in Hd.
  rewrite <- He, <- Hd, <- count_major_occurrences, <- count_minor_occurrences.
  destruct (last t) as [c |] eqn:Elast.
  - rewrite occurrences_major.
    assert (Hmajor : (if is_major c then Z.max 0 (count_chars is_major t - 1)
                      else count_chars is_major t)
                     = count_chars is_major t - (if is_major c then 1 else 0)).
    { destruct (is_major c) eqn:Ec; [| lia].
      pose proof (count_last_major t c Elast Ec). lia. }
    rewrite Hmajor. apply Q.min_compat; [reflexivity | ring].
  - apply last_None in Elast. rewrite Elast. reflexivity.
Qed.

(** C8: for a token sequence that is not empty, with the actual duration
    [tokenCount / 25.0] and the expected window
    [[phonemes * minSpp + bonus, phonemes * maxSpp + bonus]], where the
    bonus is the punctuation pause bonus (0.40 s for each major mark less
    one for a trailing terminator, 0.20 s for each minor mark, 1.0 s for
    each ellipsis and 0.12 s for each dash pause, capped at 10 seconds,
    and so between 0 and 10), the length penalty is [(min - actual) / min]
    when the actual duration is below the minimum, [(actual - max) / max]
    when it is above the maximum, and 0 otherwise. *)
Theorem length_penalty_piecewise (text : str) (tokens : list Z) (language : string) :
  tokens <> [] ->
  let lang := if is_ja_or_en language then language else detect_language text in
  let actual := (inject_Z (len tokens) / 25)%Q in
  let phonemes := Z.max (_phoneme_count text lang) 1 in
  let bonus := _punctuation_bonus_sec text in
  let min_expected := (inject_Z phonemes * fst (_SPP_MINMAX lang) + bonus)%Q in
  let max_expected := (inject_Z phonemes * snd (_SPP_MINMAX lang) + bonus)%Q in
  (bonus == pause_bonus_spec text)%Q
  /\ (0 <= bonus <= 10)%Q
  /\ (0 < min_expected <= max_expected)%Q
  /\ ((actual < min_expected)%Q ->
      (_length_penalty text tokens language == (min_expected - actual) / min_expected)%Q)
  /\ ((max_expected < actual)%Q ->
      (_length_penalty text tokens language == (actual - max_expected) / max_expected)%Q)
  /\ ((min_expected <= actual <= max_expected)%Q ->
      (_length_penalty text tokens language == 0)%Q).
Proof.
  intros Hne lang actual phonemes bonus min_expected max_expected.
  pose proof (punctuation_bonus_range text) as Hbonus. fold bonus in Hbonus.
  pose proof (SPP_MINMAX_range lang) as Hspp.
  assert (Hph : (1 <= inject_Z phonemes)%Q).
  { subst phonemes. unfold Qle. cbn. lia. }
  assert (Hmin : (0 < min_expected)%Q) by (subst min_expected; nra).
  assert (Hminmax : (min_expected <= max_expected)%Q) by (subst min_expected max_expected; nra).
  assert (Hactual : (0 < actual)%Q).
  { subst actual. apply Qlt_shift_div_l; [lra |].
    destruct tokens; [congruence |]. unfold Qlt, len. cbn. lia. }
  assert (E : _length_penalty text tokens language
              = if Qleb actual 0 || Qleb min_expected 0 then 0%Q
                else if Qltb actual min_expected
                     then ((min_expected - actual) / min_expected)%Q
                     else if Qltb max_expected actual
                          then ((actual - max_expected) / max_expected)%Q
                          else 0%Q).
  { unfold _length_penalty. fold lang. fold phonemes. fold bonus.
    destruct (_SPP_MINMAX lang) as [min_spp max_spp] eqn:Espp. reflexivity. }
  rewrite E.
  assert (E1 : Qleb actual 0 = false) by (apply Qleb_gt; exact Hactual).
  assert (E2 : Qleb min_expected 0 = false) by (apply Qleb_gt; exact Hmin).
  rewrite E1, E2. cbn [orb].
  split; [apply punctuation_bonus_spec |].
  split; [exact Hbonus |]. split; [split; assumption |].
  split; [| split].
  - intros Hlt. apply Qltb_lt in Hlt. rewrite Hlt. reflexivity.
  - intros Hgt.
    assert (Hge : Qltb actual min_expected = false) by (apply Qltb_ge; lra).
    apply Qltb_lt in Hgt. rewrite Hge, Hgt. reflexivity.
  - intros [Hlo Hhi].
    assert (Hge : Qltb actual min_expected = false) by (apply Qltb_ge; exact Hlo).
    assert (Hle : Qltb max_expected actual = false) by (apply Qltb_ge; exact Hhi).
    rewrite Hge, Hle. reflexivity.
Qed.


(** ** Edit distance *)

Section EditDistanceProperties.
Context {A : Type} `{EqDecision A}.

Lemma levenshtein_nil_l (t : list A) : levenshtein [] t = len t.
Proof. reflexivity. Qed.

Lemma levenshtein_nil_r (s : list A) : levenshtein s [] = len s.
Proof. destruct s; reflexivity. Qed.

Lemma levenshtein_cons (x y : A) (s t : list A) :
  levenshtein (x :: s) (y :: t)
  = Z.min (Z.min (levenshtein s (y :: t) + 1) (levenshtein (x :: s) t + 1))
          (levenshtein s t + subst_cost x y).
Proof. reflexivity. Qed.

Lemma len_cons (x : A) (s : list A) : len (x :: s) = len s + 1.
Proof. unfold len. cbn [length]. lia. Qed.

Lemma len_snoc (x : A) (s : list A) : len (s ++ [x]) = len s + 1.
Proof. unfold len. rewrite length_app. cbn [length]. lia. Qed.

Lemma subst_cost_range (x y : A) : 0 <= subst_cost x y <= 1.
Proof. unfold subst_cost. destruct (bool_decide (x = y)); lia. Qed.

Lemma subst_cost_same (x : A) : subst_cost x x = 0.
Proof. unfold subst_cost. rewrite bool_decide_eq_true_2; reflexivity. Qed.

(** The recurrence gives the cost of an edit script ... *)
Lemma edits_levenshtein (s t : list A) : edits s t (levenshtein s t).
Proof.
  revert t. induction s as [| x s IHs]; intros t.
  - rewrite levenshtein_nil_l. induction t as [| y t IHt]; [constructor |].
    rewrite len_cons. apply edits_insert, IHt.
  - induction t as [| y t IHt].
    + rewrite levenshtein_nil_r, len_cons. apply edits_delete.
      specialize (IHs []). rewrite levenshtein_nil_r in IHs. exact IHs.
    + rewrite levenshtein_cons.
      destruct (Z.min_spec (levenshtein s (y :: t) + 1) (levenshtein (x :: s) t + 1))
        as [[_ ->] | [_ ->]];
        match goal with
        | |- edits _ _ (Z.min ?a ?b) => destruct (Z.min_spec a b) as [[_ ->] | [_ ->]]
        end.
      * apply edits_delete, IHs.
      * unfold subst_cost. destruct (bool_decide_reflect (x = y)) as [-> | _].
        -- rewrite Z.add_0_r. apply edits_keep, IHs.
        -- apply edits_subst, IHs.
      * apply edits_insert, IHt.
      * unfold subst_cost. destruct (bool_decide_reflect (x = y)) as [-> | _].
        -- rewrite Z.add_0_r. apply edits_keep, IHs.
        -- apply edits_subst, IHs.
Qed.

(** ... and no edit script is cheaper. *)
Lemma levenshtein_le_edits (s t : list A) (n : Z) :
  edits s t n -> levenshtein s t <= n.
Proof.
  induction 1 as [| x s t n _ IH | x y s t n _ IH | x s t n _ IH | y s t n _ IH].
  - cbn. unfold len. cbn. lia.
  - rewrite levenshtein_cons, subst_cost_same. lia.
  - rewrite levenshtein_cons. pose proof (subst_cost_range x y). lia.
  - destruct t as [| y t].
    + rewrite levenshtein_nil_r in *. rewrite len_cons. lia.
    + rewrite levenshtein_cons. lia.
  - destruct s as [| x s].
    + rewrite levenshtein_nil_l in *. rewrite len_cons. lia.
    + rewrite levenshtein_cons. lia.
Qed.

(** Edit scripts extend at the end as they do at the front. *)
Lemma edits_snoc_keep (x : A) (s t : list A) (n : Z) :
  edits s t n -> edits (s ++ [x]) (t ++ [x]) n.
Proof.
  induction 1; cbn [app].
  - apply edits_keep, edits_nil.
  - apply edits_keep. assumption.
  - apply edits_subst. assumption.
  - apply edits_delete. assumption.
  - apply edits_insert. assumption.
Qed.

Lemma edits_snoc_subst (x y : A) (s t : list A) (n : Z) :
  edits s t n -> edits (s ++ [x]) (t ++ [y]) (n + 1).
Proof.
  induction 1; cbn [app].
  - apply (edits_subst x y [] [] 0). constructor.
  - apply edits_keep. assumption.
  - apply edits_subst. assumption.
  - apply edits_delete. assumption.
  - apply edits_insert. assumption.
Qed.

Lemma edits_snoc_delete (x : A) (s t : list A) (n : Z) :
  edits s t n -> edits (s ++ [x]) t (n + 1).
Proof.
  induction 1; cbn [app].
  - apply (edits_delete x [] [] 0). constructor.
  - apply edits_keep. assumption.
  - apply edits_subst. assumption.
  - apply edits_delete. assumption.
  - apply edits_insert. assumption.
Qed.

Lemma edits_snoc_insert (y : A) (s t : list A) (n : Z) :
  edits s t n -> edits s (t ++ [y]) (n + 1).
Proof.
  induction 1; cbn [app].
  - apply (edits_insert y [] [] 0). constructor.
  - apply edits_keep. assumption.
  - apply edits_subst. assumption.
  - apply edits_delete. assumption.
  - apply edits_insert. assumption.
Qed.

Lemma edits_rev (s t : list A) (n : Z) : edits s t n -> edits (rev s) (rev t) n.
Proof.
  induction 1; cbn [rev].
  - constructor.
  - apply edits_snoc_keep. assumption.
  - apply edits_snoc_subst. assumption.
  - apply edits_snoc_delete. assumption.
  - apply edits_snoc_insert. assumption.
Qed.

Lemma levenshtein_rev (s t : list A) : levenshtein (rev s) (rev t) = levenshtein s t.
Proof.
  apply Z.le_antisymm.
  - apply levenshtein_le_edits, edits_rev, edits_levenshtein.
  - rewrite <- (rev_involutive s), <- (rev_involutive t) at 1.
    apply levenshtein_le_edits, edits_rev, edits_levenshtein.
Qed.

(** The recurrence read from the end of the sequences, as the rows of the
    table are filled. *)
Lemma levenshtein_snoc (x y : A) (s t : list A) :
  levenshtein (s ++ [x]) (t ++ [y])
  = Z.min (Z.min (levenshtein s (t ++ [y]) + 1) (levenshtein (s ++ [x]) t + 1))
          (levenshtein s t + subst_cost x y).
Proof.
  rewrite <- (levenshtein_rev (s ++ [x]) (t ++ [y])), !rev_app_distr. cbn [rev app].
  rewrite levenshtein_cons.
  replace (y :: rev t) with (rev (t ++ [y])) by (rewrite rev_app_distr; reflexivity).
  replace (x :: rev s) with (rev (s ++ [x])) by (rewrite rev_app_distr; reflexivity).
  rewrite !levenshtein_rev. reflexivity.
Qed.


Lemma length_lev_row (pa b : list A) : length (lev_row pa b) = S (length b).
Proof. unfold lev_row. rewrite length_map, length_seq. reflexivity. Qed.

Lemma lev_row_lookup (pa b : list A) (k : nat) :
  (k <= length b)%nat -> lev_row pa b !! k = Some (levenshtein pa (take k b)).
Proof.
  intros Hk. unfold lev_row. rewrite lookup_map_list, lookup_seq_lt by lia.
  reflexivity.
Qed.

(** The inner loop turns the row of [pa] into the row of [pa ++ [a]]. *)
Lemma edit_row_correct (a : A) (pa b : list A) :
  forall (rest done : list A) (dp : list Z) (prev : Z),
    b = done ++ rest ->
    length dp = S (length b) ->
    (forall k, (k <= length done)%nat ->
               dp !! k = Some (levenshtein (pa ++ [a]) (take k b))) ->
    (forall k, (length done < k <= length b)%nat ->
               dp !! k = Some (levenshtein pa (take k b))) ->
    prev = levenshtein pa (take (length done) b) ->
    edit_row a rest (S (length done)) dp prev = lev_row (pa ++ [a]) b.
Proof.
  induction rest as [| bj rest IH]; intros done dp prev Hb Hlen Hnew Hold Hprev.
  - cbn [edit_row]. rewrite app_nil_r in Hb. subst done.
    apply list_eq. intros k.
    destruct (Nat.le_gt_cases k (length b)) as [Hk | Hk].
    + rewrite Hnew, lev_row_lookup by assumption. reflexivity.
    + rewrite !lookup_ge_None_2; [reflexivity | rewrite length_lev_row; lia | lia].
  - cbn [edit_row].
    assert (Hlb : length b = (length done + S (length rest))%nat)
      by (subst b; rewrite length_app; reflexivity).
    assert (Htake : take (length done) b = done)
      by (subst b; apply take_app_length).
    assert (Htake' : take (S (length done)) b = done ++ [bj]).
    { subst b. rewrite cons_middle, app_assoc.
      replace (S (length done)) with (length (done ++ [bj]))
        by (rewrite length_app; cbn [length]; lia).
      apply take_app_length. }
    assert (Htemp : dp_get dp (S (length done)) = levenshtein pa (done ++ [bj])).
    { unfold dp_get. rewrite Hold by lia. rewrite Htake'. reflexivity. }
    assert (Hleft : dp_get dp (S (length done) - 1) = levenshtein (pa ++ [a]) done).
    { unfold dp_get. rewrite Nat.sub_1_r. cbn [Nat.pred].
      rewrite Hnew by lia. rewrite Htake. reflexivity. }
    rewrite Htemp, Hleft, Hprev, Htake.
    fold (subst_cost a bj). rewrite <- levenshtein_snoc.
    replace (S (S (length done))) with (S (length (done ++ [bj])))
      by (rewrite length_app; cbn [length]; lia).
    apply IH.
    + subst b. rewrite <- app_assoc. reflexivity.
    + rewrite length_insert. exact Hlen.
    + intros k Hk. rewrite length_app in Hk. cbn [length] in Hk.
      destruct (Nat.eq_dec k (S (length done))) as [-> | Hne].
      * rewrite list_lookup_insert_eq by lia. rewrite Htake'. reflexivity.
      * rewrite list_lookup_insert_ne by lia. apply Hnew. lia.
    + intros k Hk. rewrite length_app in Hk. cbn [length] in Hk.
      rewrite list_lookup_insert_ne by lia. apply Hold. lia.
    + rewrite length_app. cbn [length]. rewrite Nat.add_1_r, Htake'. reflexivity.
Qed.

(** The outer loop, from the row of [pa], ends on the row of the whole
    first sequence. *)
Lemma edit_rows_correct (b : list A) :
  forall (rest pa : list A),
    edit_rows rest b (len pa + 1) (lev_row pa b) = lev_row (pa ++ rest) b.
Proof.
  induction rest as [| a rest IH]; intros pa.
  - cbn [edit_rows]. rewrite app_nil_r. reflexivity.
  - cbn [edit_rows].
    rewrite (edit_row_correct a pa b b [] _ _ eq_refl).
    + rewrite <- (len_snoc a pa), IH, <- app_assoc. reflexivity.
    + rewrite length_insert. apply length_lev_row.
    + intros k Hk. cbn [length] in Hk. assert (k = 0)%nat by lia. subst k.
      rewrite list_lookup_insert_eq by (rewrite length_lev_row; lia).
      rewrite take_0, levenshtein_nil_r, len_snoc. reflexivity.
    + intros k Hk. cbn [length] in Hk.
      rewrite list_lookup_insert_ne by lia. apply lev_row_lookup. lia.
    + unfold dp_get. rewrite lev_row_lookup by lia. reflexivity.
Qed.

Lemma initial_row (b : list A) :
  map Z.of_nat (seq 0 (length b + 1)) = lev_row [] b.
Proof.
  unfold lev_row. rewrite Nat.add_1_r. apply map_ext_in.
  intros j Hj. apply in_seq in Hj. rewrite levenshtein_nil_l. unfold len.
  rewrite length_take. lia.
Qed.

(** The table filled row by row computes the Levenshtein distance. *)
Lemma edit_distance_levenshtein (seq_a seq_b : list A) :
  _edit_distance seq_a seq_b = levenshtein seq_a seq_b.
Proof.
  unfold _edit_distance.
  destruct seq_a as [| a0 ra]; [reflexivity |].
  destruct seq_b as [| b0 rb]; [reflexivity |].
  rewrite initial_row.
  change 1 with (len (@nil A) + 1).
  rewrite edit_rows_correct. cbn [app].
  rewrite length_lev_row. unfold dp_get.
  rewrite lev_row_lookup by lia.
  replace (S (length (b0 :: rb)) - 1)%nat with (length (b0 :: rb)) by lia.
  rewrite firstn_all. reflexivity.
Qed.

End EditDistanceProperties.


(** ** Recognition error *)

Lemma word_char_not_space (c : char) : is_word_char c = true -> isspace c = false.
Proof.
  unfold is_word_char, isspace. intros H.
  rewrite !orb_true_iff, !andb_true_iff, !N.leb_le, N.eqb_eq in H.
  apply not_true_is_false. intros Hs.
  rewrite !orb_true_iff, !andb_true_iff, !N.leb_le, !N.eqb_eq in Hs. lia.
Qed.

(** Leading and trailing white space does not change the split. *)
Lemma split_ws_drop_while (s : str) :
  split_ws [] (drop_while isspace s) = split_ws [] s.
Proof.
  induction s as [| c r IH]; [reflexivity |].
  cbn [drop_while split_ws]. destruct (isspace c) eqn:E; [exact IH |].
  cbn [split_ws]. rewrite E. reflexivity.
Qed.

Lemma split_ws_trailing (cur s ws : str) :
  forallb isspace ws = true -> split_ws cur (s ++ ws) = split_ws cur s.
Proof.
  intros Hws. revert cur. induction s as [| c r IH]; intros cur.
  - cbn [app]. revert cur. induction ws as [| w ws IHws]; intros cur; [reflexivity |].
    cbn [forallb] in Hws. apply andb_true_iff in Hws as [Hw Hws].
    cbn [split_ws]. rewrite Hw. specialize (IHws Hws).
    destruct cur; rewrite IHws; reflexivity.
  - cbn [app split_ws]. destruct (isspace c); [destruct cur |]; rewrite IH; reflexivity.
Qed.

Lemma drop_while_split (s : str) :
  exists ws, forallb isspace ws = true /\ s = ws ++ drop_while isspace s.
Proof.
  induction s as [| c r (ws & Hws & E)]; [exists []; split; reflexivity |].
  cbn [drop_while]. destruct (isspace c) eqn:Ec.
  - exists (c :: ws). cbn [forallb app]. rewrite Ec, Hws. split; [reflexivity | congruence].
  - exists []. split; reflexivity.
Qed.

Lemma forallb_rev (p : char -> bool) (s : str) :
  forallb p s = true -> forallb p (rev s) = true.
Proof.
  intros H. apply forallb_forall. intros c Hc. apply in_rev in Hc.
  rewrite forallb_forall in H. apply H. exact Hc.
Qed.

Lemma split_ws_strip (s : str) : split_ws [] (strip s) = split_ws [] s.
Proof.
  unfold strip. rewrite <- (split_ws_drop_while s).
  destruct (drop_while_split (rev (drop_while isspace s))) as (ws & Hws & E).
  apply (f_equal (@rev char)) in E. rewrite rev_involutive, rev_app_distr in E.
  rewrite E at 2. rewrite split_ws_trailing by (apply forallb_rev; exact Hws).
  reflexivity.
Qed.

(** Collapsing runs of white space does not change the split. *)
Lemma split_ws_collapse (s cur : str) (in_run : bool) :
  (in_run = true -> cur = []) ->
  split_ws cur (sub_runs isspace in_run s) = split_ws cur s.
Proof.
  revert cur in_run. induction s as [| c r IH]; intros cur in_run Hrun; [reflexivity |].
  cbn [sub_runs split_ws]. destruct (isspace c) eqn:Ec.
  - destruct in_run.
    + rewrite (Hrun eq_refl). apply IH. reflexivity.
    + cbn [split_ws]. change (isspace chr_space) with true. cbn iota.
      destruct cur; rewrite IH by reflexivity; reflexivity.
  - cbn [split_ws]. rewrite Ec. apply IH. discriminate.
Qed.

(** Splitting after the characters outside [[a-z0-9']] have become spaces
    yields the maximal runs of characters of the class. *)
Lemma split_ws_sub_runs (s cur : str) (in_run : bool) :
  (in_run = true -> cur = []) ->
  split_ws cur (sub_runs (fun c => negb (is_word_char c)) in_run s) = word_runs cur s.
Proof.
  revert cur in_run. induction s as [| c r IH]; intros cur in_run Hrun; [reflexivity |].
  cbn [sub_runs word_runs]. destruct (is_word_char c) eqn:Ec; cbn [negb].
  - cbn [split_ws]. rewrite (word_char_not_space c Ec). apply IH. discriminate.
  - destruct in_run.
    + rewrite (Hrun eq_refl). apply IH. reflexivity.
    + cbn [split_ws]. change (isspace chr_space) with true. cbn iota.
      destruct cur; rewrite IH by reflexivity; reflexivity.
Qed.

(** The normalisation for the word error rate yields the maximal runs of
    characters of [[a-z0-9']] of the lower-cased text. *)
Lemma normalize_for_wer_words (text : str) :
  _normalize_for_wer text = word_runs [] (lower text).
Proof.
  unfold _normalize_for_wer.
  set (s := strip _).
  assert (E : match s with [] => [] | _ :: _ => split_ws [] s end = split_ws [] s)
    by (destruct s; reflexivity).
  rewrite E. subst s.
  rewrite split_ws_strip, split_ws_collapse by discriminate.
  apply split_ws_sub_runs. discriminate.
Qed.

Lemma wer_spec (ref hyp : list str) : (_wer ref hyp == error_rate_spec ref hyp)%Q.
Proof.
  unfold _wer, error_rate_spec. rewrite edit_distance_levenshtein.
  destruct ref, hyp; reflexivity.
Qed.

Lemma cer_spec (ref hyp : str) : (_cer ref hyp == error_rate_spec ref hyp)%Q.
Proof.
  unfold _cer, error_rate_spec. rewrite edit_distance_levenshtein.
  destruct ref, hyp; reflexivity.
Qed.

Lemma asr_error_spec (text hyp_text : str) (language : string) :
  (_asr_error (_normalize_reference text language) hyp_text language
   == if String.eqb language "en"
      then error_rate_spec (_normalize_for_wer text) (_normalize_for_wer hyp_text)
      else error_rate_spec (_normalize_for_cer text) (_normalize_for_cer hyp_text))%Q.
Proof.
  unfold _asr_error, _normalize_reference.
  destruct (String.eqb language "en"); [apply wer_spec | apply cer_spec].
Qed.

(** C9: the recognition error is the normalized edit distance chosen by
    the language. For English it is the Levenshtein distance between the
    normalized word sequences (lower-cased, runs of characters outside
    [[a-z0-9']] collapsed to single spaces, trimmed, split) divided by
    [max(1, reference word count)], so that the reference "the cat sat"
    against the hypothesis "the dog sat" gives 1/3 (and 0 against itself);
    for any other language it is the Levenshtein distance between the
    strings of alphanumeric and CJK characters divided by
    [max(1, reference length)]; an empty normalized reference gives 1.0
    when the hypothesis is not empty and 0.0 otherwise. The distance the
    code computes in its table is the least cost of an edit script, and
    the words the normalisation yields are the maximal runs of characters
    of [[a-z0-9']] of the lower-cased text. *)
Theorem asr_error_normalized_edit_distance :
  (forall (text hyp_text : str) (language : string),
      let error := _asr_error (_normalize_reference text language) hyp_text language in
      (String.eqb language "en" = true ->
       let ref := _normalize_for_wer text in
       let hyp := _normalize_for_wer hyp_text in
       (ref <> [] -> (error == Zdivq (levenshtein ref hyp) (Z.max 1 (len ref)))%Q)
       /\ (ref = [] -> hyp <> [] -> (error == 1)%Q)
       /\ (ref = [] -> hyp = [] -> (error == 0)%Q))
      /\ (String.eqb language "en" = false ->
          let ref := _normalize_for_cer text in
          let hyp := _normalize_for_cer hyp_text in
          (ref <> [] -> (error == Zdivq (levenshtein ref hyp) (Z.max 1 (len ref)))%Q)
          /\ (ref = [] -> hyp <> [] -> (error == 1)%Q)
          /\ (ref = [] -> hyp = [] -> (error == 0)%Q)))
  /\ (forall (A : Type) (eq_dec : EqDecision A) (s t : list A),
        _edit_distance s t = levenshtein s t
        /\ edits s t (levenshtein s t)
        /\ forall n, edits s t n -> levenshtein s t <= n)
  /\ (forall text : str,
        _normalize_for_wer text = word_runs [] (lower text)
        /\ _normalize_for_cer text
           = List.filter (fun ch => isalnum ch || _is_japanese_char ch) (lower text))
  /\ (_asr_error (_normalize_reference (lit "the cat sat") "en") (lit "the dog sat") "en"
      == 1 # 3)%Q
  /\ (_asr_error (_normalize_reference (lit "the cat sat") "en") (lit "the cat sat") "en"
      == 0)%Q.
Proof using lower_ascii.
  split; [| split; [| split; [| split]]].
  - intros text hyp_text language error.
    pose proof (asr_error_spec text hyp_text language) as E. fold error in E.
    split; intros Hlang; rewrite Hlang in E; intros ref hyp; fold ref hyp in E;
      unfold error_rate_spec in E.
    + repeat apply conj.
      * intros Hne. destruct ref; [congruence | exact E].
      * intros -> Hne. destruct hyp; [congruence | exact E].
      * intros -> ->. exact E.
    + repeat apply conj.
      * intros Hne. destruct ref; [congruence | exact E].
      * intros -> Hne. destruct hyp; [congruence | exact E].
      * intros -> ->. exact E.
  - intros A eq_dec s t. split; [apply edit_distance_levenshtein |].
    split; [apply edits_levenshtein | intros n; apply levenshtein_le_edits].
  - intros text. split; [apply normalize_for_wer_words | reflexivity].
  - unfold _asr_error, _normalize_reference, _normalize_for_wer. cbn [String.eqb Ascii.eqb Bool.eqb].
    rewrite !lower_ascii by reflexivity. vm_compute. reflexivity.
  - unfold _asr_error, _normalize_reference, _normalize_for_wer. cbn [String.eqb Ascii.eqb Bool.eqb].
    rewrite !lower_ascii by reflexivity. vm_compute. reflexivity.
Qed.


(** ** Selector *)

Lemma argmin_from_spec (keys pre : list Q) (best : nat) (best_key : Q) :
  pre !! best = Some best_key ->
  (forall j k, pre !! j = Some k -> (best_key <= k)%Q) ->
  (forall j k, (j < best)%nat -> pre !! j = Some k -> (best_key < k)%Q) ->
  let r := argmin_from keys (length pre) best best_key in
  exists rk,
    (pre ++ keys) !! r = Some rk
    /\ (forall j k, (pre ++ keys) !! j = Some k -> (rk <= k)%Q)
    /\ (forall j k, (j < r)%nat -> (pre ++ keys) !! j = Some k -> (rk < k)%Q).
Proof.
  revert pre best best_key.
  induction keys as [| k keys IH]; intros pre best best_key Hbest Hmin Hfirst; cbn [argmin_from].
  - rewrite app_nil_r. exists best_key. auto.
  - assert (Hlt : (best < length pre)%nat) by (apply lookup_lt_Some in Hbest; exact Hbest).
    replace (pre ++ k :: keys) with ((pre ++ [k]) ++ keys)
      by (rewrite <- app_assoc; reflexivity).
    replace (S (length pre)) with (length (pre ++ [k]))
      by (rewrite length_app; cbn [length]; lia).
    assert (Hsplit : forall j kj, (pre ++ [k]) !! j = Some kj ->
                                  pre !! j = Some kj \/ (j = length pre /\ kj = k)).
    { intros j kj Hj. destruct (Nat.lt_ge_cases j (length pre)) as [Hin | Hout].
      - left. rewrite lookup_app_l in Hj by exact Hin. exact Hj.
      - right. rewrite lookup_app_r in Hj by exact Hout.
        destruct (j - length pre)%nat as [| m] eqn:E; cbn in Hj; [| discriminate].
        split; [lia | congruence]. }
    destruct (Qltb k best_key) eqn:Ek.
    + apply Qltb_lt in Ek. apply IH.
      * rewrite lookup_app_r by lia. rewrite Nat.sub_diag. reflexivity.
      * intros j kj Hj. destruct (Hsplit j kj Hj) as [Hp | [_ ->]].
        -- specialize (Hmin j kj Hp). lra.
        -- lra.
      * intros j kj Hlt' Hj. destruct (Hsplit j kj Hj) as [Hp | [-> _]]; [| lia].
        specialize (Hmin j kj Hp). lra.
    + apply Qltb_ge in Ek. apply IH.
      * apply lookup_app_l_Some. exact Hbest.
      * intros j kj Hj. destruct (Hsplit j kj Hj) as [Hp | [_ ->]].
        -- exact (Hmin j kj Hp).
        -- exact Ek.
      * intros j kj Hlt' Hj. destruct (Hsplit j kj Hj) as [Hp | [-> _]]; [| lia].
        exact (Hfirst j kj Hlt' Hp).
Qed.

(** [argmin] returns the first index that holds the least key. *)
Lemma argmin_spec (keys : list Q) :
  keys <> [] ->
  exists rk,
    keys !! argmin keys = Some rk
    /\ (forall j k, keys !! j = Some k -> (rk <= k)%Q)
    /\ (forall j k, (j < argmin keys)%nat -> keys !! j = Some k -> (rk < k)%Q).
Proof.
  destruct keys as [| k0 keys]; [congruence |]. intros _. cbn [argmin].
  apply (argmin_from_spec keys [k0] 0 k0).
  - reflexivity.
  - intros [| j] k Hj; cbn in Hj; [| discriminate]. injection Hj as <-. lra.
  - intros j k Hj. lia.
Qed.

Lemma score_key_score (c : BestOfNCandidate) (s : Q) :
  score c = Some s -> (score_key c == s)%Q.
Proof.
  intros Hs. unfold score_key. rewrite Hs.
  destruct (Qeq_bool s 0) eqn:E; [| reflexivity].
  apply Qeq_bool_iff in E. rewrite E. reflexivity.
Qed.

Lemma assign_score_spec (c : BestOfNCandidate) :
  exists s, score (assign_score c) = Some s /\ (s == final_score c)%Q
            /\ final_score (assign_score c) = final_score c.
Proof.
  eexists. split; [reflexivity |]. split; [| reflexivity].
  unfold final_score, _HYBRID_HEUR_WEIGHT, _WEIGHT_LEN, _WEIGHT_SILENCE, _WEIGHT_REPEAT.
  destruct (asr_error c); lra.
Qed.

(** The Selector on a pool that is not empty. *)
Lemma select_best_spec (candidates : list BestOfNCandidate) :
  candidates <> [] ->
  let scored := fst (select_best candidates) in
  let best_idx := snd (select_best candidates) in
  scored = map assign_score candidates
  /\ (forall i c, scored !! i = Some c ->
                  exists s, score c = Some s /\ (s == final_score c)%Q)
  /\ exists best s_best,
      scored !! best_idx = Some best /\ score best = Some s_best
      /\ (forall j c s, scored !! j = Some c -> score c = Some s -> (s_best <= s)%Q)
      /\ (forall j c s, (j < best_idx)%nat -> scored !! j = Some c -> score c = Some s ->
                        (s_best < s)%Q).
Proof.
  intros Hne. unfold select_best. cbn [fst snd].
  set (scored := map assign_score candidates).
  assert (Hscored : forall i c, scored !! i = Some c ->
                                exists s, score c = Some s /\ (s == final_score c)%Q).
  { intros i c Hi. subst scored. rewrite lookup_map_list in Hi.
    destruct (candidates !! i) as [c0 |]; cbn in Hi; [| discriminate].
    injection Hi as <-. destruct (assign_score_spec c0) as (s & Hs & Heq & Hf).
    exists s. split; [exact Hs |]. rewrite Hf. exact Heq. }
  split; [reflexivity |]. split; [exact Hscored |].
  assert (Hkeys : map score_key scored <> []).
  { subst scored. destruct candidates; [congruence | discriminate]. }
  destruct (argmin_spec _ Hkeys) as (rk & Hr & Hmin & Hfirst).
  rewrite lookup_map_list in Hr.
  destruct (scored !! argmin (map score_key scored)) as [best |] eqn:Ebest;
    cbn in Hr; [| discriminate].
  injection Hr as Hrk.
  destruct (Hscored _ _ Ebest) as (s_best & Hsb & _).
  pose proof (score_key_score best s_best Hsb) as Hkb. rewrite Hrk in Hkb.
  exists best, s_best. repeat apply conj; [reflexivity | exact Hsb | |].
  - intros j c s Hj Hs. rewrite <- Hkb, <- (score_key_score c s Hs).
    apply (Hmin j). rewrite lookup_map_list, Hj. reflexivity.
  - intros j c s Hlt Hj Hs. rewrite <- Hkb, <- (score_key_score c s Hs).
    apply (Hfirst j); [exact Hlt |]. rewrite lookup_map_list, Hj. reflexivity.
Qed.


(** ** [score_candidates] *)

Lemma heuristics_loop_preserves (text : str) (sample_rate : Z) (lang : string)
      (candidates : list BestOfNCandidate) :
  let pool := fst (heuristics_loop text sample_rate lang candidates) in
  length pool = length candidates
  /\ map score pool = map score candidates
  /\ map audio pool = map audio candidates
  /\ map asr_text pool = map asr_text candidates
  /\ map asr_error pool = map asr_error candidates.
Proof.
  induction candidates as [| c rest IH]; cbn [heuristics_loop]; [cbn; auto |].
  destruct (_silence_penalty (audio (set_repeat_length _ _ c)) sample_rate) as [e | sp].
  - cbn [fst length map]. auto.
  - destruct (heuristics_loop text sample_rate lang rest) as [rest' r].
    cbn [fst length map] in *. destruct IH as (Hl & Hs & Ha & Ht & He).
    rewrite Hl, Hs, Ha, Ht, He. auto.
Qed.

Lemma length_attach_asr (ref : ref_norm) (lang : string)
      (candidates : list BestOfNCandidate) (asr_texts : list str) :
  length (attach_asr ref lang candidates asr_texts) = length candidates.
Proof.
  revert asr_texts. induction candidates as [| c rest IH]; intros [| t texts];
    cbn [attach_asr length]; try reflexivity.
  rewrite IH. reflexivity.
Qed.

(** With one text per candidate, every candidate receives its
    transcription and the error computed from it. *)
Lemma attach_asr_all (ref : ref_norm) (lang : string)
      (candidates : list BestOfNCandidate) (asr_texts : list str) :
  length asr_texts = length candidates ->
  Forall2 (fun c t => asr_text c = Some t /\ asr_error c = Some (_asr_error ref t lang))
          (attach_asr ref lang candidates asr_texts) asr_texts.
Proof.
  revert asr_texts. induction candidates as [| c rest IH]; intros [| t texts] Hlen;
    cbn [length] in Hlen; try discriminate; cbn [attach_asr].
  - constructor.
  - constructor; [split; reflexivity |]. apply IH. lia.
Qed.




(** How a call of [score_candidates] ends. *)
Lemma score_candidates_cases (text : str) (candidates : list BestOfNCandidate)
      (sample_rate : Z) (language : string) (asr_service : option ASRService) :
  let pool := fst (score_candidates text candidates sample_rate language asr_service) in
  let result := snd (score_candidates text candidates sample_rate language asr_service) in
  let resolved_lang := resolve_language text (Some language) in
  let hint := if is_ja_or_en resolved_lang then Some resolved_lang else None in
  (exists e, result = inl e
             /\ length pool = length candidates
             /\ map score pool = map score candidates
             /\ (asr_service = None
                 \/ candidates = []
                 \/ (exists asr, asr_service = Some asr
                                 /\ (snd (heuristics_loop text sample_rate resolved_lang candidates)
                                     <> None
                                     \/ asr (map audio candidates) sample_rate hint = inl e))))
  \/ (exists asr texts heur,
         asr_service = Some asr
         /\ candidates <> []
         /\ heuristics_loop text sample_rate resolved_lang candidates = (heur, None)
         /\ asr (map audio candidates) sample_rate hint = inr texts
         /\ pool = fst (select_best
                          (attach_asr (_normalize_reference text resolved_lang)
                                      resolved_lang heur texts))
         /\ result = inr (snd (select_best
                                 (attach_asr (_normalize_reference text resolved_lang)
                                             resolved_lang heur texts)),
                          (perf_counter 1 - perf_counter 0)%Q)).
Proof.
  intros pool result resolved_lang hint. subst pool result.
  unfold score_candidates. fold resolved_lang.
  destruct candidates as [| c0 rest] eqn:Ecands.
  { left. eexists. cbn [fst snd]. repeat apply conj; try reflexivity. auto. }
  rewrite <- Ecands.
  assert (Hne : candidates <> []) by (subst; discriminate).
  pose proof (heuristics_loop_preserves text sample_rate resolved_lang candidates)
    as (Hl & Hs & Ha & _ & _).
  destruct (heuristics_loop text sample_rate resolved_lang candidates) as [heur r] eqn:Eh.
  cbn [fst snd] in *.
  destruct r as [e |].
  { left. exists e. cbn [fst snd]. repeat apply conj; try assumption; try reflexivity.
    destruct asr_service as [asr |]; [| auto].
    right. right. exists asr. split; [reflexivity |]. left. discriminate. }
  destruct asr_service as [asr |].
  2: { left. eexists. cbn [fst snd]. repeat apply conj; try eassumption; try reflexivity. auto. }
  unfold _run_asr. fold hint. rewrite Ha.
  destruct (asr (map audio candidates) sample_rate hint) as [e | texts] eqn:Easr.
  { left. exists e. cbn [fst snd]. repeat apply conj; try assumption; try reflexivity.
    right. right. exists asr. split; [reflexivity |]. right. exact Easr. }
  right. exists asr, texts, heur.
  destruct (select_best _) as [scored best] eqn:Esel. cbn [fst snd].
  repeat apply conj; try reflexivity; assumption.
Qed.


(** C1: on every pool, the Selector gives each candidate the final score
    [recognitionError + 0.3 * (0.4 * lengthPenalty + 0.4 * silencePenalty
    + 0.2 * repeatPenalty)], a missing recognition error counting as 1.0,
    and returns the index of a candidate of least score, the lowest such
    index on a tie: scores [[0.8, 0.3, 0.5]] select index 1 and
    [[0.3, 0.3]] select index 0. *)
Theorem selector_returns_first_minimum :
  (forall text candidates sample_rate language asr_service pool best_idx asr_sec,
      score_candidates text candidates sample_rate language asr_service
      = (pool, inr (best_idx, asr_sec)) ->
      length pool = length candidates
      /\ (forall i c, pool !! i = Some c ->
                      exists s, score c = Some s /\ (s == final_score c)%Q)
      /\ exists best s_best,
          pool !! best_idx = Some best /\ score best = Some s_best
          /\ (forall j c s, pool !! j = Some c -> score c = Some s -> (s_best <= s)%Q)
          /\ (forall j c s, (j < best_idx)%nat -> pool !! j = Some c -> score c = Some s ->
                            (s_best < s)%Q))
  /\ (forall c, final_score c
                = ((match asr_error c with Some e => e | None => 1 end)
                   + 0.3 * (0.4 * length_penalty c + 0.4 * silence_penalty c
                            + 0.2 * repeat_penalty c))%Q)
  /\ (forall e, (final_score (scored_candidate e) == e)%Q)
  /\ snd (select_best [scored_candidate 0.8; scored_candidate 0.3; scored_candidate 0.5])
     = 1%nat
  /\ snd (select_best [scored_candidate 0.3; scored_candidate 0.3]) = 0%nat.
Proof.
  split; [| split; [| split; [| split]]].
  - intros text candidates sample_rate language asr_service pool best_idx asr_sec Hrun.
    pose proof (score_candidates_cases text candidates sample_rate language asr_service) as Hc.
    rewrite Hrun in Hc. cbn [fst snd] in Hc.
    destruct Hc as [(e & He & _) | (asr & texts & heur & _ & Hne & Hheur & _ & Hpool & Hres)];
      [discriminate |].
    injection Hres as Hbest _.
    pose proof (heuristics_loop_preserves text sample_rate
                  (resolve_language text (Some language)) candidates) as (Hl & _).
    rewrite Hheur in Hl. cbn [fst] in Hl.
    set (attached := attach_asr _ _ heur texts) in *.
    assert (Hlen : length attached = length candidates)
      by (subst attached; rewrite length_attach_asr; exact Hl).
    assert (Hattached : attached <> []).
    { intros E. rewrite E in Hlen. destruct candidates; [congruence | discriminate]. }
    destruct (select_best_spec attached Hattached) as (Hmap & Hscores & Hmin).
    change (argmin (map score_key (map assign_score attached)))
      with (snd (select_best attached)) in Hbest.
    clear Hrun. subst pool best_idx.
    split; [| split; assumption].
    rewrite Hmap, length_map. exact Hlen.
  - reflexivity.
  - intros e. unfold final_score, scored_candidate. cbn. lra.
  - vm_compute. reflexivity.
  - vm_compute. reflexivity.
Qed.



(** ** Retries of the chat client *)

Lemma retryable_raises (status_code : Z) :
  is_retryable status_code = true -> status_raises status_code = true.
Proof using status_raises_error.
  unfold is_retryable, RETRYABLE_STATUS_CODES. intros H.
  apply bool_decide_eq_true_1 in H. apply status_raises_error.
  repeat (apply elem_of_cons in H as [-> | H]; [lia |]). inversion H.
Qed.

(** An attempt that triggers a retry and is not the last: sleep, go on. *)
Lemma attempt_step_retry (max_retries : Z) (retry_delay : Q) (post : nat -> PostOutcome)
      (attempt : nat) (last_exc : option exn) :
  triggers_retry (post attempt) = true -> Z.of_nat attempt < max_retries - 1 ->
  exists last_exc',
    attempt_step max_retries retry_delay post attempt last_exc
    = ([EvSleep (backoff retry_delay attempt)], Continue last_exc').
Proof.
  intros Htrig Hlt. unfold attempt_step, sleep_unless_last.
  assert (E : (Z.of_nat attempt <? max_retries - 1) = true) by (apply Z.ltb_lt; exact Hlt).
  destruct (post attempt) as [e | status_code body]; cbn [triggers_retry] in Htrig.
  - destruct e; try discriminate; rewrite E; eexists; reflexivity.
  - rewrite Htrig, E. cbn [andb]. eexists. reflexivity.
Qed.

(** An attempt that triggers no retry ends the call, whatever its rank. *)
Lemma attempt_step_final (max_retries : Z) (retry_delay : Q) (post : nat -> PostOutcome)
      (attempt remaining : nat) (last_exc : option exn) :
  triggers_retry (post attempt) = false ->
  retry_loop max_retries retry_delay post (S remaining) attempt last_exc
  = ([EvPost attempt], attempt_result (post attempt)).
Proof.
  intros Htrig. cbn [retry_loop]. unfold attempt_step, attempt_result.
  destruct (post attempt) as [e | status_code body]; cbn [triggers_retry] in Htrig.
  - destruct e; try discriminate; reflexivity.
  - rewrite Htrig. cbn [andb].
    destruct (status_raises status_code); [reflexivity |].
    destruct body; reflexivity.
Qed.

(** The last attempt ends the call on its own result, retryable or not. *)
Lemma attempt_step_last (max_retries : Z) (retry_delay : Q) (post : nat -> PostOutcome)
      (attempt : nat) (last_exc : option exn) :
  Z.of_nat attempt = max_retries - 1 ->
  retry_loop max_retries retry_delay post 1 attempt last_exc
  = ([EvPost attempt], attempt_result (post attempt)).
Proof using status_raises_error.
  intros Hlast.
  destruct (triggers_retry (post attempt)) eqn:Htrig;
    [| apply attempt_step_final; exact Htrig].
  cbn [retry_loop]. unfold attempt_step, attempt_result, sleep_unless_last.
  assert (E : (Z.of_nat attempt <? max_retries - 1) = false) by (apply Z.ltb_ge; lia).
  destruct (post attempt) as [e | status_code body]; cbn [triggers_retry] in Htrig.
  - destruct e; try discriminate; rewrite E; reflexivity.
  - rewrite E, andb_false_r, (retryable_raises status_code Htrig). reflexivity.
Qed.

Lemma attempts_trace_cons (retry_delay : Q) (first k : nat) :
  attempts_trace retry_delay first (S k)
  = EvPost first :: EvSleep (backoff retry_delay first)
    :: attempts_trace retry_delay (S first) k.
Proof.
  unfold attempts_trace. cbn [seq flat_map app].
  replace (first + S k)%nat with (S first + k)%nat by lia. reflexivity.
Qed.

(** The call: attempts follow one another while they trigger a retry, and
    the first that does not, or else the last one allowed, decides. *)
Lemma retry_loop_spec (max_retries : Z) (retry_delay : Q) (post : nat -> PostOutcome) :
  forall (k remaining attempt : nat) (last_exc : option exn),
    Z.of_nat (attempt + remaining) = max_retries ->
    (k < remaining)%nat ->
    (forall i, (i < k)%nat -> triggers_retry (post (attempt + i)%nat) = true) ->
    triggers_retry (post (attempt + k)%nat) = false \/ S k = remaining ->
    retry_loop max_retries retry_delay post remaining attempt last_exc
    = (attempts_trace retry_delay attempt k, attempt_result (post (attempt + k)%nat)).
Proof using status_raises_error.
  induction k as [| k IH]; intros remaining attempt last_exc Hmax Hk Hbefore Hend.
  - unfold attempts_trace. cbn [seq flat_map app]. rewrite Nat.add_0_r in *.
    destruct Hend as [Hfinal | Hlast].
    + destruct remaining as [| remaining]; [lia |]. apply attempt_step_final. exact Hfinal.
    + subst remaining. apply attempt_step_last. lia.
  - destruct remaining as [| remaining]; [lia |].
    rewrite attempts_trace_cons. cbn [retry_loop].
    destruct (attempt_step_retry max_retries retry_delay post attempt last_exc)
      as (last_exc' & ->).
    + specialize (Hbefore 0%nat ltac:(lia)). rewrite Nat.add_0_r in Hbefore. exact Hbefore.
    + lia.
    + rewrite (IH remaining (S attempt) last_exc').
      * replace (S attempt + k)%nat with (attempt + S k)%nat by lia. reflexivity.
      * lia.
      * lia.
      * intros i Hi. replace (S attempt + i)%nat with (attempt + S i)%nat by lia.
        apply Hbefore. lia.
      * replace (S attempt + k)%nat with (attempt + S k)%nat by lia.
        destruct Hend as [? | ?]; [left; assumption | right; lia].
Qed.

Lemma count_posts_retry_loop (max_retries : Z) (retry_delay : Q) (post : nat -> PostOutcome) :
  forall (remaining attempt : nat) (last_exc : option exn),
    (count_posts (fst (retry_loop max_retries retry_delay post remaining attempt last_exc))
     <= remaining)%nat.
Proof.
  induction remaining as [| remaining IH]; intros attempt last_exc; cbn [retry_loop].
  - destruct last_exc; cbn; lia.
  - assert (Hstep : count_posts
                      (fst (attempt_step max_retries retry_delay post attempt last_exc)) = 0%nat).
    { unfold attempt_step, sleep_unless_last.
      destruct (post attempt) as [e | status_code body].
      - destruct e; try reflexivity;
          destruct (Z.of_nat attempt <? max_retries - 1); reflexivity.
      - destruct (is_retryable status_code && (Z.of_nat attempt <? max_retries - 1));
          [reflexivity |].
        destruct (status_raises status_code); [reflexivity |].
        destruct body; reflexivity. }
    destruct (attempt_step max_retries retry_delay post attempt last_exc) as [evs r].
    cbn [fst] in Hstep. unfold count_posts in *.
    destruct r as [text | e | last_exc'].
    + cbn [fst List.filter is_post length]. lia.
    + cbn [fst List.filter is_post length]. lia.
    + specialize (IH (S attempt) last_exc').
      destruct (retry_loop max_retries retry_delay post remaining (S attempt) last_exc')
        as [evs' r'].
      cbn [fst List.filter is_post length] in *.
      rewrite List.filter_app, length_app. lia.
Qed.


(** C5: a chat attempt posts at most [max_retries] times (3 by default).
    A response whose status is 429, 502, 503 or 504, a timeout or a
    connection failure triggers a retry, after a sleep of
    [retry_delay * 2^k] following post [k] (0.5 then 1.0 for the
    defaults); any other failure, such as another 4xx status or a
    malformed body, ends the call at once with its error; and when every
    allowed post has triggered a retry, the error of the last one is
    raised. *)
Theorem post_with_retry_policy (max_retries : Z) (retry_delay : Q)
        (post : nat -> PostOutcome) :
  let trace := fst (_post_with_retry max_retries retry_delay post) in
  let result := snd (_post_with_retry max_retries retry_delay post) in
  (count_posts trace <= Z.to_nat max_retries)%nat
  /\ (forall k : nat,
         Z.of_nat k < max_retries ->
         (forall i, (i < k)%nat -> triggers_retry (post i) = true) ->
         triggers_retry (post k) = false \/ Z.of_nat k = max_retries - 1 ->
         trace = attempts_trace retry_delay 0 k /\ result = attempt_result (post k))
  /\ (max_retries <= 0 ->
      trace = [] /\ result = inl (RuntimeError "All retry attempts failed."))
  /\ (forall status_code body,
         triggers_retry (Response status_code body) = true
         <-> status_code = 429 \/ status_code = 502 \/ status_code = 503
             \/ status_code = 504)
  /\ (forall e, triggers_retry (PostRaises e) = true
                <-> (exists id, e = TimeoutException id) \/ (exists id, e = ConnectError id))
  /\ (forall status_code body,
         400 <= status_code <= 599 ->
         attempt_result (Response status_code body) = inl (HTTPStatusError status_code))
  /\ (forall status_code msg,
         status_raises status_code = false ->
         attempt_result (Response status_code (inl msg)) = inl (ValueError msg))
  /\ (forall k : nat, (backoff retry_delay k == retry_delay * inject_Z (2 ^ Z.of_nat k))%Q)
  /\ DEFAULT_MAX_RETRIES = 3
  /\ (DEFAULT_RETRY_DELAY == 0.5)%Q
  /\ attempts_trace DEFAULT_RETRY_DELAY 0 2
     = [EvPost 0; EvSleep (backoff DEFAULT_RETRY_DELAY 0);
        EvPost 1; EvSleep (backoff DEFAULT_RETRY_DELAY 1); EvPost 2]
  /\ (backoff DEFAULT_RETRY_DELAY 0 == 0.5)%Q
  /\ (backoff DEFAULT_RETRY_DELAY 1 == 1.0)%Q.
Proof using status_raises_error.
  intros trace result. subst trace result. unfold _post_with_retry.
  repeat apply conj.
  - apply count_posts_retry_loop.
  - intros k Hk Hbefore Hend.
    rewrite (retry_loop_spec max_retries retry_delay post k (Z.to_nat max_retries) 0 None).
    + split; reflexivity.
    + lia.
    + lia.
    + exact Hbefore.
    + destruct Hend as [? | ?]; [left; assumption | right; lia].
  - intros Hle. replace (Z.to_nat max_retries) with 0%nat by lia. split; reflexivity.
  - intros status_code body. cbn [triggers_retry]. split.
    + unfold is_retryable, RETRYABLE_STATUS_CODES. intros H.
      apply bool_decide_eq_true_1 in H.
      repeat (apply elem_of_cons in H as [-> | H]; [auto |]). inversion H.
    + intros [-> | [-> | [-> | ->]]]; reflexivity.
  - intros e. cbn [triggers_retry]. split.
    + destruct e as [| | | id | id | |]; cbn; try discriminate; intros _;
        [left | right]; exists id; reflexivity.
    + intros [[id ->] | [id ->]]; reflexivity.
  - intros status_code body Hs. cbn [attempt_result].
    rewrite status_raises_error by exact Hs. reflexivity.
  - intros status_code msg Hs. cbn [attempt_result]. rewrite Hs. reflexivity.
  - intros k. reflexivity.
  - reflexivity.
  - reflexivity.
  - reflexivity.
  - vm_compute. reflexivity.
  - vm_compute. reflexivity.
Qed.


(** ** Candidate generator *)

Lemma successful_texts_map (outcome : nat -> exn + str) (l : list nat) :
  successful_texts (map outcome l)
  = flat_map (fun i => match outcome i with inr text => [text] | inl _ => [] end) l.
Proof.
  induction l as [| i l IH]; [reflexivity |].
  cbn [map successful_texts flat_map]. destruct (outcome i); rewrite IH; reflexivity.
Qed.

Lemma texts_of_nil_iff (outcome : nat -> exn + str) (n : nat) :
  texts_of outcome n = [] <-> forall i, (i < n)%nat -> exists e, outcome i = inl e.
Proof.
  unfold texts_of. split.
  - intros Hnil i Hi.
    assert (Hin : In i (seq 0 n)) by (apply in_seq; lia).
    revert Hin Hnil. generalize (seq 0 n). intros l. induction l as [| j l IH]; [intros [] |].
    cbn [flat_map]. intros [-> | Hin] Hnil.
    + destruct (outcome i) as [e | t]; [exists e; reflexivity | discriminate].
    + apply IH; [exact Hin |]. destruct (outcome j); [exact Hnil | discriminate].
  - intros Hall.
    assert (Hl : forall i, In i (seq 0 n) -> exists e, outcome i = inl e).
    { intros i Hi. apply in_seq in Hi. apply Hall. lia. }
    revert Hl. generalize (seq 0 n). intros l. induction l as [| j l IH]; [reflexivity |].
    intros Hl. cbn [flat_map]. destruct (Hl j (or_introl eq_refl)) as [e ->].
    apply IH. intros i Hi. apply Hl. right. exact Hi.
Qed.

(** C3: for a requested count [n > 1] the generator issues all [n] chat
    requests, leaves the failed ones out of the result without failing
    the batch, returns the texts of the successful ones when there is at
    least one, and raises the aggregate error exactly when all [n] fail;
    for [n = 1] it issues exactly one request and raises that request's
    own error. With [n = 3] and one request answered 400, the two other
    texts are returned. *)
Theorem fetch_candidates_tolerates_failures (max_retries : Z) (retry_delay : Q)
        (backend : Backend) (n : Z) :
  let run := _fetch_llm_candidates max_retries retry_delay backend n in
  let outcome := fun i => snd (chat max_retries retry_delay backend i) in
  (1 < n ->
   fst run = map (fun i => fst (chat max_retries retry_delay backend i)) (seq 0 (Z.to_nat n))
   /\ length (fst run) = Z.to_nat n
   /\ ((exists i text, (i < Z.to_nat n)%nat /\ outcome i = inr text) ->
       snd run = inr (texts_of outcome (Z.to_nat n)) /\ texts_of outcome (Z.to_nat n) <> [])
   /\ (snd run = inl (RuntimeError "All LLM candidate requests failed.")
       <-> forall i, (i < Z.to_nat n)%nat -> exists e, outcome i = inl e)
   /\ (forall e, snd run = inl e -> e = RuntimeError "All LLM candidate requests failed."))
  /\ (n <= 1 ->
      fst run = [fst (chat max_retries retry_delay backend 0)]
      /\ snd run = match outcome 0%nat with
                   | inl e => inl e
                   | inr text => inr [text]
                   end)
  /\ (forall t0 t2 body,
         0 < max_retries -> status_raises 200 = false ->
         backend 0%nat 0%nat = Response 200 (inr t0) ->
         backend 1%nat 0%nat = Response 400 body ->
         backend 2%nat 0%nat = Response 200 (inr t2) ->
         snd (_fetch_llm_candidates max_retries retry_delay backend 3) = inr [t0; t2]).
Proof using status_raises_error.
  intros run outcome. subst run. unfold _fetch_llm_candidates.
  assert (Hresults : map snd (map (chat max_retries retry_delay backend) (seq 0 (Z.to_nat n)))
                     = map outcome (seq 0 (Z.to_nat n)))
    by (rewrite map_map; reflexivity).
  conjuncts.
  - intros Hn. destruct (Z.leb_spec n 1) as [| _]; [lia |].
    rewrite Hresults, successful_texts_map. fold (texts_of outcome (Z.to_nat n)).
    assert (Htraces :
              map fst (map (chat max_retries retry_delay backend) (seq 0 (Z.to_nat n)))
              = map (fun i => fst (chat max_retries retry_delay backend i))
                    (seq 0 (Z.to_nat n)))
      by (rewrite map_map; reflexivity).
    destruct (texts_of outcome (Z.to_nat n)) as [| t texts] eqn:Etexts; cbn [fst snd].
    + conjuncts.
      * exact Htraces.
      * rewrite length_map, length_map, length_seq. reflexivity.
      * intros (i & text & Hi & Hsucc). exfalso.
        destruct (proj1 (texts_of_nil_iff outcome (Z.to_nat n)) Etexts i Hi) as [e He].
        congruence.
      * split; [| reflexivity]. intros _. apply texts_of_nil_iff. exact Etexts.
      * intros e He. injection He as <-. reflexivity.
    + conjuncts.
      * exact Htraces.
      * rewrite length_map, length_map, length_seq. reflexivity.
      * intros _. split; [reflexivity | discriminate].
      * split; [discriminate |]. intros Hall.
        apply texts_of_nil_iff in Hall. congruence.
      * intros e He. discriminate.
  - intros Hn. destruct (Z.leb_spec n 1) as [_ |]; [| lia].
    subst outcome. cbn beta.
    destruct (chat max_retries retry_delay backend 0) as [trace [e | text]];
      split; reflexivity.
  - intros t0 t2 body Hmax H200 H0 H1 H2.
    assert (Hfirst : forall request,
               triggers_retry (backend request 0%nat) = false ->
               snd (chat max_retries retry_delay backend request)
               = attempt_result (backend request 0%nat)).
    { intros request Hfinal. unfold chat, _post_with_retry.
      rewrite (retry_loop_spec max_retries retry_delay (backend request) 0
                 (Z.to_nat max_retries) 0 None); try lia; auto. }
    change (3 <=? 1) with false. cbn iota.
    change (Z.to_nat 3) with 3%nat. cbn [seq map].
    rewrite !Hfirst by (rewrite ?H0, ?H1, ?H2; reflexivity).
    rewrite H0, H1, H2. cbn [attempt_result]. rewrite H200.
    rewrite (status_raises_error 400) by lia. reflexivity.
Qed.


(** ** The edit distance as a metric *)

Section EditDistanceMetric.
Context {A : Type} `{EqDecision A}.

Lemma edits_sym (s t : list A) (n : Z) : edits s t n -> edits t s n.
Proof.
  induction 1.
  - apply edits_nil.
  - apply edits_keep; assumption.
  - apply edits_subst; assumption.
  - apply edits_insert; assumption.
  - apply edits_delete; assumption.
Qed.

Lemma edits_refl (s : list A) : edits s s 0.
Proof. induction s as [| x s IH]; [apply edits_nil | apply edits_keep, IH]. Qed.

(** A script costs at least the difference of the lengths, and a script
    without cost leaves the sequence as it is. *)
Lemma edits_cost (s t : list A) (n : Z) :
  edits s t n -> Z.abs (len s - len t) <= n /\ (n = 0 -> s = t).
Proof.
  induction 1 as [| x s t n _ [IHn IH0] | x y s t n _ [IHn IH0]
                  | x s t n _ [IHn IH0] | y s t n _ [IHn IH0]];
    unfold len in *; cbn [length] in *.
  - split; [reflexivity | reflexivity].
  - split; [lia | intros Hn; rewrite (IH0 Hn); reflexivity].
  - split; lia.
  - split; lia.
  - split; lia.
Qed.

(** Replacing, then deleting or inserting what is left, costs the length
    of the longer sequence. *)
Lemma edits_max (s : list A) :
  forall t, exists n, n <= Z.max (len s) (len t) /\ edits s t n.
Proof.
  induction s as [| x s IH]; intros t.
  - exists (len t). split; [unfold len; simpl; lia |].
    induction t as [| y t IHt]; [apply edits_nil |].
    replace (len (y :: t)) with (len t + 1) by (unfold len; cbn [length]; lia).
    apply edits_insert, IHt.
  - destruct t as [| y t].
    + destruct (IH []) as (n & Hn & He).
      exists (n + 1). split; [unfold len in *; cbn [length] in *; lia |].
      apply edits_delete, He.
    + destruct (IH t) as (n & Hn & He).
      exists (n + 1). split; [unfold len in *; cbn [length] in *; lia |].
      apply edits_subst, He.
Qed.

(** Two scripts in a row are worth one script of at most their joint
    cost. *)
Lemma edits_trans (s t : list A) (n : Z) :
  edits s t n -> forall u m, edits t u m -> exists k, k <= n + m /\ edits s u k.
Proof.
  induction 1 as [| x s t n H1 IH | x y s t n H1 IH | x s t n H1 IH | y s t n H1 IH];
    intros u m H2.
  - exists m. split; [lia | assumption].
  - remember (x :: t) as xt eqn:Ext.
    induction H2 as [| x' t' u' m' H2 _ | x' y' t' u' m' H2 _ | x' t' u' m' H2 _
                     | y' t' u' m' H2 IH2]; try discriminate.
    + injection Ext as -> ->.
      destruct (IH _ _ H2) as (k & Hk & He).
      exists k. split; [lia | apply edits_keep, He].
    + injection Ext as -> ->.
      destruct (IH _ _ H2) as (k & Hk & He).
      exists (k + 1). split; [lia | apply edits_subst, He].
    + injection Ext as -> ->.
      destruct (IH _ _ H2) as (k & Hk & He).
      exists (k + 1). split; [lia | apply edits_delete, He].
    + destruct (IH2 Ext) as (k & Hk & He).
      exists (k + 1). split; [lia | apply edits_insert, He].
  - remember (y :: t) as yt eqn:Eyt.
    induction H2 as [| x' t' u' m' H2 _ | x' y' t' u' m' H2 _ | x' t' u' m' H2 _
                     | y' t' u' m' H2 IH2]; try discriminate.
    + injection Eyt as -> ->.
      destruct (IH _ _ H2) as (k & Hk & He).
      exists (k + 1). split; [lia | apply edits_subst, He].
    + injection Eyt as -> ->.
      destruct (IH _ _ H2) as (k & Hk & He).
      exists (k + 1). split; [lia | apply edits_subst, He].
    + injection Eyt as -> ->.
      destruct (IH _ _ H2) as (k & Hk & He).
      exists (k + 1). split; [lia | apply edits_delete, He].
    + destruct (IH2 Eyt) as (k & Hk & He).
      exists (k + 1). split; [lia | apply edits_insert, He].
  - destruct (IH _ _ H2) as (k & Hk & He).
    exists (k + 1). split; [lia | apply edits_delete, He].
  - remember (y :: t) as yt eqn:Eyt.
    induction H2 as [| x' t' u' m' H2 _ | x' y' t' u' m' H2 _ | x' t' u' m' H2 _
                     | y' t' u' m' H2 IH2]; try discriminate.
    + injection Eyt as -> ->.
      destruct (IH _ _ H2) as (k & Hk & He).
      exists (k + 1). split; [lia | apply edits_insert, He].
    + injection Eyt as -> ->.
      destruct (IH _ _ H2) as (k & Hk & He).
      exists (k + 1). split; [lia | apply edits_insert, He].
    + injection Eyt as -> ->.
      destruct (IH _ _ H2) as (k & Hk & He).
      exists k. split; [lia | exact He].
    + destruct (IH2 Eyt) as (k & Hk & He).
      exists (k + 1). split; [lia | apply edits_insert, He].
Qed.

(** X1. [_edit_distance] is symmetric: the distance from [seq_a] to
    [seq_b] is the distance from [seq_b] to [seq_a]. *)
Theorem edit_distance_symmetric (seq_a seq_b : list A) :
  _edit_distance seq_a seq_b = _edit_distance seq_b seq_a.
Proof.
  rewrite !edit_distance_levenshtein.
  apply Z.le_antisymm; apply levenshtein_le_edits, edits_sym, edits_levenshtein.
Qed.

(** X2. [_edit_distance] satisfies the triangle inequality: going from
    [seq_a] to [seq_c] costs no more than going through [seq_b]. *)
Theorem edit_distance_triangle (seq_a seq_b seq_c : list A) :
  _edit_distance seq_a seq_c
  <= _edit_distance seq_a seq_b + _edit_distance seq_b seq_c.
Proof.
  rewrite !edit_distance_levenshtein.
  destruct (edits_trans _ _ _ (edits_levenshtein seq_a seq_b)
                        _ _ (edits_levenshtein seq_b seq_c)) as (k & Hk & He).
  pose proof (levenshtein_le_edits _ _ _ He). lia.
Qed.

(** X3. [_edit_distance] lies between the difference of the two lengths
    and the larger of them, and it is 0 exactly when the two sequences
    are equal. *)
Theorem edit_distance_bounds (seq_a seq_b : list A) :
  Z.abs (len seq_a - len seq_b) <= _edit_distance seq_a seq_b
  /\ _edit_distance seq_a seq_b <= Z.max (len seq_a) (len seq_b)
  /\ (_edit_distance seq_a seq_b = 0 <-> seq_a = seq_b).
Proof.
  rewrite !edit_distance_levenshtein.
  destruct (edits_cost _ _ _ (edits_levenshtein seq_a seq_b)) as [Hlow Hzero].
  destruct (edits_max seq_a seq_b) as (n & Hn & He).
  pose proof (levenshtein_le_edits _ _ _ He) as Hup.
  split; [exact Hlow |]. split; [lia |]. split; [exact Hzero |].
  intros ->. pose proof (levenshtein_le_edits _ _ _ (edits_refl seq_b)). lia.
Qed.

End EditDistanceMetric.

(** ** Range of the recognition error *)

Lemma Zdivq_le (a b c : Z) : a <= b -> 0 < c -> (Zdivq a c <= Zdivq b c)%Q.
Proof.
  intros Hab Hc. rewrite !Zdivq_make by assumption.
  unfold Qle. cbn [Qnum Qden]. nia.
Qed.

Lemma Zdivq_zero_iff (a c : Z) : 0 < c -> (Zdivq a c == 0)%Q <-> a = 0.
Proof.
  intros Hc. rewrite Zdivq_make by assumption.
  unfold Qeq. cbn [Qnum Qden]. lia.
Qed.

Section ErrorRateRange.
Context {A : Type} `{EqDecision A}.

Lemma levenshtein_range (s t : list A) :
  0 <= levenshtein s t <= Z.max (len s) (len t) /\ (levenshtein s t = 0 <-> s = t).
Proof.
  destruct (edits_cost _ _ _ (edits_levenshtein s t)) as [Hlow Hzero].
  destruct (edits_max s t) as (n & Hn & He).
  pose proof (levenshtein_le_edits _ _ _ He) as Hup.
  split; [lia |]. split; [exact Hzero |].
  intros ->. pose proof (levenshtein_le_edits _ _ _ (edits_refl t)). lia.
Qed.

Lemma error_rate_spec_range (ref hyp : list A) :
  (0 <= error_rate_spec ref hyp)%Q
  /\ ((error_rate_spec ref hyp == 0)%Q <-> ref = hyp)
  /\ (len hyp <= len ref -> (error_rate_spec ref hyp <= 1)%Q).
Proof.
  destruct ref as [| r ref].
  - destruct hyp as [| h hyp]; cbn [error_rate_spec].
    + split; [lra |]. split; [split; [reflexivity | intros _; lra] |]. intros _. lra.
    + split; [lra |]. split; [split; [intros E; lra | discriminate] |].
      unfold len. cbn [length]. lia.
  - cbn [error_rate_spec].
    destruct (levenshtein_range (r :: ref) hyp) as [[Hlo Hup] Hzero].
    assert (Hpos : 0 < Z.max 1 (len (r :: ref))) by lia.
    split; [| split].
    + rewrite Zdivq_make by assumption. unfold Qle. cbn [Qnum Qden]. lia.
    + rewrite Zdivq_zero_iff by assumption. exact Hzero.
    + intros Hlen.
      assert (Hlen1 : 1 <= len (r :: ref)) by (unfold len; cbn [length]; lia).
      rewrite <- (Zdivq_same (Z.max 1 (len (r :: ref)))) by assumption.
      apply Zdivq_le; [lia | assumption].
Qed.

End ErrorRateRange.

(** X4. The recognition error of a transcript is never negative, and it
    is 0 exactly when the transcript and the reference text are the same
    after normalisation (the same words for English, the same characters
    otherwise); in particular the reference text itself has error 0. A
    transcript no longer than the reference after normalisation has an
    error of at most 1. *)
Theorem asr_error_range (text hyp_text : str) (language : string) :
  let error := _asr_error (_normalize_reference text language) hyp_text language in
  (0 <= error)%Q
  /\ ((error == 0)%Q <->
      if String.eqb language "en"
      then _normalize_for_wer text = _normalize_for_wer hyp_text
      else _normalize_for_cer text = _normalize_for_cer hyp_text)
  /\ (_asr_error (_normalize_reference text language) text language == 0)%Q
  /\ ((if String.eqb language "en"
       then len (_normalize_for_wer hyp_text) <= len (_normalize_for_wer text)
       else len (_normalize_for_cer hyp_text) <= len (_normalize_for_cer text)) ->
      (error <= 1)%Q).
Proof.
  cbv zeta. rewrite !asr_error_spec.
  destruct (String.eqb language "en").
  - destruct (error_rate_spec_range (_normalize_for_wer text) (_normalize_for_wer hyp_text))
      as (H0 & Hz & H1).
    split; [exact H0 |]. split; [exact Hz |]. split; [| exact H1].
    apply (error_rate_spec_range (_normalize_for_wer text) (_normalize_for_wer text)).
    reflexivity.
  - destruct (error_rate_spec_range (_normalize_for_cer text) (_normalize_for_cer hyp_text))
      as (H0 & Hz & H1).
    split; [exact H0 |]. split; [exact Hz |]. split; [| exact H1].
    apply (error_rate_spec_range (_normalize_for_cer text) (_normalize_for_cer text)).
    reflexivity.
Qed.

(** ** The token parser on free-form text *)

Lemma match_token_other (c : char) (s : str) : c <> 60%N -> match_token (c :: s) = None.
Proof.
  intros Hc. unfold match_token.
  change (lit "<|s_") with [60%N; 124%N; 115%N; 95%N].
  cbn [strip_prefix].
  destruct (N.eqb_spec 60 c) as [E | _]; [congruence | reflexivity].
Qed.

(** The search passes over text that holds no [<]. *)
Lemma findall_from_free (j rest : str) :
  Forall (fun c => c <> 60%N) j -> findall_from 0 (j ++ rest) = findall_from 0 rest.
Proof.
  induction 1 as [| c j Hc _ IH]; [reflexivity |].
  cbn [app findall_from]. rewrite match_token_other by exact Hc. exact IH.
Qed.

(** The marker of a token that is not negative is found, whatever
    follows it. *)
Lemma findall_from_marker (t : Z) (rest : str) :
  0 <= t ->
  findall_from 0 (render_segment (Marker t) ++ rest) = decimal t :: findall_from 0 rest.
Proof using digit_val_ascii.
  intros Ht. destruct (decimal_digits_shape t Ht) as [Hne Hdig].
  cbn [render_segment]. rewrite <- !app_assoc.
  remember (lit "<|s_" ++ decimal t ++ lit "|>" ++ rest) as text eqn:Etext.
  assert (Hm : match_token text = Some (decimal t))
    by (subst text; apply match_token_marker; assumption).
  assert (Etext' : text = 60%N :: (lit "|s_" ++ decimal t ++ lit "|>") ++ rest).
  { subst text. rewrite <- !app_assoc. reflexivity. }
  rewrite Etext' in Hm |- *.
  cbn [findall_from]. rewrite Hm. f_equal.
  replace (length (lit "<|s_") + length (decimal t) + 1)%nat
    with (length (lit "|s_" ++ decimal t ++ lit "|>")).
  - apply findall_from_skip.
  - rewrite !length_app. cbn. lia.
Qed.

(** The marker of a negative token is not one: the pattern wants digits
    after [<|s_]. *)
Lemma findall_from_negative_marker (t : Z) (rest : str) :
  t < 0 ->
  findall_from 0 (render_segment (Marker t) ++ rest) = findall_from 0 rest.
Proof using digit_val_ascii.
  intros Ht. cbn [render_segment]. unfold decimal.
  destruct (Z.ltb_spec t 0) as [_ | Hge]; [| lia].
  set (ds := uint_chars (N.to_uint (Z.to_N (- t)))).
  assert (Hds : Forall (fun c => c <> 60%N) ds).
  { eapply Forall_impl; [apply uint_chars_digits |].
    unfold ascii_digit. intros c Hc. lia. }
  change ((lit "<|s_" ++ (45%N :: ds) ++ lit "|>") ++ rest)
    with (60%N :: 124%N :: 115%N :: 95%N :: 45%N :: (ds ++ lit "|>") ++ rest).
  cbn [findall_from].
  assert (Hm : match_token (60%N :: 124%N :: 115%N :: 95%N :: 45%N :: (ds ++ lit "|>") ++ rest)
               = None).
  { unfold match_token. change (lit "<|s_") with [60%N; 124%N; 115%N; 95%N].
    cbn [strip_prefix N.eqb Pos.eqb]. cbn [match_digits_close].
    unfold is_digit. rewrite digit_val_ascii by reflexivity. reflexivity. }
  rewrite Hm.
  rewrite !match_token_other by discriminate.
  rewrite <- app_assoc. rewrite findall_from_free by assumption.
  change (lit "|>" ++ rest) with (124%N :: 62%N :: rest).
  cbn [findall_from]. rewrite !match_token_other by discriminate. reflexivity.
Qed.

Lemma findall_segments (segs : list segment) :
  Forall free_text segs ->
  findall (render_segments segs) = map decimal (segment_tokens segs).
Proof using digit_val_ascii.
  unfold findall, render_segments.
  induction 1 as [| seg segs Hseg _ IH]; [reflexivity |].
  cbn [map concat segment_tokens flat_map]. fold (segment_tokens segs).
  destruct seg as [s | t].
  - cbn [render_segment app]. rewrite findall_from_free by exact Hseg. exact IH.
  - destruct (Z.leb_spec 0 t) as [Ht | Ht].
    + rewrite findall_from_marker by assumption. cbn [app map]. rewrite IH. reflexivity.
    + rewrite findall_from_negative_marker by assumption. exact IH.
Qed.

Lemma segment_tokens_nonneg (segs : list segment) :
  Forall (fun t => 0 <= t) (segment_tokens segs).
Proof.
  induction segs as [| seg segs IH]; [constructor |].
  cbn [segment_tokens flat_map]. fold (segment_tokens segs).
  destruct seg as [s | t]; [exact IH |].
  destruct (Z.leb_spec 0 t); [constructor; assumption | exact IH].
Qed.

(** X5. The parser reads the tokens of the markers and nothing else: on
    a text made of markers and of free text without [<], in any order,
    it yields the non-negative tokens of the markers from left to right,
    each of them within the limit of the conversion, and it raises its
    error when there is none; a marker of more digits than the limit
    makes it raise the ValueError of the conversion instead. *)
Theorem parse_skips_free_text (segs : list segment) :
  Forall free_text segs ->
  (Forall within_limit (segment_tokens segs) ->
   parse_speech_tokens (render_segments segs)
   = match segment_tokens segs with
     | [] => inl (ValueError "No speech tokens found in LLM output.")
     | _ => inr (segment_tokens segs)
     end)
  /\ (Exists (fun t => ~ within_limit t) (segment_tokens segs) ->
      exists digits,
        parse_speech_tokens (render_segments segs)
        = inl (ValueError (limit_message_to_int digits))
        /\ (0 < int_max_str_digits < digits)%nat).
Proof using digit_val_ascii.
  intros Hfree. split.
  - intros Hw. apply parse_of_findall.
    + apply segment_tokens_nonneg.
    + exact Hw.
    + apply findall_segments, Hfree.
  - intros Hex. apply (parse_of_findall_beyond _ (segment_tokens segs)).
    + apply segment_tokens_nonneg.
    + exact Hex.
    + apply findall_segments, Hfree.
Qed.

(** X6. Rendering a sequence of integers that the interpreter converts,
    each within the limit on digits, and parsing the text gives back the
    members that are not negative, in order: a negative token is lost,
    and a sequence of negative tokens only makes the parser raise its
    error. *)
Theorem parse_render_drops_negative (S : list Z) :
  Forall within_limit S ->
  parse_rendered S
  = match List.filter (fun t => 0 <=? t) S with
    | [] => inl (ValueError "No speech tokens found in LLM output.")
    | _ => inr (List.filter (fun t => 0 <=? t) S)
    end.
Proof using digit_val_ascii.
  intros Hw. unfold parse_rendered. rewrite tokens_to_str_within by exact Hw.
  assert (Ht : segment_tokens (map Marker S) = List.filter (fun t => 0 <=? t) S).
  { clear Hw. induction S as [| t S IH]; [reflexivity |].
    cbn [map segment_tokens flat_map List.filter]. fold (segment_tokens (map Marker S)).
    rewrite IH. destruct (0 <=? t); reflexivity. }
  rewrite <- Ht. apply parse_of_findall.
  - apply segment_tokens_nonneg.
  - rewrite Ht. clear Ht. induction Hw as [| t S Hwt _ IH]; [constructor |].
    cbn [List.filter]. destruct (0 <=? t); [constructor; assumption | exact IH].
  - apply findall_segments.
    clear. induction S; constructor; [exact I | assumption].
Qed.

Lemma digits_value_nonneg (s : str) :
  (forall c v, digit_val c = Some v -> 0 <= v) -> 0 <= digits_value s.
Proof.
  intros Hval. unfold digits_value.
  assert (H : forall acc, 0 <= acc ->
    0 <= fold_left (fun acc c => 10 * acc + match digit_val c with Some v => v | None => 0 end)
                   s acc).
  { induction s as [| c s IH]; intros acc Hacc; [exact Hacc |].
    cbn [fold_left]. apply IH.
    destruct (digit_val c) as [v |] eqn:E; [pose proof (Hval c v E) |]; lia. }
  apply H. lia.
Qed.

Lemma try_map_inr {E A B : Type} (f : A -> E + B) (l : list A) (ys : list B) :
  try_map f l = inr ys -> Forall2 (fun x y => f x = inr y) l ys.
Proof.
  revert ys. induction l as [| x l IH]; intros ys.
  - intros [= <-]. constructor.
  - cbn [try_map]. destruct (f x) as [e | y] eqn:Efx; [discriminate |].
    destruct (try_map f l) as [e | ys'] eqn:El; [discriminate |].
    intros [= <-]. constructor; [exact Efx | apply IH; reflexivity].
Qed.

(** X7. What the parser returns is never empty and holds no negative
    number, whatever the text: digits have values from 0 on, and a text
    without a marker raises the error. *)
Theorem parse_tokens_nonempty_nonneg (text : str) (tokens : list Z) :
  (forall c v, digit_val c = Some v -> 0 <= v) ->
  parse_speech_tokens text = inr tokens ->
  tokens <> [] /\ Forall (fun t => 0 <= t) tokens.
Proof.
  intros Hval. unfold parse_speech_tokens.
  destruct (try_map int_of_digits (findall text)) as [e | [| t ts]] eqn:E; try discriminate.
  intros [= <-]. split; [discriminate |].
  apply try_map_inr in E.
  induction E as [| ds y l ys Hy _ IH]; constructor; [| exact IH].
  unfold int_of_digits in Hy.
  destruct (exceeds_limit (length ds)); [discriminate |].
  injection Hy as <-. apply digits_value_nonneg, Hval.
Qed.

(** ** Language detection *)

Lemma Qleb_Zdivq (x : Q) (a b : Z) :
  0 < b -> Qleb x (Zdivq a b) = (Qnum x * b <=? a * Zpos (Qden x)).
Proof.
  intros Hb.
  destruct (Z.leb_spec (Qnum x * b) (a * Zpos (Qden x))) as [H | H].
  - apply Qleb_le. rewrite Zdivq_make by assumption.
    unfold Qle. cbn [Qnum Qden]. rewrite Z2Pos.id by assumption. exact H.
  - apply Qleb_gt. rewrite Zdivq_make by assumption.
    unfold Qlt. cbn [Qnum Qden]. rewrite Z2Pos.id by assumption. exact H.
Qed.

Lemma japanese_not_space (c : char) : _is_japanese_char c = true -> isspace c = false.
Proof.
  unfold _is_japanese_char, isspace. intros H.
  rewrite !orb_true_iff, !andb_true_iff, !N.leb_le in H.
  apply not_true_is_false. intros Hs.
  rewrite !orb_true_iff, !andb_true_iff, !N.leb_le, !N.eqb_eq in Hs.
  lia.
Qed.

Lemma ascii_alpha_not_space (c : char) : _is_ascii_alpha c = true -> isspace c = false.
Proof.
  unfold _is_ascii_alpha, isspace. intros H.
  rewrite !orb_true_iff, !andb_true_iff, !N.leb_le in H.
  apply not_true_is_false. intros Hs.
  rewrite !orb_true_iff, !andb_true_iff, !N.leb_le, !N.eqb_eq in Hs.
  lia.
Qed.

Lemma ascii_alpha_not_japanese (c : char) :
  _is_ascii_alpha c = true -> _is_japanese_char c = false.
Proof.
  unfold _is_ascii_alpha, _is_japanese_char. intros H.
  rewrite !orb_true_iff, !andb_true_iff, !N.leb_le in H.
  apply not_true_is_false. intros Hs.
  rewrite !orb_true_iff, !andb_true_iff, !N.leb_le in Hs.
  lia.
Qed.

Lemma count_letters_le (text : str) :
  count_chars _is_japanese_char text + count_chars _is_ascii_alpha text
  <= count_chars (fun ch => negb (isspace ch)) text.
Proof.
  unfold count_chars, len.
  induction text as [| c text IH]; [reflexivity |].
  cbn [List.filter].
  destruct (_is_japanese_char c) eqn:Ej, (_is_ascii_alpha c) eqn:Ea.
  - rewrite (ascii_alpha_not_japanese c Ea) in Ej. discriminate.
  - rewrite (japanese_not_space c Ej). cbn [negb length]. lia.
  - rewrite (ascii_alpha_not_space c Ea). cbn [negb length]. lia.
  - destruct (negb (isspace c)); cbn [length]; lia.
Qed.

(** X8. [detect_language] decides on whole numbers: with [total] the
    number of characters that are not white space, it answers "ja" when
    there is such a character and at least one in five of them is
    Japanese, else "en" when at least half of them are ASCII letters,
    else "auto"; Japanese characters and ASCII letters are counted among
    the [total], and no character is counted as both. *)
Theorem detect_language_rule (text : str) :
  let total := count_chars (fun ch => negb (isspace ch)) text in
  let ja_count := count_chars _is_japanese_char text in
  let en_count := count_chars _is_ascii_alpha text in
  detect_language text
  = (if total =? 0 then "auto"%string
     else if total <=? 5 * ja_count then "ja"%string
     else if total <=? 2 * en_count then "en"%string
     else "auto"%string)
  /\ 0 <= ja_count /\ 0 <= en_count /\ ja_count + en_count <= total.
Proof.
  cbv zeta. split; [| pose proof (count_letters_le text);
                      pose proof (count_chars_nonneg _is_japanese_char text);
                      pose proof (count_chars_nonneg _is_ascii_alpha text); lia].
  unfold detect_language.
  pose proof (count_chars_nonneg (fun ch => negb (isspace ch)) text) as Htotal.
  destruct (Z.eqb_spec (count_chars (fun ch => negb (isspace ch)) text) 0) as [E | Hne];
    [reflexivity |].
  rewrite !Qleb_Zdivq by lia. cbn [Qnum Qden].
  repeat match goal with
         | |- context [?a <=? ?b] => destruct (Z.leb_spec a b)
         end; try reflexivity; lia.
Qed.

Lemma detect_language_values (text : str) :
  detect_language text = "ja"%string \/ detect_language text = "en"%string
  \/ detect_language text = "auto"%string.
Proof.
  unfold detect_language.
  repeat match goal with |- context [if ?b then _ else _] => destruct b end; auto.
Qed.

(** X9. [resolve_language] answers "ja", "en" or "auto"; a preferred
    language that is "ja" or "en" is the answer whatever the text; and
    the answer is stable: [_length_penalty], which resolves the language
    it is handed once more, ends on the language [score_candidates]
    resolved. *)
Theorem resolve_language_stable (text : str) (preferred : option string) :
  let resolved := resolve_language text preferred in
  (resolved = "ja"%string \/ resolved = "en"%string \/ resolved = "auto"%string)
  /\ (forall l, preferred = Some l -> l = "ja"%string \/ l = "en"%string -> resolved = l)
  /\ (if is_ja_or_en resolved then resolved else detect_language text) = resolved
  /\ resolve_language text (Some resolved) = resolved.
Proof.
  cbv zeta.
  assert (Hvalues :
    resolve_language text preferred = "ja"%string
    \/ resolve_language text preferred = "en"%string
    \/ resolve_language text preferred = "auto"%string).
  { unfold resolve_language. destruct preferred as [l |]; [| apply detect_language_values].
    unfold is_ja_or_en.
    destruct (String.eqb_spec l "ja") as [-> | _]; [left; reflexivity |].
    destruct (String.eqb_spec l "en") as [-> | _]; [right; left; reflexivity |].
    apply detect_language_values. }
  assert (Hstable :
    (if is_ja_or_en (resolve_language text preferred)
     then resolve_language text preferred else detect_language text)
    = resolve_language text preferred).
  { destruct (is_ja_or_en (resolve_language text preferred)) eqn:E; [reflexivity |].
    unfold resolve_language in *. destruct preferred as [l |]; [| reflexivity].
    destruct (is_ja_or_en l) eqn:El; [congruence | reflexivity]. }
  split; [exact Hvalues |]. split; [| split; [exact Hstable | exact Hstable]].
  intros l -> Hl. unfold resolve_language.
  destruct Hl as [-> | ->]; reflexivity.
Qed.

(** ** Range of the silence statistics *)

Lemma longest_run_le_len (flags : list bool) : 0 <= _longest_run flags <= len flags.
Proof.
  destruct (longest_run_spec flags) as (Hnonneg & (i & Hrun) & _).
  split; [exact Hnonneg |].
  destruct (Z.eq_dec (_longest_run flags) 0) as [E | Hne].
  - rewrite E. unfold len. lia.
  - pose proof (run_at_bound flags i (Z.to_nat (_longest_run flags)) Hrun) as Hb.
    unfold len. lia.
Qed.

Lemma silence_stats_ok (audio : list Q) (sample_rate : Z) :
  0 < sample_rate ->
  exists ratio longest,
    _silence_stats audio sample_rate = inr (ratio, longest)
    /\ (0 <= ratio <= 1)%Q
    /\ (0 <= longest <= Zdivq (len audio) sample_rate)%Q.
Proof.
  intros Hsr.
  assert (Hnumel : len (map Qabs audio) = len audio)
    by (unfold len; rewrite length_map; reflexivity).
  destruct (Z.eq_dec (len audio) 0) as [Hempty | Hne].
  { exists 1.0%Q, 0.0%Q. unfold _silence_stats. rewrite Hnumel, Hempty.
    cbn [Z.eqb]. split; [reflexivity |]. split; [split; lra |].
    split; [lra |]. rewrite Zdivq_make by assumption.
    unfold Qle. cbn [Qnum Qden]. lia. }
  assert (Hlen : 0 < len audio) by (unfold len in *; lia).
  pose proof (frame_size_of_bounds sample_rate Hsr) as Hfs.
  destruct (Z.eq_dec (len audio / frame_size_of sample_rate) 0) as [Hz | Hnz].
  - unfold _silence_stats. rewrite Hnumel.
    destruct (Z.eqb_spec (len audio) 0) as [E | _]; [lia |].
    rewrite Hz. cbn [Z.eqb].
    destruct (Z.eqb_spec sample_rate 0) as [E | _]; [lia |].
    eexists _, _. split; [reflexivity |].
    split.
    + destruct (is_silent (mean (map Qabs audio))); split; lra.
    + split; [| apply Qle_refl].
      apply Qlt_le_weak, Zdivq_pos; assumption.
  - assert (Hframes : 0 < len audio / frame_size_of sample_rate).
    { pose proof (Z.div_pos (len audio) (frame_size_of sample_rate)). lia. }
    rewrite (silence_stats_frames audio sample_rate Hsr Hframes).
    destruct (silent_flags_spec audio sample_rate Hsr) as [Hflags _].
    pose proof (count_set_nonneg (silent_flags audio sample_rate)) as Hcount.
    pose proof (longest_run_le_len (silent_flags audio sample_rate)) as Hrun.
    eexists _, _. split; [reflexivity |]. split.
    + rewrite mean_flags. apply Zdivq_bounds; lia.
    + split.
      * rewrite Zdivq_make by assumption. unfold Qle. cbn [Qnum Qden]. nia.
      * apply Zdivq_le; [| assumption].
        pose proof (Z.mul_div_le (len audio) (frame_size_of sample_rate)).
        nia.
Qed.

(** X10. For a positive sample rate [_silence_stats] returns a ratio of
    silent frames between 0 and 1 and a longest silence between 0 and
    the duration of the audio, in seconds. An empty tensor gives the
    pair (1.0, 0.0) at any sample rate; a tensor that is not empty makes
    the function raise ZeroDivisionError at sample rate 0. *)
Theorem silence_stats_range (audio : list Q) (sample_rate : Z) :
  (0 < sample_rate ->
   exists ratio longest,
     _silence_stats audio sample_rate = inr (ratio, longest)
     /\ (0 <= ratio <= 1)%Q
     /\ (0 <= longest <= Zdivq (len audio) sample_rate)%Q)
  /\ (audio = [] -> _silence_stats audio sample_rate = inr (1.0, 0.0)%Q)
  /\ (audio <> [] -> sample_rate = 0 ->
      _silence_stats audio sample_rate = inl ZeroDivisionError).
Proof.
  split; [| split].
  - apply silence_stats_ok.
  - intros ->. reflexivity.
  - intros Hne ->. unfold _silence_stats.
    destruct audio as [| x audio]; [congruence |].
    change (len (map Qabs (x :: audio)) =? 0) with false. cbn iota.
    change (0 =? 0) with true.
    destruct (_ =? 0); reflexivity.
Qed.

(** X11. For a positive sample rate the silence penalty is a number
    between 0 and 1 plus half the seconds of audio beyond two: audio of
    at most two seconds is penalised by at most 1. *)
Theorem silence_penalty_range (audio : list Q) (sample_rate : Z) :
  0 < sample_rate ->
  exists penalty,
    _silence_penalty audio sample_rate = inr penalty
    /\ (0 <= penalty)%Q
    /\ (penalty <= 1 + Qmax 0 ((Zdivq (len audio) sample_rate - 2) / 2))%Q.
Proof.
  intros Hsr.
  destruct (silence_stats_ok audio sample_rate Hsr)
    as (ratio & longest & Hs & [Hr0 Hr1] & [Hl0 Hl1]).
  unfold _silence_penalty. rewrite Hs.
  eexists. split; [reflexivity |].
  rewrite silence_penalty_of_spec.
  split.
  - pose proof (Q.le_max_l 0 ((ratio - 0.2) / (1 - 0.2))).
    pose proof (Q.le_max_l 0 ((longest - 2.0) / 2.0)). lra.
  - apply Qplus_le_compat.
    + apply Q.max_lub; [lra |].
      apply Qle_shift_div_r; [reflexivity | lra].
    + apply Q.max_le_compat_l.
      apply Qle_shift_div_r; [reflexivity |].
      assert (E : ((Zdivq (len audio) sample_rate - 2) / 2 * 2.0
                   == Zdivq (len audio) sample_rate - 2)%Q) by field.
      rewrite E. lra.
Qed.

(** ** Range of the length penalty and of the scores *)

Lemma length_penalty_eq (text : str) (tokens : list Z) (language : string) :
  let lang := if is_ja_or_en language then language else detect_language text in
  let actual := (inject_Z (len tokens) / 25)%Q in
  let phonemes := Z.max (_phoneme_count text lang) 1 in
  let bonus := _punctuation_bonus_sec text in
  let min_expected := (inject_Z phonemes * fst (_SPP_MINMAX lang) + bonus)%Q in
  let max_expected := (inject_Z phonemes * snd (_SPP_MINMAX lang) + bonus)%Q in
  (0 < min_expected <= max_expected)%Q
  /\ _length_penalty text tokens language
     = if Qleb actual 0 || Qleb min_expected 0 then 0%Q
       else if Qltb actual min_expected
            then ((min_expected - actual) / min_expected)%Q
            else if Qltb max_expected actual
                 then ((actual - max_expected) / max_expected)%Q
                 else 0%Q.
Proof.
  intros lang actual phonemes bonus min_expected max_expected.
  pose proof (punctuation_bonus_range text) as Hbonus. fold bonus in Hbonus.
  pose proof (SPP_MINMAX_range lang) as Hspp.
  assert (Hph : (1 <= inject_Z phonemes)%Q).
  { subst phonemes. unfold Qle. cbn. lia. }
  split; [split; [subst min_expected; nra | subst min_expected max_expected; nra] |].
  unfold _length_penalty. fold lang. fold phonemes. fold bonus.
  destruct (_SPP_MINMAX lang) as [min_spp max_spp] eqn:Espp. reflexivity.
Qed.

Lemma length_penalty_nonneg (text : str) (tokens : list Z) (language : string) :
  (0 <= _length_penalty text tokens language)%Q.
Proof.
  destruct (length_penalty_eq text tokens language) as [[Hmin Hminmax] ->].
  destruct (_ || _); [lra |].
  match goal with |- context [Qltb ?a ?b] => destruct (Qltb a b) eqn:Eshort end.
  - apply Qltb_lt in Eshort. apply Qle_shift_div_l; [exact Hmin | lra].
  - match goal with |- context [Qltb ?a ?b] => destruct (Qltb a b) eqn:Elong end; [| lra].
    apply Qltb_lt in Elong. apply Qle_shift_div_l; [lra | lra].
Qed.

(** X12. The length penalty is never negative. It is 0 for an empty
    token sequence, and when the audio is shorter than the expected
    minimum it lies strictly between 0 and 1; only audio that is too
    long can be penalised by 1 or more. *)
Theorem length_penalty_range (text : str) (tokens : list Z) (language : string) :
  let lang := if is_ja_or_en language then language else detect_language text in
  let actual := (inject_Z (len tokens) / 25)%Q in
  let phonemes := Z.max (_phoneme_count text lang) 1 in
  let min_expected :=
    (inject_Z phonemes * fst (_SPP_MINMAX lang) + _punctuation_bonus_sec text)%Q in
  (0 <= _length_penalty text tokens language)%Q
  /\ (tokens = [] -> _length_penalty text tokens language = 0%Q)
  /\ (tokens <> [] -> (actual < min_expected)%Q ->
      (0 < _length_penalty text tokens language < 1)%Q)
  /\ ((1 <= _length_penalty text tokens language)%Q -> (min_expected <= actual)%Q).
Proof.
  intros lang actual phonemes min_expected.
  split; [apply length_penalty_nonneg |].
  destruct (length_penalty_eq text tokens language) as [[Hmin Hminmax] E].
  fold lang phonemes actual min_expected in Hmin, Hminmax, E.
  assert (Hshort : (0 < actual)%Q -> (actual < min_expected)%Q ->
                   (0 < (min_expected - actual) / min_expected < 1)%Q).
  { intros Hpos Hlt. split.
    - apply Qlt_shift_div_l; [exact Hmin | lra].
    - apply Qlt_shift_div_r; [exact Hmin | lra]. }
  split; [| split].
  - intros ->. rewrite E. reflexivity.
  - intros Hne Hlt.
    assert (Hactual : (0 < actual)%Q).
    { subst actual. apply Qlt_shift_div_l; [lra |].
      destruct tokens; [congruence |]. unfold Qlt, len. cbn. lia. }
    rewrite E.
    assert (E1 : Qleb actual 0 = false) by (apply Qleb_gt; exact Hactual).
    assert (E2 : Qleb min_expected 0 = false) by (apply Qleb_gt; exact Hmin).
    rewrite E1, E2. cbn [orb].
    assert (E3 : Qltb actual min_expected = true) by (apply Qltb_lt; exact Hlt).
    rewrite E3. apply Hshort; assumption.
  - rewrite E. intros Hone.
    destruct (Qleb actual 0) eqn:E1; cbn [orb] in Hone; [lra |].
    destruct (Qleb min_expected 0) eqn:E2; [lra |].
    destruct (Qltb actual min_expected) eqn:E3; [| apply Qltb_ge; exact E3].
    apply Qleb_gt in E1. apply Qltb_lt in E3.
    destruct (Hshort E1 E3). lra.
Qed.

Lemma ngram_repeat_ratio_nonneg (tokens : list Z) (n : nat) :
  (1 <= n)%nat -> (0 <= _ngram_repeat_ratio tokens n)%Q.
Proof.
  intros Hn. rewrite (ngram_repeat_ratio_spec tokens n Hn).
  apply (ngram_ratio_range n tokens Hn).
Qed.

Lemma repeat_penalty_nonneg (tokens : list Z) : (0 <= _repeat_penalty tokens)%Q.
Proof.
  rewrite repeat_penalty_max.
  pose proof (ngram_ratio_range 2 tokens ltac:(lia)) as [H2 _].
  eapply Qle_trans; [exact H2 |].
  eapply Qle_trans; [apply Q.le_max_l | apply Q.le_max_l].
Qed.

Lemma silence_penalty_of_nonneg (ratio longest : Q) :
  (0 <= silence_penalty_of ratio longest)%Q.
Proof.
  rewrite silence_penalty_of_spec.
  pose proof (Q.le_max_l 0 ((ratio - 0.2) / (1 - 0.2))).
  pose proof (Q.le_max_l 0 ((longest - 2.0) / 2.0)). lra.
Qed.

Lemma heuristics_loop_tokens (text : str) (sample_rate : Z) (lang : string)
      (candidates : list BestOfNCandidate) :
  map tokens (fst (heuristics_loop text sample_rate lang candidates)) = map tokens candidates.
Proof.
  induction candidates as [| c rest IH]; cbn [heuristics_loop]; [reflexivity |].
  destruct (_silence_penalty (audio (set_repeat_length _ _ c)) sample_rate) as [e | sp].
  - reflexivity.
  - destruct (heuristics_loop text sample_rate lang rest) as [rest' r].
    cbn [fst map] in *. rewrite IH. reflexivity.
Qed.

Lemma heuristics_loop_nonneg (text : str) (sample_rate : Z) (lang : string)
      (candidates heur : list BestOfNCandidate) :
  heuristics_loop text sample_rate lang candidates = (heur, None) ->
  Forall (fun h => (0 <= repeat_penalty h)%Q /\ (0 <= length_penalty h)%Q
                   /\ (0 <= silence_penalty h)%Q) heur.
Proof.
  revert heur. induction candidates as [| c rest IH]; intros heur; cbn [heuristics_loop].
  - intros [= <-]. constructor.
  - unfold _silence_penalty.
    destruct (_silence_stats (audio (set_repeat_length _ _ c)) sample_rate)
      as [e | [ratio longest]]; [discriminate |].
    destruct (heuristics_loop text sample_rate lang rest) as [rest' r].
    intros [= <- ->]. constructor; [| apply IH; reflexivity].
    cbn [set_silence set_repeat_length repeat_penalty length_penalty silence_penalty].
    split; [apply repeat_penalty_nonneg |].
    split; [apply length_penalty_nonneg | apply silence_penalty_of_nonneg].
Qed.

Lemma attach_asr_inputs (ref : ref_norm) (lang : string)
      (candidates : list BestOfNCandidate) (asr_texts : list str) :
  Forall2 (fun c h => tokens h = tokens c /\ audio h = audio c
                      /\ repeat_penalty h = repeat_penalty c
                      /\ length_penalty h = length_penalty c
                      /\ silence_penalty h = silence_penalty c)
          candidates (attach_asr ref lang candidates asr_texts).
Proof.
  revert asr_texts. induction candidates as [| c rest IH]; intros [| t texts];
    cbn [attach_asr]; try constructor; auto.
  - clear IH. induction rest; constructor; auto.
Qed.

Lemma Forall2_map_eq {A B C : Type} (f : A -> C) (g : B -> C) (l : list A) (k : list B) :
  Forall2 (fun x y => g y = f x) l k -> map g k = map f l.
Proof. induction 1 as [| x y l k E _ IH]; cbn [map]; [| rewrite E, IH]; reflexivity. Qed.

Lemma map_assign_score (pool : list BestOfNCandidate) :
  map tokens (map assign_score pool) = map tokens pool
  /\ map audio (map assign_score pool) = map audio pool.
Proof. rewrite !map_map. split; reflexivity. Qed.

(** X13. [score_candidates] never touches what it scores: however the
    call ends, the pool holds as many candidates as before, each with
    the tokens and the audio it came with, in the same order; and an
    index it returns is an index of the pool, so that the caller finds
    the chosen tokens and audio under it. *)
Theorem score_candidates_keeps_inputs (text : str) (candidates : list BestOfNCandidate)
        (sample_rate : Z) (language : string) (asr_service : option ASRService) :
  let pool := fst (score_candidates text candidates sample_rate language asr_service) in
  let result := snd (score_candidates text candidates sample_rate language asr_service) in
  map tokens pool = map tokens candidates
  /\ map audio pool = map audio candidates
  /\ (forall best_idx asr_sec,
        result = inr (best_idx, asr_sec) ->
        exists c best,
          candidates !! best_idx = Some c /\ pool !! best_idx = Some best
          /\ tokens best = tokens c /\ audio best = audio c).
Proof.
  cbv zeta.
  set (run := score_candidates text candidates sample_rate language asr_service).
  assert (Hkeep : map tokens (fst run) = map tokens candidates
                  /\ map audio (fst run) = map audio candidates).
  { subst run. unfold score_candidates.
    destruct candidates as [| c0 rest] eqn:Ecands; [split; reflexivity |].
    rewrite <- Ecands. clear Ecands c0 rest.
    set (lang := resolve_language text (Some language)).
    pose proof (heuristics_loop_tokens text sample_rate lang candidates) as Htok.
    pose proof (heuristics_loop_preserves text sample_rate lang candidates)
      as (_ & _ & Haud & _ & _).
    destruct (heuristics_loop text sample_rate lang candidates) as [heur r].
    cbn [fst] in Htok, Haud.
    destruct r as [e |]; [split; assumption |].
    destruct asr_service as [asr |]; [| split; assumption].
    destruct (_run_asr asr heur sample_rate lang) as [e | [asr_sec asr_texts]];
      [split; assumption |].
    unfold select_best. cbn [fst].
    pose proof (attach_asr_inputs (_normalize_reference text lang) lang heur asr_texts)
      as Hatt.
    destruct (map_assign_score (attach_asr (_normalize_reference text lang) lang heur asr_texts))
      as [-> ->].
    rewrite <- Htok, <- Haud. split; apply Forall2_map_eq.
    - eapply Forall2_impl; [exact Hatt |]. intros c h (H & _). exact H.
    - eapply Forall2_impl; [exact Hatt |]. intros c h (_ & H & _). exact H. }
  destruct Hkeep as [Htok Haud].
  split; [exact Htok |]. split; [exact Haud |].
  intros best_idx asr_sec Hres.
  assert (Hidx : (best_idx < length (fst run))%nat).
  { pose proof (score_candidates_cases text candidates sample_rate language asr_service)
      as Hcases.
    cbv zeta in Hcases. fold run in Hcases.
    destruct Hcases
      as [(e & He & _) | (asr & texts & heur & _ & Hne & Hheur & _ & Hpool & Hbest)];
      [congruence |].
    rewrite Hbest in Hres. injection Hres as <- _.
    rewrite Hpool.
    set (attached := attach_asr _ _ heur texts).
    assert (Hatt : attached <> []).
    { subst attached. intros E. apply (f_equal length) in E.
      rewrite length_attach_asr in E.
      pose proof (heuristics_loop_preserves text sample_rate
                    (resolve_language text (Some language)) candidates) as (Hl & _).
      rewrite Hheur in Hl. cbn [fst] in Hl. cbn [length] in E.
      destruct candidates; [congruence | cbn [length] in Hl; lia]. }
    destruct (select_best_spec attached Hatt) as (_ & _ & best & s & Hlook & _).
    apply lookup_lt_Some in Hlook. exact Hlook. }
  destruct (lookup_lt_is_Some_2 _ _ Hidx) as [best Hbest].
  assert (Hidx' : (best_idx < length candidates)%nat).
  { apply (f_equal length) in Htok. rewrite !length_map in Htok. lia. }
  destruct (lookup_lt_is_Some_2 _ _ Hidx') as [c Hc].
  exists c, best. split; [exact Hc |]. split; [exact Hbest |].
  split.
  - apply (f_equal (fun l => l !! best_idx)) in Htok.
    rewrite !lookup_map_list, Hbest, Hc in Htok. cbn in Htok. congruence.
  - apply (f_equal (fun l => l !! best_idx)) in Haud.
    rewrite !lookup_map_list, Hbest, Hc in Haud. cbn in Haud. congruence.
Qed.

(** X14. When the recognition service returns one text per waveform and
    [score_candidates] succeeds, every candidate of the pool has a
    recognition error that is not negative and a score at least as
    large: the heuristic penalties only add to the error, and no score
    is negative. *)
Theorem scores_at_least_error (text : str) (candidates pool : list BestOfNCandidate)
        (sample_rate : Z) (language : string) (asr : ASRService)
        (best_idx : nat) (asr_sec : Q) :
  one_text_per_waveform asr ->
  score_candidates text candidates sample_rate language (Some asr)
  = (pool, inr (best_idx, asr_sec)) ->
  Forall (fun c => exists e s,
              asr_error c = Some e /\ score c = Some s /\ (0 <= e)%Q /\ (e <= s)%Q) pool.
Proof.
  intros Hcontract Hrun.
  destruct (score_candidates_cases text candidates sample_rate language (Some asr))
    as [(e & He & _) | (asr' & texts & heur & [= <-] & Hne & Hheur & Htexts & Hpool & _)];
    rewrite Hrun in *; cbn [fst snd] in *; [congruence |].
  set (lang := resolve_language text (Some language)) in *.
  pose proof (heuristics_loop_nonneg _ _ _ _ _ Hheur) as Hnonneg.
  pose proof (heuristics_loop_preserves text sample_rate lang candidates) as (Hlen & _).
  rewrite Hheur in Hlen. cbn [fst] in Hlen.
  assert (Hcount : length texts = length heur).
  { rewrite (Hcontract _ _ _ _ Htexts), length_map. symmetry. exact Hlen. }
  pose proof (attach_asr_all (_normalize_reference text lang) lang heur texts Hcount) as Hall.
  pose proof (attach_asr_inputs (_normalize_reference text lang) lang heur texts) as Hin.
  rewrite Hpool. unfold select_best. cbn [fst].
  set (attached := attach_asr (_normalize_reference text lang) lang heur texts) in *.
  clearbody attached. clear Hpool Hrun Hheur Hlen Hcount Htexts Hne.
  revert texts heur Hall Hin Hnonneg.
  induction attached as [| c rest IH]; intros texts heur Hall Hin Hnonneg; [constructor |].
  inversion Hall as [| ? t ? texts' [_ Herr] Hall']; subst.
  inversion Hin as [| h ? heur' ? (_ & _ & Hr & Hl & Hs) Hin']; subst.
  inversion Hnonneg as [| ? ? (Hr0 & Hl0 & Hs0) Hnonneg']; subst.
  cbn [map]. constructor; [| eapply IH; eassumption].
  unfold assign_score. cbn [set_score asr_error score]. rewrite Herr.
  eexists _, _. split; [reflexivity |]. split; [reflexivity |].
  rewrite Hr, Hl, Hs.
  assert (He0 : (0 <= _asr_error (_normalize_reference text lang) t lang)%Q).
  { rewrite asr_error_spec. destruct (String.eqb lang "en"); apply error_rate_spec_range. }
  split; [exact He0 |].
  unfold _WEIGHT_LEN, _WEIGHT_SILENCE, _WEIGHT_REPEAT, _HYBRID_HEUR_WEIGHT. nra.
Qed.

(** ** Backoff of the chat client *)

(** An attempt sleeps at most once, only before a further attempt, and
    only on its way to that attempt. *)
Lemma attempt_step_events (max_retries : Z) (retry_delay : Q) (post : nat -> PostOutcome)
      (attempt : nat) (last_exc : option exn) :
  fst (attempt_step max_retries retry_delay post attempt last_exc) = []
  \/ (Z.of_nat attempt < max_retries - 1
      /\ fst (attempt_step max_retries retry_delay post attempt last_exc)
         = [EvSleep (backoff retry_delay attempt)]
      /\ exists l, snd (attempt_step max_retries retry_delay post attempt last_exc)
                   = Continue l).
Proof.
  unfold attempt_step, sleep_unless_last.
  destruct (post attempt) as [e | status_code body].
  - destruct e; cbn [fst snd app]; auto;
      destruct (Z.ltb_spec (Z.of_nat attempt) (max_retries - 1)); cbn [fst snd]; eauto.
  - destruct (Z.ltb_spec (Z.of_nat attempt) (max_retries - 1)) as [Hlt | Hge].
    + destruct (is_retryable status_code); cbn [andb fst snd]; [right; eauto |].
      destruct (status_raises status_code); [left; reflexivity |].
      destruct body; left; reflexivity.
    + rewrite andb_false_r.
      destruct (status_raises status_code); [left; reflexivity |].
      destruct body; left; reflexivity.
Qed.

Lemma total_sleep_app (t1 t2 : list event) :
  (total_sleep (t1 ++ t2) == total_sleep t1 + total_sleep t2)%Q.
Proof.
  unfold total_sleep. induction t1 as [| ev t1 IH]; cbn [app map Qsum]; [lra |].
  rewrite IH. lra.
Qed.

Lemma retry_loop_sleep (max_retries : Z) (retry_delay : Q) (post : nat -> PostOutcome) :
  (0 <= retry_delay)%Q ->
  forall (remaining attempt : nat) (last_exc : option exn),
    Z.of_nat (attempt + remaining) = max_retries ->
    (1 <= remaining)%nat ->
    let trace := fst (retry_loop max_retries retry_delay post remaining attempt last_exc) in
    (0 <= total_sleep trace)%Q
    /\ (total_sleep trace
        <= retry_delay * (inject_Z (2 ^ (max_retries - 1)) - inject_Z (2 ^ Z.of_nat attempt)))%Q
    /\ forall d, last trace <> Some (EvSleep d).
Proof.
  intros Hdelay.
  induction remaining as [| remaining IH]; intros attempt last_exc Hsum Hpos; [lia |].
  cbn [retry_loop].
  pose proof (attempt_step_events max_retries retry_delay post attempt last_exc) as Hstep.
  destruct (attempt_step max_retries retry_delay post attempt last_exc) as [evs r].
  cbn [fst snd] in Hstep.
  assert (Hpow : (inject_Z (2 ^ Z.of_nat attempt) <= inject_Z (2 ^ (max_retries - 1)))%Q).
  { rewrite <- Zle_Qle. apply Z.pow_le_mono_r; lia. }
  assert (Hbase : (0 <= retry_delay
                        * (inject_Z (2 ^ (max_retries - 1)) - inject_Z (2 ^ Z.of_nat attempt)))%Q)
    by nra.
  destruct Hstep as [-> | (Hlt & -> & l & ->)].
  - (* no sleep: the call ends here, or this was the last attempt *)
    destruct r as [text | e | l]; cbn [fst].
    + unfold total_sleep. cbn. split; [lra |]. split; [exact Hbase | discriminate].
    + unfold total_sleep. cbn. split; [lra |]. split; [exact Hbase | discriminate].
    + destruct remaining as [| remaining'].
      * cbn [retry_loop]. destruct l; cbn [fst app]; unfold total_sleep; cbn;
          (split; [lra |]; split; [exact Hbase | discriminate]).
      * specialize (IH (S attempt) l ltac:(lia) ltac:(lia)).
        destruct (retry_loop max_retries retry_delay post (S remaining') (S attempt) l)
          as [evs' r'] eqn:Eloop.
        cbn [fst app] in IH |- *. destruct IH as (H0 & Hle & Hlast).
        assert (Hnext : (inject_Z (2 ^ Z.of_nat (S attempt))
                         == 2 * inject_Z (2 ^ Z.of_nat attempt))%Q).
        { rewrite Nat2Z.inj_succ, Z.pow_succ_r by lia. rewrite inject_Z_mult. reflexivity. }
        assert (Hp : (0 <= inject_Z (2 ^ Z.of_nat attempt))%Q).
        { rewrite <- (Zle_Qle 0). apply Z.pow_nonneg. lia. }
        rewrite Hnext in Hle.
        change (total_sleep (EvPost attempt :: evs')) with (0 + total_sleep evs')%Q.
        split; [lra |]. split; [nra |].
        intros d. destruct evs' as [| ev evs'']; [discriminate |].
        change (last (EvPost attempt :: ev :: evs'')) with (last (ev :: evs'')).
        apply Hlast.
  - destruct remaining as [| remaining']; [lia |].
    specialize (IH (S attempt) l ltac:(lia) ltac:(lia)).
    destruct (retry_loop max_retries retry_delay post (S remaining') (S attempt) l)
      as [evs' r'] eqn:Eloop.
    cbn [fst app] in IH |- *. destruct IH as (H0 & Hle & Hlast).
    assert (Hnext : (inject_Z (2 ^ Z.of_nat (S attempt))
                     == 2 * inject_Z (2 ^ Z.of_nat attempt))%Q).
    { rewrite Nat2Z.inj_succ, Z.pow_succ_r by lia. rewrite inject_Z_mult. reflexivity. }
    assert (Hp : (0 <= inject_Z (2 ^ Z.of_nat attempt))%Q).
    { rewrite <- (Zle_Qle 0). apply Z.pow_nonneg. lia. }
    rewrite Hnext in Hle.
    change (total_sleep (EvPost attempt :: EvSleep (backoff retry_delay attempt) :: evs'))
      with (0 + (retry_delay * inject_Z (2 ^ Z.of_nat attempt) + total_sleep evs'))%Q.
    split; [nra |]. split; [nra |].
    intros d.
    assert (Hne : evs' <> []).
    { intros ->. cbn [retry_loop] in Eloop.
      destruct (attempt_step max_retries retry_delay post (S attempt) l) as [evs2 r2].
      destruct r2; [discriminate | discriminate |].
      destruct (retry_loop max_retries retry_delay post remaining' (S (S attempt)) last_exc0).
      discriminate. }
    destruct evs' as [| ev evs'']; [congruence |].
    change (last (EvPost attempt :: EvSleep (backoff retry_delay attempt) :: ev :: evs''))
      with (last (ev :: evs'')).
    apply Hlast.
Qed.

(** X15. Whatever the server does, a call of [_post_with_retry] with a
    delay that is not negative sleeps for at most
    [retry_delay * (2^(max_retries - 1) - 1)] seconds in all (1.5 s for
    the defaults), and its last act is a post, never a sleep. *)
Theorem post_with_retry_total_sleep (max_retries : Z) (retry_delay : Q)
        (post : nat -> PostOutcome) :
  (0 <= retry_delay)%Q ->
  1 <= max_retries ->
  let trace := fst (_post_with_retry max_retries retry_delay post) in
  (0 <= total_sleep trace)%Q
  /\ (total_sleep trace <= retry_delay * inject_Z (2 ^ (max_retries - 1) - 1))%Q
  /\ (exists pre i, trace = pre ++ [EvPost i]).
Proof.
  intros Hdelay Hmax. cbv zeta. unfold _post_with_retry.
  destruct (retry_loop_sleep max_retries retry_delay post Hdelay (Z.to_nat max_retries) 0 None)
    as (H0 & Hle & Hlast); [lia | lia |].
  split; [exact H0 |]. split.
  - change (2 ^ Z.of_nat 0) with 1 in Hle.
    replace (2 ^ (max_retries - 1) - 1) with (2 ^ (max_retries - 1) + - (1)) by lia.
    rewrite inject_Z_plus, inject_Z_opp. exact Hle.
  - set (trace := fst (retry_loop max_retries retry_delay post (Z.to_nat max_retries) 0 None))
      in *.
    assert (Hne : trace <> []).
    { subst trace. destruct (Z.to_nat max_retries) as [| r] eqn:E; [lia |].
      cbn [retry_loop].
      destruct (attempt_step max_retries retry_delay post 0 None) as [evs r0].
      destruct r0; [discriminate | discriminate |].
      destruct (retry_loop max_retries retry_delay post r 1 last_exc). discriminate. }
    destruct (exists_last Hne) as (pre & ev & E).
    rewrite E in Hlast |- *. exists pre.
    destruct ev as [i | d]; [exists i; reflexivity |].
    exfalso. apply (Hlast d). rewrite last_snoc. reflexivity.
Qed.

(** ** The endpoints of the chat client *)

Lemma strip_prefix_spec (p s r : str) : strip_prefix p s = Some r <-> s = p ++ r.
Proof.
  revert s. induction p as [| a p IH]; intros s; cbn [strip_prefix app].
  - split; [intros [= ->]; reflexivity | intros ->; reflexivity].
  - destruct s as [| b s]; [split; discriminate |].
    destruct (N.eqb_spec a b) as [-> | Hne].
    + rewrite IH. split; [intros ->; reflexivity | intros [= ->]; reflexivity].
    + split; [discriminate | intros [= E _]; congruence].
Qed.

(** [endswith] is the test that [suffix] ends [s]. *)
Lemma endswith_spec (s suffix : str) :
  endswith s suffix = true <-> exists k, s = k ++ suffix.
Proof.
  unfold endswith. split.
  - destruct (strip_prefix (rev suffix) (rev s)) as [r |] eqn:E; [| discriminate].
    intros _. apply strip_prefix_spec in E. exists (rev r).
    rewrite <- (rev_involutive s), E, rev_app_distr, rev_involutive. reflexivity.
  - intros [k ->].
    assert (E : strip_prefix (rev suffix) (rev (k ++ suffix)) = Some (rev k))
      by (apply strip_prefix_spec, rev_app_distr).
    rewrite E. reflexivity.
Qed.

Lemma endswith_app (k suffix : str) : endswith (k ++ suffix) suffix = true.
Proof. apply endswith_spec. exists k. reflexivity. Qed.

(** A string that ends on another character keeps its end. *)
Lemma rstrip_char_snoc (c x : char) (s : str) :
  x <> c -> rstrip_char c (s ++ [x]) = s ++ [x].
Proof.
  intros Hx. unfold rstrip_char. rewrite rev_app_distr. cbn [rev app drop_while].
  destruct (N.eqb_spec x c) as [E | _]; [congruence |].
  change (x :: rev s) with (rev [x] ++ rev s).
  rewrite <- rev_app_distr, rev_involutive. reflexivity.
Qed.

Lemma rstrip_char_app (c x : char) (k t : str) :
  last t = Some x -> x <> c -> rstrip_char c (k ++ t) = k ++ t.
Proof.
  intros Hlast Hx.
  destruct t as [| y t'] using rev_ind; [discriminate |].
  rewrite last_snoc in Hlast. injection Hlast as ->.
  rewrite app_assoc. apply rstrip_char_snoc, Hx.
Qed.

Lemma rstrip_char_repeat (c : char) (s : str) (n : nat) :
  rstrip_char c (s ++ repeat c n) = rstrip_char c s.
Proof.
  unfold rstrip_char. rewrite rev_app_distr. f_equal.
  induction n as [| n IH]; [reflexivity |].
  replace (repeat c (S n)) with (repeat c n ++ [c])
    by (rewrite <- repeat_cons; reflexivity).
  rewrite rev_app_distr. cbn [rev app drop_while]. rewrite N.eqb_refl. exact IH.
Qed.

Lemma drop_last_app (k t : str) : drop_last (length t) (k ++ t) = k.
Proof.
  unfold drop_last. rewrite length_app.
  replace (length k + length t - length t)%nat with (length k) by lia.
  apply take_app_length.
Qed.

(** X16. Both endpoints have the documented shape, whatever the base
    URL: the chat URL ends with [/chat/completions] and the models URL
    with [/models]; and resolving an endpoint once more leaves it as it
    is. *)
Theorem resolve_urls_shape (base_url : str) :
  endswith (_resolve_chat_url base_url) (lit "/chat/completions") = true
  /\ endswith (_resolve_models_url base_url) (lit "/models") = true
  /\ _resolve_chat_url (_resolve_chat_url base_url) = _resolve_chat_url base_url
  /\ _resolve_models_url (_resolve_models_url base_url) = _resolve_models_url base_url.
Proof.
  assert (Hchat : endswith (_resolve_chat_url base_url) (lit "/chat/completions") = true).
  { unfold _resolve_chat_url.
    destruct (endswith (rstrip_char chr_slash base_url) (lit "/chat/completions")) eqn:E;
      [exact E |].
    destruct (endswith (rstrip_char chr_slash base_url) (lit "/v1")).
    - apply endswith_app.
    - apply endswith_spec. exists (rstrip_char chr_slash base_url ++ lit "/v1").
      rewrite <- app_assoc. reflexivity. }
  assert (Hmodels : endswith (_resolve_models_url base_url) (lit "/models") = true).
  { unfold _resolve_models_url.
    destruct (endswith (rstrip_char chr_slash base_url) (lit "/models")) eqn:E; [exact E |].
    match goal with |- context [endswith ?b (lit "/v1")] => destruct (endswith b (lit "/v1")) end.
    - apply endswith_app.
    - apply endswith_spec. eexists (_ ++ lit "/v1").
      rewrite <- app_assoc. reflexivity. }
  split; [exact Hchat |]. split; [exact Hmodels |]. split.
  - apply endswith_spec in Hchat as [k Hk].
    unfold _resolve_chat_url at 1. rewrite Hk.
    rewrite (rstrip_char_app chr_slash 115%N k (lit "/chat/completions"))
      by (reflexivity || discriminate).
    rewrite endswith_app. reflexivity.
  - apply endswith_spec in Hmodels as [k Hk].
    unfold _resolve_models_url at 1. rewrite Hk.
    rewrite (rstrip_char_app chr_slash 115%N k (lit "/models"))
      by (reflexivity || discriminate).
    rewrite endswith_app. reflexivity.
Qed.

(** X17. The base URL may be given as the root of the server, as its
    [/v1] path or as the full chat URL, with or without slashes at the
    end: for a root [b] that does not itself end with a slash, [/v1],
    [/chat/completions] or [/models], the client posts to
    [b/v1/chat/completions] and lists models at [b/v1/models] in all
    three cases. *)
Theorem resolve_urls_agree (b : str) (n : nat) :
  rstrip_char chr_slash b = b ->
  endswith b (lit "/v1") = false ->
  endswith b (lit "/chat/completions") = false ->
  endswith b (lit "/models") = false ->
  Forall (fun u =>
            _resolve_chat_url (u ++ repeat chr_slash n) = b ++ lit "/v1/chat/completions"
            /\ _resolve_models_url (u ++ repeat chr_slash n) = b ++ lit "/v1/models")
         [b; b ++ lit "/v1"; b ++ lit "/v1/chat/completions"].
Proof.
  intros Hb Hv1 Hcc Hmodels.
  assert (Hv1' : rstrip_char chr_slash (b ++ lit "/v1") = b ++ lit "/v1").
  { apply (rstrip_char_app chr_slash 49%N); [reflexivity | discriminate]. }
  assert (Hcc' : rstrip_char chr_slash (b ++ lit "/v1/chat/completions")
                 = b ++ lit "/v1/chat/completions").
  { apply (rstrip_char_app chr_slash 115%N); [reflexivity | discriminate]. }
  assert (Hno1 : endswith (b ++ lit "/v1") (lit "/chat/completions") = false).
  { unfold endswith. rewrite rev_app_distr. reflexivity. }
  assert (Hno2 : endswith (b ++ lit "/v1") (lit "/models") = false).
  { unfold endswith. rewrite rev_app_distr. reflexivity. }
  assert (Hno3 : endswith (b ++ lit "/v1/chat/completions") (lit "/models") = false).
  { unfold endswith. rewrite rev_app_distr. reflexivity. }
  assert (Hyes : endswith (b ++ lit "/v1/chat/completions") (lit "/chat/completions") = true).
  { change (lit "/v1/chat/completions") with (lit "/v1" ++ lit "/chat/completions").
    rewrite app_assoc. apply endswith_app. }
  repeat constructor;
    unfold _resolve_chat_url, _resolve_models_url; rewrite !rstrip_char_repeat.
  - rewrite Hb, Hcc, Hv1. reflexivity.
  - rewrite Hb, Hmodels, Hcc, Hv1. reflexivity.
  - rewrite Hv1', Hno1, endswith_app, <- app_assoc. reflexivity.
  - rewrite Hv1', Hno2, Hno1, endswith_app, <- app_assoc. reflexivity.
  - rewrite Hcc', Hyes. reflexivity.
  - rewrite Hcc', Hno3, Hyes.
    change (lit "/v1/chat/completions") with (lit "/v1" ++ lit "/chat/completions").
    rewrite app_assoc, drop_last_app, Hv1', endswith_app, <- app_assoc. reflexivity.
Qed.

(** ** Responses of the language-model server *)

Section ResponsesProperties.

Variable py_str : json -> str.
Hypothesis py_str_str : forall s, py_str (JStr s) = s.

Lemma part_text_text_part (t : str) : part_text py_str (text_part t) = t.
Proof using py_str_str.
  unfold part_text, text_part, get, py_or. cbn [dict_get].
  rewrite bool_decide_eq_false_2 by discriminate.
  rewrite bool_decide_eq_true_2 by reflexivity.
  cbn [default]. destruct t as [| c t]; cbn [truthy]; apply py_str_str.
Qed.

Lemma flatten_text_parts (ts : list str) :
  _flatten_content py_str (JList (map text_part ts)) = concat ts.
Proof using py_str_str.
  cbn [_flatten_content]. induction ts as [| t ts IH]; [reflexivity |].
  cbn [map concat]. rewrite part_text_text_part, IH. reflexivity.
Qed.

(** X18. [_extract_content] reads the first choice of a chat response
    and only that one: with a message, its content, whether a string or
    a list of text parts, which are joined in order, and the empty
    string when the message has no content, even beside a legacy text;
    without a message, the legacy [text] field. A response without
    [choices], or with an empty list of them, raises the ValueError. *)
Theorem extract_content_chat_response :
  (forall (payload choice message : list (str * json)) (more : list json),
      dict_get (lit "choices") payload = Some (JList (JDict choice :: more)) ->
      (dict_get (lit "message") choice = Some (JDict message) ->
       (forall text, dict_get (lit "content") message = Some (JStr text) ->
                     _extract_content py_str (JDict payload) = inr text)
       /\ (forall texts,
              dict_get (lit "content") message = Some (JList (map text_part texts)) ->
              _extract_content py_str (JDict payload) = inr (concat texts))
       /\ (dict_get (lit "content") message = None ->
           _extract_content py_str (JDict payload) = inr []))
      /\ (dict_get (lit "message") choice = None ->
          forall text, dict_get (lit "text") choice = Some (JStr text) ->
                       _extract_content py_str (JDict payload) = inr text))
  /\ (forall payload : list (str * json),
        dict_get (lit "choices") payload = None
        \/ dict_get (lit "choices") payload = Some (JList []) ->
        _extract_content py_str (JDict payload)
        = inl (Raised (ValueError "LLM response missing 'choices'."))).
Proof using py_str_str.
  split.
  - intros payload choice message more Hchoices.
    assert (Hstart : forall r,
      match py_in "message" (JDict choice) with
      | inl e => inl e
      | inr true =>
          match subscript "message" (JDict choice) with
          | inl e => inl e
          | inr message =>
              match method_get "content" (JStr []) message with
              | inl e => inl e
              | inr content => inr (_flatten_content py_str content)
              end
          end
      | inr false =>
          match method_get "text" (JStr []) (JDict choice) with
          | inl e => inl e
          | inr content => inr (_flatten_content py_str content)
          end
      end = r ->
      _extract_content py_str (JDict payload) = r).
    { intros r <-. unfold _extract_content, method_get at 1, get_or.
      rewrite Hchoices. reflexivity. }
    split.
    + intros Hmessage.
      assert (Hcontent : forall content,
        get_or "content" (JStr []) message = content ->
        _extract_content py_str (JDict payload) = inr (_flatten_content py_str content)).
      { intros content <-. apply Hstart. unfold py_in, subscript, method_get.
        rewrite Hmessage. rewrite bool_decide_eq_true_2 by (eexists; reflexivity).
        reflexivity. }
      split; [| split].
      * intros text Htext. rewrite (Hcontent (JStr text)); [reflexivity |].
        unfold get_or. rewrite Htext. reflexivity.
      * intros texts Htexts. rewrite (Hcontent (JList (map text_part texts))).
        -- rewrite flatten_text_parts. reflexivity.
        -- unfold get_or. rewrite Htexts. reflexivity.
      * intros Hnone. rewrite (Hcontent (JStr [])); [reflexivity |].
        unfold get_or. rewrite Hnone. reflexivity.
    + intros Hnone text Htext. apply Hstart. unfold py_in, method_get, get_or.
      rewrite Hnone, Htext.
      rewrite bool_decide_eq_false_2 by (intros [x Hx]; discriminate).
      reflexivity.
  - intros payload [Hnone | Hempty]; unfold _extract_content, method_get, get_or.
    + rewrite Hnone. reflexivity.
    + rewrite Hempty. reflexivity.
Qed.

Lemma item_models_id (item : json) (name : str) :
  has_id item name -> item_models py_str item = [name].
Proof using py_str_str.
  intros (fields & -> & Hid & Hne).
  destruct name as [| c name]; [congruence |].
  unfold item_models. cbn [first_field]. unfold get. rewrite Hid. cbn.
  rewrite py_str_str. reflexivity.
Qed.

(** X19. From a listing in the shape of the models endpoint, a dict
    whose [data] is a list of entries that each carry a non-empty string
    [id], [_extract_model_ids] returns the identifiers in the order of
    the listing. *)
Theorem extract_model_ids_listing (payload : list (str * json)) (entries : list json)
        (ids : list str) :
  dict_get (lit "data") payload = Some (JList entries) ->
  dict_get (lit "models") payload = None ->
  Forall2 has_id entries ids ->
  _extract_model_ids py_str (JDict payload) = ids.
Proof using py_str_str.
  intros Hdata Hmodels Hentries.
  assert (Hids : flat_map (item_models py_str) entries = ids).
  { clear Hdata. induction Hentries as [| item name entries ids Hid _ IH]; [reflexivity |].
    cbn [flat_map]. rewrite (item_models_id item name Hid), IH. reflexivity. }
  unfold _extract_model_ids, get. cbn [flat_map]. rewrite Hdata, Hmodels.
  cbn. rewrite !app_nil_r. exact Hids.
Qed.

End ResponsesProperties.

(** X20. [resolve_model] sends a request only when it must. A model
    named by the caller is returned as it is; otherwise a cached default
    is; otherwise one request lists the models and the first one is
    returned and cached, while a failure or an empty listing is raised
    and leaves the cache as it was. Once a call has returned a model
    without being given one, every later such call returns the same
    model and sends nothing, whatever the server would answer. *)
Theorem resolve_model_caches (py_str : json -> str) (response : GetOutcome)
        (model cache : option str) :
  let '(result, cache', requests) := resolve_model py_str response model cache in
  (forall m, model = Some m -> m <> [] -> result = inr m /\ cache' = cache /\ requests = 0%nat)
  /\ (model = None \/ model = Some [] ->
      (forall m, cache = Some m -> m <> [] ->
                 result = inr m /\ cache' = cache /\ requests = 0%nat)
      /\ (cache = None \/ cache = Some [] ->
          requests = 1%nat
          /\ match list_models py_str response with
             | inr (first :: _) => result = inr first /\ cache' = Some first
             | inr [] =>
                 result = inl (RuntimeError "No models available from /v1/models.")
                 /\ cache' = cache
             | inl e => result = inl e /\ cache' = cache
             end))
  /\ (forall m, (model = None \/ model = Some []) -> result = inr m -> m <> [] ->
        forall response',
          resolve_model py_str response' None cache' = (inr m, cache', 0%nat)).
Proof.
  assert (Hcached : forall (m : str) response',
    m <> [] -> resolve_model py_str response' None (Some m) = (inr m, Some m, 0%nat)).
  { intros m response' Hne. destruct m; [congruence | reflexivity]. }
  assert (Hmain : forall model0, model0 = None \/ model0 = Some [] ->
    let '(result, cache', requests) := resolve_model py_str response model0 cache in
    (forall m, model0 = Some m -> m <> [] ->
               result = inr m /\ cache' = cache /\ requests = 0%nat)
    /\ (model0 = None \/ model0 = Some [] ->
        (forall m, cache = Some m -> m <> [] ->
                   result = inr m /\ cache' = cache /\ requests = 0%nat)
        /\ (cache = None \/ cache = Some [] ->
            requests = 1%nat
            /\ match list_models py_str response with
               | inr (first :: _) => result = inr first /\ cache' = Some first
               | inr [] =>
                   result = inl (RuntimeError "No models available from /v1/models.")
                   /\ cache' = cache
               | inl e => result = inl e /\ cache' = cache
               end))
    /\ (forall m, (model0 = None \/ model0 = Some []) -> result = inr m -> m <> [] ->
          forall response',
            resolve_model py_str response' None cache' = (inr m, cache', 0%nat))).
  { intros model0 Hmodel.
    assert (Hempty : resolve_model py_str response model0 cache
                     = resolve_model py_str response None cache)
      by (destruct Hmodel as [-> | ->]; reflexivity).
    rewrite Hempty. clear Hempty.
    assert (Hno : forall m, model0 = Some m -> m <> [] -> False)
      by (intros m Hm Hne; destruct Hmodel as [-> | ->]; congruence).
    destruct cache as [[| c m'] |].
    - cbn [resolve_model].
      destruct (list_models py_str response) as [e | [| first rest]].
      + split; [intros m Hm Hne; destruct (Hno m Hm Hne) |].
        split; [intros _; split; [intros m [= <-] Hne; congruence | auto] |].
        intros m _ Hres. discriminate.
      + split; [intros m Hm Hne; destruct (Hno m Hm Hne) |].
        split; [intros _; split; [intros m [= <-] Hne; congruence | auto] |].
        intros m _ Hres. discriminate.
      + split; [intros m Hm Hne; destruct (Hno m Hm Hne) |].
        split; [intros _; split; [intros m [= <-] Hne; congruence | auto] |].
        intros m _ [= <-] Hne response'.
        first [reflexivity | apply Hcached, Hne
              | match goal with H : ?x <> [] |- _ => destruct x; [congruence | reflexivity] end].
    - cbn [resolve_model].
      split; [intros m Hm Hne; destruct (Hno m Hm Hne) |].
      split.
      + intros _. split; [intros m [= <-] _; auto |].
        intros [H | H]; discriminate.
      + intros m _ [= <-] Hne response'.
        first [reflexivity | apply Hcached, Hne
              | match goal with H : ?x <> [] |- _ => destruct x; [congruence | reflexivity] end].
    - cbn [resolve_model].
      destruct (list_models py_str response) as [e | [| first rest]].
      + split; [intros m Hm Hne; destruct (Hno m Hm Hne) |].
        split; [intros _; split; [intros m [=] | auto] |].
        intros m _ Hres. discriminate.
      + split; [intros m Hm Hne; destruct (Hno m Hm Hne) |].
        split; [intros _; split; [intros m [=] | auto] |].
        intros m _ Hres. discriminate.
      + split; [intros m Hm Hne; destruct (Hno m Hm Hne) |].
        split; [intros _; split; [intros m [=] | auto] |].
        intros m _ [= <-] Hne response'.
        first [reflexivity | apply Hcached, Hne
              | match goal with H : ?x <> [] |- _ => destruct x; [congruence | reflexivity] end]. }
  destruct model as [[| c m] |].
  - apply Hmain. right. reflexivity.
  - cbn [resolve_model].
    split; [intros m' [= <-] _; auto |].
    split; [intros [H | H]; discriminate |].
    intros m' [H | H]; discriminate.
  - apply Hmain. left. reflexivity.
Qed.

(** ** Settings of a request *)

(** X21. What [_resolve_best_of_n] returns is consistent: [n] is at
    least 1 and at most the server's maximum (or 1), it is 1 whenever
    best-of-n is not enabled, so that the number of candidates asked of
    the generator is [n] itself; nothing is enabled on a server that has
    best-of-n off; and on a server that has it on the language is "ja",
    "en" or "auto". The function raises, with status 400, exactly when
    the server has best-of-n off and the request turns it on. *)
Theorem resolve_best_of_n_consistent (request_best_of_n : option BestOfNConfig)
        (config : ServerConfig) :
  (forall r, _resolve_best_of_n request_best_of_n config = inr r ->
     1 <= resolved_n r <= Z.max 1 (best_of_n_max config)
     /\ (resolved_enabled r = false -> resolved_n r = 1)
     /\ (if resolved_enabled r then resolved_n r else 1) = resolved_n r
     /\ (best_of_n_enabled config = false -> resolved_enabled r = false)
     /\ (best_of_n_enabled config = true ->
         resolved_language r = lit "ja" \/ resolved_language r = lit "en"
         \/ resolved_language r = lit "auto"))
  /\ ((exists e, _resolve_best_of_n request_best_of_n config = inl e)
      <-> best_of_n_enabled config = false
          /\ exists r, request_best_of_n = Some r /\ req_enabled r = Some true)
  /\ (forall e, _resolve_best_of_n request_best_of_n config = inl e ->
        e = HTTPException 400 "best_of_n is disabled on the server").
Proof.
  unfold _resolve_best_of_n.
  destruct (best_of_n_enabled config) eqn:Eserver; cbn [negb].
  - set (req := match request_best_of_n with
                | Some r => r
                | None => {| req_enabled := None; req_n := None; req_language := None |}
                end).
    set (n0 := Z.max 1 (Z.min (match req_n req with
                               | Some n => n
                               | None => best_of_n_default config
                               end) (best_of_n_max config))).
    set (on := match req_enabled req with Some b => b | None => 1 <? n0 end).
    set (l0 := lower (match req_language req with
                      | Some (c :: l) => c :: l
                      | _ => best_of_n_language config
                      end)).
    assert (Hlang : forall l,
      (if bool_decide (l0 ∈ [lit "ja"; lit "en"; lit "auto"]) then l0 else lit "auto") = l ->
      l = lit "ja" \/ l = lit "en" \/ l = lit "auto").
    { intros l <-.
      destruct (bool_decide_reflect (l0 ∈ [lit "ja"; lit "en"; lit "auto"])) as [Hin | _];
        [| auto].
      rewrite !elem_of_cons, elem_of_nil in Hin.
      destruct Hin as [-> | [-> | [-> | []]]]; auto. }
    split; [| split].
    + intros r [= <-]. cbn [resolved_n resolved_enabled resolved_language].
      split; [destruct on; cbn [negb]; subst n0; lia |].
      split; [intros ->; reflexivity |].
      split; [destruct on; reflexivity |].
      split; [discriminate |].
      intros _. apply Hlang. reflexivity.
    + split; [intros [e He]; discriminate | intros [H _]; discriminate].
    + intros e He. discriminate.
  - destruct request_best_of_n as [[[[|] |] rn rl] |]; cbn [req_enabled].
    + split; [intros r Hr; discriminate |]. split.
      * split; [| intros _; eexists; reflexivity].
        intros _. split; [reflexivity |]. eexists. split; reflexivity.
      * intros e [= <-]. reflexivity.
    + split; [| split].
      * intros r [= <-]. cbn [resolved_n resolved_enabled resolved_language].
        conjuncts; try lia; try (intros; reflexivity); discriminate.
      * split; [intros [e He]; discriminate |].
        intros [_ (r & [= <-] & Hr)]. discriminate.
      * intros e He. discriminate.
    + split; [| split].
      * intros r [= <-]. cbn [resolved_n resolved_enabled resolved_language].
        conjuncts; try lia; try (intros; reflexivity); discriminate.
      * split; [intros [e He]; discriminate |].
        intros [_ (r & [= <-] & Hr)]. discriminate.
      * intros e He. discriminate.
    + split; [| split].
      * intros r [= <-]. cbn [resolved_n resolved_enabled resolved_language].
        conjuncts; try lia; try (intros; reflexivity); discriminate.
      * split; [intros [e He]; discriminate |].
        intros [_ (r & Hr & _)]. discriminate.
      * intros e He. discriminate.
Qed.

(** ** The reference audio of a request *)

Lemma concat_split_ws (s cur : str) :
  concat (split_ws cur s) = rev cur ++ List.filter (fun c => negb (isspace c)) s.
Proof.
  revert cur. induction s as [| c r IH]; intros cur.
  - cbn [split_ws List.filter]. rewrite app_nil_r.
    destruct cur; [reflexivity |]. cbn [concat]. apply app_nil_r.
  - cbn [split_ws List.filter]. destruct (isspace c); cbn [negb].
    + destruct cur as [| x cur'].
      * rewrite IH. reflexivity.
      * cbn [concat]. rewrite IH. reflexivity.
    + rewrite IH. cbn [rev]. rewrite <- app_assoc. reflexivity.
Qed.

(** X22. [_strip_base64_whitespace] removes exactly the white space:
    what it returns is the text without its white-space characters, the
    others in their order; it holds no white space, and a text without
    white space comes back as it is. *)
Theorem strip_base64_whitespace_filter (data : str) :
  _strip_base64_whitespace data = List.filter (fun c => negb (isspace c)) data
  /\ Forall (fun c => isspace c = false) (_strip_base64_whitespace data)
  /\ _strip_base64_whitespace (_strip_base64_whitespace data) = _strip_base64_whitespace data
  /\ (Forall (fun c => isspace c = false) data -> _strip_base64_whitespace data = data).
Proof.
  assert (E : forall s, _strip_base64_whitespace s
                        = List.filter (fun c => negb (isspace c)) s).
  { intros s. unfold _strip_base64_whitespace. rewrite concat_split_ws. reflexivity. }
  assert (Hclean : forall s, Forall (fun c => isspace c = false)
                                    (List.filter (fun c => negb (isspace c)) s)).
  { intros s. induction s as [| c s IH]; cbn [List.filter]; [constructor |].
    destruct (isspace c) eqn:Ec; cbn [negb]; [exact IH | constructor; assumption]. }
  assert (Hid : forall s, Forall (fun c => isspace c = false) s ->
                          List.filter (fun c => negb (isspace c)) s = s).
  { intros s. induction 1 as [| c s Hc _ IH]; cbn [List.filter]; [reflexivity |].
    rewrite Hc. cbn [negb]. rewrite IH. reflexivity. }
  split; [apply E |]. split; [rewrite E; apply Hclean |].
  split; [rewrite !E; apply Hid, Hclean |].
  intros Hdata. rewrite E. apply Hid, Hdata.
Qed.

Lemma length_drop_while {A : Type} (p : A -> bool) (l : list A) :
  (length (drop_while p l) <= length l)%nat.
Proof.
  induction l as [| a l IH]; simpl; [lia |].
  destruct (p a); simpl; lia.
Qed.

Lemma rstrip_char_keeps (c : char) (s : str) :
  (forall x, last s = Some x -> x <> c) -> rstrip_char c s = s.
Proof.
  intros Hlast. destruct s as [| y s'] using rev_ind; [reflexivity |].
  apply rstrip_char_snoc. apply Hlast. apply last_snoc.
Qed.

(** X23. The estimate of [_estimate_base64_decoded_size] is never
    negative and never more than three quarters of the length of the
    text; and on the Base64 text of [nbytes] bytes, which has
    [4 * ceil(nbytes / 3)] characters and ends with [(3 - nbytes mod 3)
    mod 3] padding characters, the estimate is [nbytes] itself. *)
Theorem estimate_base64_decoded_size_exact (body : str) (nbytes : Z) :
  1 <= nbytes ->
  (forall x, last body = Some x -> x <> chr_equals) ->
  let data := body ++ repeat chr_equals (Z.to_nat (base64_padding nbytes)) in
  len data = base64_length nbytes ->
  _estimate_base64_decoded_size data = nbytes
  /\ forall text, 0 <= _estimate_base64_decoded_size text <= len text * 3 / 4.
Proof.
  intros Hn Hbody data Hlen. split.
  - unfold _estimate_base64_decoded_size.
    assert (Hpos : 0 < len data).
    { rewrite Hlen. unfold base64_length. clear -Hn. Z.div_mod_to_equations. lia. }
    destruct data as [| d0 data'] eqn:Edata; [unfold len in Hpos; cbn in Hpos; lia |].
    rewrite <- Edata in *. clear Edata d0 data'.
    assert (Hstrip : rstrip_char chr_equals data = body).
    { subst data. rewrite rstrip_char_repeat. apply rstrip_char_keeps, Hbody. }
    rewrite Hstrip.
    assert (Hpad : len data - len body = base64_padding nbytes).
    { subst data. unfold len. rewrite length_app, repeat_length.
      unfold base64_padding. clear. Z.div_mod_to_equations. lia. }
    rewrite Hpad, Hlen. unfold base64_length, base64_padding.
    clear -Hn. Z.div_mod_to_equations. lia.
  - intros text. unfold _estimate_base64_decoded_size.
    destruct text as [| t0 text'] eqn:Etext; [change (len (@nil char) * 3 / 4) with 0; lia |].
    rewrite <- Etext. clear Etext t0 text'.
    assert (Hle : len (rstrip_char chr_equals text) <= len text).
    { unfold rstrip_char, len. rewrite length_rev.
      pose proof (length_drop_while (fun x => (x =? chr_equals)%N) (rev text)) as Hr.
      rewrite length_rev in Hr. lia. }
    unfold len in Hle |- *. clear -Hle. Z.div_mod_to_equations. lia.
Qed.

(** ** Words of the normalisation *)

Lemma word_runs_valid (s cur : str) :
  forallb is_word_char cur = true ->
  Forall (fun w => w <> [] /\ forallb is_word_char w = true) (word_runs cur s).
Proof.
  revert cur. induction s as [| c r IH]; intros cur Hcur; cbn [word_runs].
  - destruct cur as [| x cur']; [constructor |].
    constructor; [| constructor]. split.
    + intros E. apply (f_equal (@length char)) in E. rewrite length_rev in E. discriminate.
    + apply forallb_rev, Hcur.
  - destruct (is_word_char c) eqn:Ec.
    + apply IH. cbn [forallb]. rewrite Ec, Hcur. reflexivity.
    + destruct cur as [| x cur']; [apply IH; reflexivity |].
      constructor; [| apply IH; reflexivity]. split.
      * intros E. apply (f_equal (@length char)) in E. rewrite length_rev in E. discriminate.
      * apply forallb_rev, Hcur.
Qed.

Lemma word_runs_word (w s cur : str) :
  forallb is_word_char w = true -> word_runs cur (w ++ s) = word_runs (rev w ++ cur) s.
Proof.
  revert cur. induction w as [| c w IH]; intros cur Hw; [reflexivity |].
  cbn [forallb] in Hw. apply andb_true_iff in Hw as [Hc Hw].
  cbn [app word_runs]. rewrite Hc, IH by exact Hw.
  cbn [rev]. rewrite <- app_assoc. reflexivity.
Qed.

Lemma word_runs_join (ws : list str) :
  Forall (fun w => w <> [] /\ forallb is_word_char w = true) ws ->
  word_runs [] (join_spaces ws) = ws.
Proof.
  induction 1 as [| w ws [Hne Hw] Hws IH]; [reflexivity |].
  assert (Hrev : rev w <> []).
  { intros E. apply (f_equal (@length char)) in E. rewrite length_rev in E.
    destruct w; [congruence | discriminate]. }
  destruct ws as [| w2 ws'].
  - cbn [join_spaces]. rewrite <- (app_nil_r w) at 1.
    rewrite word_runs_word by exact Hw. rewrite app_nil_r. cbn [word_runs].
    destruct (rev w) eqn:E; [congruence |]. rewrite <- E, rev_involutive. reflexivity.
  - change (join_spaces (w :: w2 :: ws')) with (w ++ chr_space :: join_spaces (w2 :: ws')).
    rewrite word_runs_word by exact Hw. rewrite app_nil_r.
    cbn [word_runs]. change (is_word_char chr_space) with false. cbn iota.
    destruct (rev w) eqn:E; [congruence |]. rewrite <- E, rev_involutive, IH. reflexivity.
Qed.

Lemma join_spaces_chars (ws : list str) :
  Forall (fun w => w <> [] /\ forallb is_word_char w = true) ws ->
  Forall (fun c => is_word_char c = true \/ c = chr_space) (join_spaces ws).
Proof.
  induction 1 as [| w ws [_ Hw] Hws IH]; [constructor |].
  assert (Hchars : Forall (fun c => is_word_char c = true \/ c = chr_space) w).
  { clear -Hw. induction w as [| c w IHw]; [constructor |].
    cbn [forallb] in Hw. apply andb_true_iff in Hw as [Hc Hw].
    constructor; [left; exact Hc | apply IHw, Hw]. }
  destruct ws as [| w2 ws']; [exact Hchars |].
  change (join_spaces (w :: w2 :: ws')) with (w ++ chr_space :: join_spaces (w2 :: ws')).
  apply Forall_app. split; [exact Hchars |]. constructor; [right; reflexivity | exact IH].
Qed.

Lemma lower_lowercase (s : str) :
  Forall (fun c => is_word_char c = true \/ c = chr_space) s -> lower s = s.
Proof using lower_ascii.
  intros Hs. rewrite lower_ascii.
  - induction Hs as [| c s Hc _ IH]; [reflexivity |].
    cbn [map]. rewrite IH. f_equal. unfold ascii_lower.
    destruct Hc as [Hc | ->]; [| reflexivity].
    unfold is_word_char in Hc.
    rewrite !orb_true_iff, !andb_true_iff, !N.leb_le, N.eqb_eq in Hc.
    destruct (N.leb_spec 65 c); [| reflexivity].
    destruct (N.leb_spec c 90); [lia | reflexivity].
  - induction Hs as [| c s Hc _ IH]; [reflexivity |].
    cbn [forallb]. rewrite IH, andb_true_r. unfold is_ascii. apply N.ltb_lt.
    destruct Hc as [Hc | ->]; [| reflexivity].
    unfold is_word_char in Hc.
    rewrite !orb_true_iff, !andb_true_iff, !N.leb_le, N.eqb_eq in Hc. lia.
Qed.

(** X24. The words [_normalize_for_wer] returns are not empty and are
    made of the characters [a-z], [0-9] and the apostrophe only; and the
    normalisation is idempotent: the words joined by spaces normalise to
    the same words. *)
Theorem normalize_for_wer_idempotent (text : str) :
  let words := _normalize_for_wer text in
  Forall (fun w => w <> [] /\ forallb is_word_char w = true) words
  /\ _normalize_for_wer (join_spaces words) = words.
Proof using lower_ascii.
  cbv zeta.
  assert (Hvalid : Forall (fun w => w <> [] /\ forallb is_word_char w = true)
                          (_normalize_for_wer text)).
  { rewrite normalize_for_wer_words. apply word_runs_valid. reflexivity. }
  split; [exact Hvalid |].
  rewrite (normalize_for_wer_words (join_spaces _)).
  rewrite lower_lowercase by (apply join_spaces_chars, Hvalid).
  apply word_runs_join, Hvalid.
Qed.

(** ** White space at the ends of a string *)

Lemma drop_while_head {A : Type} (p : A -> bool) (l : list A) :
  match drop_while p l with
  | [] => True
  | x :: _ => p x = false
  end.
Proof.
  induction l as [| a l IH]; cbn [drop_while]; [exact I |].
  destruct (p a) eqn:E; [exact IH | exact E].
Qed.

Lemma drop_while_id {A : Type} (p : A -> bool) (l : list A) :
  match l with
  | [] => True
  | x :: _ => p x = false
  end ->
  drop_while p l = l.
Proof. destruct l as [| a l]; [reflexivity |]. cbn [drop_while]. intros ->. reflexivity. Qed.

Lemma drop_while_suffix {A : Type} (p : A -> bool) (l : list A) :
  exists pre, l = pre ++ drop_while p l.
Proof.
  induction l as [| a l [pre IH]]; [exists []; reflexivity |].
  cbn [drop_while]. destruct (p a).
  - exists (a :: pre). cbn [app]. f_equal. exact IH.
  - exists []. reflexivity.
Qed.

(** A string without white space at either end is left as it is. *)
Lemma strip_id (s : str) :
  match s with [] => True | x :: _ => isspace x = false end ->
  match rev s with [] => True | x :: _ => isspace x = false end ->
  strip s = s.
Proof.
  intros Hhead Hlast. unfold strip.
  rewrite (drop_while_id isspace s Hhead), (drop_while_id isspace (rev s) Hlast).
  apply rev_involutive.
Qed.

(** What [strip] returns has no white space at either end. *)
Lemma strip_ends (s : str) :
  match strip s with [] => True | x :: _ => isspace x = false end
  /\ match rev (strip s) with [] => True | x :: _ => isspace x = false end.
Proof.
  unfold strip.
  set (t := drop_while isspace s).
  set (u := drop_while isspace (rev t)).
  pose proof (drop_while_head isspace s) as Ht. fold t in Ht.
  pose proof (drop_while_head isspace (rev t)) as Hu. fold u in Hu.
  destruct (drop_while_suffix isspace (rev t)) as [pre Hpre]. fold u in Hpre.
  rewrite rev_involutive. split; [| exact Hu].
  assert (Et : t = rev u ++ rev pre).
  { rewrite <- (rev_involutive t), Hpre, rev_app_distr. reflexivity. }
  destruct (rev u) as [| x r]; [exact I |].
  rewrite Et in Ht. exact Ht.
Qed.

Lemma strip_idempotent (s : str) : strip (strip s) = strip s.
Proof. destruct (strip_ends s) as [Hhead Hlast]. apply strip_id; assumption. Qed.

Lemma Forall_drop_while {A : Type} (P : A -> Prop) (p : A -> bool) (l : list A) :
  Forall P l -> Forall P (drop_while p l).
Proof.
  induction 1 as [| a l Ha Hl IH]; cbn [drop_while]; [constructor |].
  destruct (p a); [exact IH | constructor; assumption].
Qed.

Lemma Forall_strip (P : char -> Prop) (s : str) : Forall P s -> Forall P (strip s).
Proof.
  intros Hs. unfold strip.
  apply Forall_rev, Forall_drop_while, Forall_rev, Forall_drop_while, Hs.
Qed.

(** ** The recognition service *)

Lemma collect_length {E A B : Type} (f : A -> E + B) (l : list A) (xs : list B) :
  collect (map f l) = inr xs -> length xs = length l.
Proof.
  revert xs. induction l as [| a l IH]; intros xs; cbn [map collect].
  - intros [= <-]. reflexivity.
  - destruct (f a) as [e | x]; [discriminate |].
    destruct (collect (map f l)) as [e | xs']; [discriminate |].
    intros [= <-]. cbn [length]. rewrite (IH xs' eq_refl). reflexivity.
Qed.

Section RecognitionProperties.

Variable _prepare_audio : list Q -> Z -> exn + list Q.
Variable py_str : json -> str.

Lemma extract_text_outputs (texts : list str) :
  collect (map (_extract_text py_str) (map text_output texts)) = inr (map strip texts).
Proof.
  induction texts as [| t texts IH]; [reflexivity |].
  cbn [map collect]. rewrite IH. reflexivity.
Qed.

(** X25. [transcribe_batch] keeps to the contract that
    [score_candidates] relies on. An empty batch gives the empty list
    without the pipeline, loaded or not. The pipeline is only ever
    called with as many waveforms as the batch holds and with a batch
    size between 1 and that number. And when the pipeline answers with
    one [{"text": ...}] output per waveform, the service returns one
    text per waveform, each stripped of surrounding white space. *)
Theorem transcribe_batch_contract (config : ASRConfig) (audio_list : list (list Q))
        (sample_rate : Z) (requested : option string) :
  (forall pipeline,
      transcribe_batch _prepare_audio py_str config pipeline [] sample_rate requested = inr [])
  /\ (forall pipeline,
        transcribe_batch _prepare_audio py_str config (Some pipeline)
                         audio_list sample_rate requested
        = transcribe_batch _prepare_audio py_str config
                           (Some (guarded (length audio_list) pipeline))
                           audio_list sample_rate requested)
  /\ (forall pipeline result,
        (forall audio_np_list size kwargs outputs,
            pipeline audio_np_list size kwargs = inr outputs ->
            exists texts, outputs = JList (map text_output texts)
                          /\ length texts = length audio_np_list) ->
        transcribe_batch _prepare_audio py_str config (Some pipeline)
                         audio_list sample_rate requested = inr result ->
        length result = length audio_list
        /\ Forall (fun text => strip text = text) result).
Proof.
  split; [reflexivity |]. split.
  - intros pipeline. unfold transcribe_batch.
    destruct (Z.eqb_spec (len audio_list) 0) as [E | Hne]; [reflexivity |].
    destruct (collect (map (fun audio => _prepare_audio audio sample_rate) audio_list))
      as [e | audio_np_list] eqn:Eprep; [reflexivity |].
    apply collect_length in Eprep.
    unfold guarded. rewrite Eprep, Nat.eqb_refl. cbn [andb].
    assert (Hsize : (1 <=? (if batch_size config <=? 0 then len audio_list
                            else Z.min (batch_size config) (len audio_list))) = true
                    /\ ((if batch_size config <=? 0 then len audio_list
                         else Z.min (batch_size config) (len audio_list))
                        <=? Z.of_nat (length audio_list)) = true).
    { unfold len in *. destruct (Z.leb_spec (batch_size config) 0);
        split; apply Z.leb_le; lia. }
    destruct Hsize as [-> ->]. reflexivity.
  - intros pipeline result Hpipe. unfold transcribe_batch.
    destruct (Z.eqb_spec (len audio_list) 0) as [E | Hne].
    { intros [= <-]. destruct audio_list; [split; [reflexivity | constructor] |].
      unfold len in E. cbn [length] in E. lia. }
    destruct (collect (map (fun audio => _prepare_audio audio sample_rate) audio_list))
      as [e | audio_np_list] eqn:Eprep; [discriminate |].
    apply collect_length in Eprep.
    match goal with
    | |- context [pipeline ?a ?b ?k] => destruct (pipeline a b k) as [e | outputs] eqn:Eout
    end; [discriminate |].
    destruct (Hpipe _ _ _ _ Eout) as (texts & -> & Hlen).
    rewrite extract_text_outputs. intros [= <-].
    rewrite length_map. split; [congruence |].
    clear. induction texts as [| t texts IH]; cbn [map]; constructor; [| exact IH].
    apply strip_idempotent.
Qed.

End RecognitionProperties.

(** ** The speech-to-text server *)

Lemma filter_clean (s : str) :
  Forall (fun c => is_emoji c = false) (List.filter (fun c => negb (is_emoji c)) s).
Proof.
  induction s as [| c s IH]; cbn [List.filter]; [constructor |].
  destruct (is_emoji c) eqn:Ec; cbn [negb]; [exact IH | constructor; assumption].
Qed.

Lemma filter_clean_id (s : str) :
  Forall (fun c => is_emoji c = false) s -> List.filter (fun c => negb (is_emoji c)) s = s.
Proof.
  induction 1 as [| c s Hc _ IH]; cbn [List.filter]; [reflexivity |].
  rewrite Hc. cbn [negb]. rewrite IH. reflexivity.
Qed.

Lemma strip_emoji_clean (text : str) :
  Forall (fun c => is_emoji c = false) (strip_emoji text).
Proof. apply Forall_strip, filter_clean. Qed.

Lemma drop_while_prefix {A : Type} (p : A -> bool) (l : list A) :
  exists pre, l = pre ++ drop_while p l /\ Forall (fun x => p x = true) pre.
Proof.
  induction l as [| a l (pre & IH & Hpre)]; [exists []; split; [reflexivity | constructor] |].
  cbn [drop_while]. destruct (p a) eqn:Ea.
  - exists (a :: pre). split; [cbn [app]; f_equal; exact IH | constructor; assumption].
  - exists []. split; [reflexivity | constructor].
Qed.

(** [strip] takes white space away at the two ends, and only there. *)
Lemma strip_split (s : str) :
  exists before after,
    s = before ++ strip s ++ after
    /\ Forall (fun c => isspace c = true) before
    /\ Forall (fun c => isspace c = true) after.
Proof.
  unfold strip.
  destruct (drop_while_prefix isspace s) as (before & Hs & Hbefore).
  destruct (drop_while_prefix isspace (rev (drop_while isspace s))) as (pre & Hr & Hpre).
  exists before, (rev pre). split; [| split; [exact Hbefore | apply Forall_rev, Hpre]].
  rewrite <- rev_app_distr, <- Hr, rev_involutive. exact Hs.
Qed.

Lemma filter_spaces (p : char -> bool) (s : str) :
  Forall (fun c => isspace c = true) s ->
  List.filter (fun c => p c && negb (isspace c)) s = [].
Proof.
  induction 1 as [| c s Hc _ IH]; [reflexivity |].
  cbn [List.filter]. rewrite Hc, andb_false_r. exact IH.
Qed.

(** X26. [strip_emoji] returns the text without the characters of the
    emoji class and without the white space at the two ends of what is
    left: what is left is the result between two runs of white space, and
    the result neither starts nor ends with white space. So the
    characters that are neither in the class nor white space all stay, in
    their order. No character the prompt allows is in the class: not a
    kana or a kanji, not an ASCII character, not one of the four
    punctuation marks. What is returned holds no character of the class,
    stripping it again changes nothing, and on a text without a character
    of the class the function is [strip]. *)
Theorem strip_emoji_keeps_text (text : str) :
  (exists before after,
      List.filter (fun c => negb (is_emoji c)) text = before ++ strip_emoji text ++ after
      /\ Forall (fun c => isspace c = true) before
      /\ Forall (fun c => isspace c = true) after)
  /\ (forall c, head (strip_emoji text) = Some c \/ last (strip_emoji text) = Some c ->
                isspace c = false)
  /\ List.filter (fun c => negb (is_emoji c) && negb (isspace c)) (strip_emoji text)
     = List.filter (fun c => negb (is_emoji c) && negb (isspace c)) text
  /\ (forall c, _is_japanese_char c = true \/ is_ascii c = true
                \/ c = 0x3001%N \/ c = 0x3002%N \/ c = 0xFF01%N \/ c = 0xFF1F%N ->
                is_emoji c = false)
  /\ Forall (fun c => is_emoji c = false) (strip_emoji text)
  /\ strip_emoji (strip_emoji text) = strip_emoji text
  /\ (Forall (fun c => is_emoji c = false) text -> strip_emoji text = strip text).
Proof.
  assert (Hsplit : exists before after,
      List.filter (fun c => negb (is_emoji c)) text = before ++ strip_emoji text ++ after
      /\ Forall (fun c => isspace c = true) before
      /\ Forall (fun c => isspace c = true) after) by apply strip_split.
  split; [exact Hsplit |].
  split; [| split; [| split; [| split; [apply strip_emoji_clean | split]]]].
  - intros c Hc. unfold strip_emoji in Hc.
    destruct (strip_ends (List.filter (fun c => negb (is_emoji c)) text)) as [Hhead Hlast].
    destruct Hc as [Hc | Hc].
    + destruct (strip _) as [| x r]; [discriminate |]. injection Hc as <-. exact Hhead.
    + apply last_Some in Hc as [r Hr]. rewrite Hr, rev_app_distr in Hlast. exact Hlast.
  - destruct Hsplit as (before & after & Hfilter & Hb & Ha).
    assert (E : List.filter (fun c => negb (is_emoji c) && negb (isspace c)) text
                = List.filter (fun c => negb (is_emoji c) && negb (isspace c))
                              (List.filter (fun c => negb (is_emoji c)) text)).
    { clear. induction text as [| c s IH]; [reflexivity |].
      cbn [List.filter]. destruct (is_emoji c) eqn:Ec; cbn [negb andb]; [exact IH |].
      cbn [List.filter]. rewrite Ec. cbn [negb andb]. rewrite IH. reflexivity. }
    rewrite E, Hfilter, !List.filter_app.
    rewrite (filter_spaces _ before Hb), (filter_spaces _ after Ha), app_nil_r.
    reflexivity.
  - intros c Hc. apply not_true_is_false. intros He.
    unfold is_emoji in He.
    rewrite !orb_true_iff, !andb_true_iff, !N.leb_le, !N.eqb_eq in He.
    unfold _is_japanese_char, is_ascii in Hc.
    rewrite !orb_true_iff, !andb_true_iff, !N.leb_le, N.ltb_lt in Hc.
    lia.
  - unfold strip_emoji at 1.
    rewrite (filter_clean_id _ (strip_emoji_clean text)).
    unfold strip_emoji. apply strip_idempotent.
  - intros Hclean. unfold strip_emoji. rewrite (filter_clean_id _ Hclean). reflexivity.
Qed.

Lemma reply_of_spec (text : option str) :
  reply_of text <> [] /\ len (reply_of text) <= 30
  /\ Forall (fun c => is_emoji c = false) (reply_of text).
Proof.
  assert (Hfallback : fallback_reply <> [] /\ len fallback_reply <= 30
                      /\ Forall (fun c => is_emoji c = false) fallback_reply).
  { unfold fallback_reply. split; [discriminate |].
    split; [unfold len; cbn [length]; lia |].
    repeat (constructor; [reflexivity |]). constructor. }
  unfold reply_of.
  match goal with
  | |- context [strip_emoji ?x] =>
      generalize (strip_emoji_clean x); generalize (strip_emoji x)
  end.
  intros r0 Hclean.
  destruct (Z.ltb_spec 30 (len r0)) as [Hlong | Hshort].
  - pose proof (Forall_take _ 30%nat _ Hclean) as Htake.
    assert (Hlen : len (take 30 r0) <= 30) by (unfold len; rewrite length_take; lia).
    destruct (take 30 r0) as [| c r1]; [exact Hfallback |].
    split; [discriminate |]. split; assumption.
  - destruct r0 as [| c r1]; [exact Hfallback |].
    split; [discriminate |]. split; assumption.
Qed.

Lemma length_deque_append {A : Type} (maxlen : nat) (d : list A) (x : A) :
  (1 <= maxlen)%nat ->
  (length (deque_append maxlen d x) <= maxlen)%nat
  /\ last (deque_append maxlen d x) = Some x.
Proof.
  intros Hmax. unfold deque_append. rewrite length_drop, length_app. cbn [length].
  split; [lia |].
  assert (Hk : (length d + 1 - maxlen <= length d)%nat) by lia.
  rewrite drop_app_le by exact Hk. apply last_snoc.
Qed.

(** X27. [ask_gemini] keeps its promises about the reply. A history of
    at most [MAX_HISTORY] entries stays so. When the model answers and
    nothing fails, the reply returned is not empty, has at most 30
    characters and no character of the emoji class, and it is the last
    entry of the history. Without a client, or when the request fails,
    the user's own text comes back, whatever its length, and the history
    is left alone; when a failure comes after the reply was recorded,
    the user's text comes back although the history holds the reply. *)
Theorem ask_gemini_reply (client : bool) (outcome : GenerateOutcome) (user_text : str)
        (history : list (str * str)) :
  let answer := fst (ask_gemini client outcome user_text history) in
  let history' := snd (ask_gemini client outcome user_text history) in
  ((length history <= MAX_HISTORY)%nat -> (length history' <= MAX_HISTORY)%nat)
  /\ (forall text, client = true -> outcome = Generated text false ->
        answer <> [] /\ len answer <= 30
        /\ Forall (fun c => is_emoji c = false) answer
        /\ last history' = Some (user_text, answer))
  /\ (client = false \/ outcome = GenerateRaises ->
      answer = user_text /\ history' = history)
  /\ (forall text, client = true -> outcome = Generated text true ->
        answer = user_text /\ last history' = Some (user_text, reply_of text)).
Proof.
  cbv zeta. unfold ask_gemini. split; [| split; [| split]].
  - intros Hlen. destruct client; cbn [negb]; [| exact Hlen].
    destruct outcome as [| text then_raises]; [exact Hlen |].
    destruct then_raises; cbn [snd];
      apply (length_deque_append MAX_HISTORY); unfold MAX_HISTORY; lia.
  - intros text -> ->. cbn [negb fst snd].
    destruct (reply_of_spec text) as (Hne & Hlen & Hclean).
    split; [exact Hne |]. split; [exact Hlen |]. split; [exact Hclean |].
    apply (length_deque_append MAX_HISTORY). unfold MAX_HISTORY. lia.
  - intros [-> | ->]; [split; reflexivity |].
    destruct client; split; reflexivity.
  - intros text -> ->. cbn [negb fst snd]. split; [reflexivity |].
    apply (length_deque_append MAX_HISTORY). unfold MAX_HISTORY. lia.
Qed.

(** ** Upload of a reference file *)

Lemma read_chunks_spec {byte : Type} (max_reference_mb : Q) (reads : list (list byte)) :
  forall (total : Z) (chunks : list (list byte)),
    total = len (concat chunks) ->
    (inject_Z total <= max_reference_mb * 1024 * 1024)%Q ->
    let content := concat chunks ++ concat (file_chunks reads) in
    ((inject_Z (len content) <= max_reference_mb * 1024 * 1024)%Q ->
     read_chunks max_reference_mb reads total chunks = inr content)
    /\ ((max_reference_mb * 1024 * 1024 < inject_Z (len content))%Q ->
        read_chunks max_reference_mb reads total chunks
        = inl (ReferenceTooLarge max_reference_mb)).
Proof.
  induction reads as [| chunk rest IH]; intros total chunks Htotal Hfits; cbv zeta.
  - cbn [file_chunks concat read_chunks]. rewrite app_nil_r. split; [reflexivity |].
    intros Hlarge. rewrite <- Htotal in Hlarge. lra.
  - destruct chunk as [| b chunk'].
    + cbn [file_chunks concat read_chunks]. rewrite app_nil_r. split; [reflexivity |].
      intros Hlarge. rewrite <- Htotal in Hlarge. lra.
    + set (chunk := b :: chunk') in *.
      change (file_chunks (chunk :: rest)) with (chunk :: file_chunks rest).
      change (read_chunks max_reference_mb (chunk :: rest) total chunks)
        with (if Qltb (max_reference_mb * 1024 * 1024) (inject_Z (total + len chunk))
              then inl (ReferenceTooLarge max_reference_mb)
              else read_chunks max_reference_mb rest (total + len chunk) (chunks ++ [chunk])).
      assert (Hsum : total + len chunk = len (concat (chunks ++ [chunk]))).
      { rewrite concat_app. cbn [concat]. rewrite app_nil_r.
        unfold len in *. rewrite length_app. lia. }
      assert (Hcontent : concat chunks ++ concat (chunk :: file_chunks rest)
                         = concat (chunks ++ [chunk]) ++ concat (file_chunks rest)).
      { rewrite concat_app. cbn [concat]. rewrite app_nil_r, <- app_assoc. reflexivity. }
      rewrite Hcontent.
      assert (Hmono : (inject_Z (total + len chunk)
                       <= inject_Z (len (concat (chunks ++ [chunk])
                                         ++ concat (file_chunks rest))))%Q).
      { rewrite <- Zle_Qle, Hsum. unfold len. rewrite length_app. lia. }
      destruct (Qltb (max_reference_mb * 1024 * 1024) (inject_Z (total + len chunk)))
        eqn:Eover.
      * apply Qltb_lt in Eover. split; [intros Hle; lra | reflexivity].
      * apply Qltb_ge in Eover. apply (IH _ _ Hsum Eover).
Qed.

(** What follows the last dot of a name. *)
Lemma after_last_dot_app (stem e : str) :
  chr_dot ∉ e -> after_last_dot (stem ++ chr_dot :: e) = e.
Proof.
  intros He. unfold after_last_dot.
  rewrite rev_app_distr. cbn [rev]. rewrite <- app_assoc. cbn [app].
  assert (H : forall (r rest : str),
             chr_dot ∉ r ->
             (fix until_dot (s : str) : str :=
                match s with
                | [] => []
                | c :: r => if (c =? chr_dot)%N then [] else c :: until_dot r
                end) (r ++ chr_dot :: rest) = r).
  { induction r as [| c r IH]; intros rest Hr.
    - cbn [app]. rewrite N.eqb_refl. reflexivity.
    - cbn [app]. apply not_elem_of_cons in Hr as [Hc Hr].
      destruct (N.eqb_spec c chr_dot) as [-> | _]; [congruence |].
      rewrite IH by exact Hr. reflexivity. }
  rewrite H; [apply rev_involutive |].
  intros Hin. apply He. apply list_elem_of_In, in_rev, list_elem_of_In. exact Hin.
Qed.

Lemma has_dot_app (stem e : str) :
  existsb (fun x => (x =? chr_dot)%N) (stem ++ chr_dot :: e) = true.
Proof.
  rewrite existsb_app. cbn [existsb]. rewrite N.eqb_refl, orb_true_r. reflexivity.
Qed.

Lemma has_dot_none (name : str) :
  chr_dot ∉ name -> existsb (fun x => (x =? chr_dot)%N) name = false.
Proof.
  induction name as [| c name IH]; [reflexivity |].
  intros Hn. apply not_elem_of_cons in Hn as [Hc Hn]. cbn [existsb].
  destruct (N.eqb_spec c chr_dot) as [-> | _]; [congruence |]. apply IH, Hn.
Qed.

(** The extension check: the file is refused with the extension of its
    name when that is not allowed, and read otherwise. *)
Lemma read_reference_file_check {byte : Type} (max_reference_mb : Q)
      (allowed_extensions : list str) (name : str) (reads : list (list byte)) :
  name <> [] ->
  let ext := if existsb (fun x => (x =? chr_dot)%N) name
             then lower (chr_dot :: after_last_dot name) else [] in
  _read_reference_file max_reference_mb allowed_extensions (Some name) reads
  = if bool_decide (ext ∈ allowed_extensions) then read_chunks max_reference_mb reads 0 []
    else inl (UnsupportedExtension ext).
Proof.
  intros Hne. destruct name as [| c name]; [congruence |].
  cbv zeta. unfold _read_reference_file.
  destruct (bool_decide _); reflexivity.
Qed.

Lemma read_chunks_no_extension_error {byte : Type} (max_reference_mb : Q)
      (reads : list (list byte)) (ext : str) :
  forall total chunks,
    read_chunks max_reference_mb reads total chunks <> inl (UnsupportedExtension ext).
Proof.
  induction reads as [| chunk rest IH]; intros total chunks; [discriminate |].
  destruct chunk as [| b chunk']; [discriminate |].
  cbn [read_chunks].
  destruct (Qltb _ _); [discriminate | apply IH].
Qed.

(** X28. [_read_reference_file] checks the extension of the file name,
    then the size of the file. A name that ends in a dot and an extension
    is refused with that extension in lower case when it is not one of
    the allowed ones, and a name without a dot with the empty extension,
    whatever the file holds; a file without a name, or with an allowed
    extension, is not refused for its extension. Once the extension is
    accepted, the content of the file is returned, the chunks read up to
    the end joined in order, exactly when that content has at most
    [max_reference_mb * 1024 * 1024] bytes, and the error about the size
    is raised otherwise. *)
Theorem read_reference_file_limit {byte : Type} (max_reference_mb : Q)
        (allowed_extensions : list str) (filename : option str)
        (reads : list (list byte)) :
  (0 <= max_reference_mb)%Q ->
  let content := concat (file_chunks reads) in
  let result := _read_reference_file max_reference_mb allowed_extensions filename reads in
  (forall stem e,
      filename = Some (stem ++ chr_dot :: e) -> chr_dot ∉ e ->
      (lower (chr_dot :: e) ∉ allowed_extensions ->
       result = inl (UnsupportedExtension (lower (chr_dot :: e))))
      /\ (lower (chr_dot :: e) ∈ allowed_extensions ->
          forall ext, result <> inl (UnsupportedExtension ext)))
  /\ (forall name,
        filename = Some name -> name <> [] -> chr_dot ∉ name ->
        ([] ∉ allowed_extensions -> result = inl (UnsupportedExtension []))
        /\ ([] ∈ allowed_extensions -> forall ext, result <> inl (UnsupportedExtension ext)))
  /\ (filename = None \/ filename = Some [] ->
      forall ext, result <> inl (UnsupportedExtension ext))
  /\ (forall ext, result = inl (UnsupportedExtension ext) ->
        (ext ∉ allowed_extensions)
        /\ forall reads' : list (list byte),
             _read_reference_file max_reference_mb allowed_extensions filename reads'
             = inl (UnsupportedExtension ext))
  /\ (forall data, result = inr data ->
        data = content /\ (inject_Z (len data) <= max_reference_mb * 1024 * 1024)%Q)
  /\ ((forall ext, result <> inl (UnsupportedExtension ext)) ->
      (inject_Z (len content) <= max_reference_mb * 1024 * 1024)%Q ->
      result = inr content)
  /\ ((forall ext, result <> inl (UnsupportedExtension ext)) ->
      (max_reference_mb * 1024 * 1024 < inject_Z (len content))%Q ->
      result = inl (ReferenceTooLarge max_reference_mb)).
Proof.
  intros Hmb content result.
  assert (Hzero : (inject_Z 0 <= max_reference_mb * 1024 * 1024)%Q).
  { change (inject_Z 0) with 0%Q. nra. }
  pose proof (read_chunks_spec max_reference_mb reads 0 [] eq_refl Hzero) as [Hok Hlarge].
  cbn [concat app] in Hok, Hlarge. fold content in Hok, Hlarge.
  assert (Hcases :
    (result = read_chunks max_reference_mb reads 0 []
     /\ forall ext, result <> inl (UnsupportedExtension ext))
    \/ (exists ext, (ext ∉ allowed_extensions)
                    /\ forall reads' : list (list byte),
                         _read_reference_file max_reference_mb allowed_extensions
                                              filename reads'
                         = inl (UnsupportedExtension ext))).
  { subst result. destruct filename as [[| c name] |].
    - left. split; [reflexivity |]. intros ext. apply read_chunks_no_extension_error.
    - match goal with
      | |- context [_read_reference_file _ _ (Some ?n) _] => set (nm := n)
      end.
      assert (Hnm : nm <> []) by discriminate.
      pose proof (fun reads' : list (list byte) =>
                    read_reference_file_check max_reference_mb allowed_extensions
                                              nm reads' Hnm) as Hcheck.
      cbv zeta in Hcheck.
      destruct (bool_decide_reflect
                  ((if existsb (fun x => (x =? chr_dot)%N) nm
                    then lower (chr_dot :: after_last_dot nm) else [])
                   ∈ allowed_extensions)) as [Hin | Hout].
      + left. rewrite Hcheck. split; [reflexivity |].
        intros ext. apply read_chunks_no_extension_error.
      + right. eexists. split; [exact Hout |]. intros reads'. apply Hcheck.
    - left. split; [reflexivity |]. intros ext. apply read_chunks_no_extension_error. }
  split; [| split; [| split; [| split; [| split; [| split]]]]].
  - intros stem e -> He.
    assert (Hne : stem ++ chr_dot :: e <> []) by (destruct stem; discriminate).
    subst result.
    rewrite (read_reference_file_check _ _ _ _ Hne). cbv zeta.
    rewrite has_dot_app, after_last_dot_app by exact He.
    split.
    + intros Hout. rewrite bool_decide_eq_false_2 by exact Hout. reflexivity.
    + intros Hin ext. rewrite bool_decide_eq_true_2 by exact Hin.
      apply read_chunks_no_extension_error.
  - intros name -> Hne Hdot. subst result.
    rewrite (read_reference_file_check _ _ _ _ Hne). cbv zeta.
    rewrite has_dot_none by exact Hdot.
    split.
    + intros Hout. rewrite bool_decide_eq_false_2 by exact Hout. reflexivity.
    + intros Hin ext. rewrite bool_decide_eq_true_2 by exact Hin.
      apply read_chunks_no_extension_error.
  - intros [-> | ->] ext; subst result; apply read_chunks_no_extension_error.
  - intros ext Hres. destruct Hcases as [[_ Hno] | (ext' & Hout & Hall)].
    + destruct (Hno ext Hres).
    + subst result. rewrite Hall in Hres. injection Hres as <-. split; assumption.
  - intros data Hres. destruct Hcases as [[Hread _] | (ext' & _ & Hall)].
    + rewrite Hread in Hres.
      destruct (Qlt_le_dec (max_reference_mb * 1024 * 1024) (inject_Z (len content)))
        as [Hl | Hl].
      * rewrite (Hlarge Hl) in Hres. discriminate.
      * rewrite (Hok Hl) in Hres. injection Hres as <-. split; [reflexivity | exact Hl].
    + subst result. rewrite Hall in Hres. discriminate.
  - intros Hno Hfits. destruct Hcases as [[Hread _] | (ext' & _ & Hall)].
    + rewrite Hread. apply Hok, Hfits.
    + destruct (Hno ext'). apply Hall.
  - intros Hno Hbig. destruct Hcases as [[Hread _] | (ext' & _ & Hall)].
    + rewrite Hread. apply Hlarge, Hbig.
    + destruct (Hno ext'). apply Hall.
Qed.
End BestOfN.

(** * Instances of the theorems on sample inputs *)

Lemma raises_unless_success_error (s : Z) :
  400 <= s <= 599 -> raises_unless_success s = true.
Proof.
  intros Hs. unfold raises_unless_success.
  destruct (Z.ltb_spec s 300) as [Hlt | _]; [lia |].
  rewrite andb_false_r. reflexivity.
Qed.

Lemma parse_render_roundtrip_witness :
  exists text,
    tokens_to_str 4300 [12; 0; 305] = inr text
    /\ parse_speech_tokens ascii_digit_val 4300 text = inr [12; 0; 305].
Proof.
  apply (proj1 (parse_render_roundtrip ascii_digit_val (fun c _ => eq_refl) 4300 [12; 0; 305]
                  ltac:(repeat constructor; lia))).
  - discriminate.
  - repeat constructor.
Defined.

(** The round trip fails on the empty sequence: its rendering holds no
    marker, and the parser raises instead of returning the empty
    sequence. It fails too on a token of 4301 digits, which an
    interpreter with the limit of 4300 digits refuses to render. *)
Lemma roundtrip_counterexamples :
  parse_rendered ascii_digit_val 4300 []
  = inl (ValueError "No speech tokens found in LLM output.")
  /\ parse_rendered ascii_digit_val 4300 [10 ^ 4300]
     = inl (ValueError "Exceeds the limit (4300 digits) for integer string conversion; use sys.set_int_max_str_digits() to increase the limit").
Proof. split; [reflexivity | vm_compute; reflexivity]. Qed.

Lemma repeat_penalty_is_max_ngram_ratio_witness :
  NoDup [1; 2; 3; 4] /\ (4 <= length [1; 2; 3; 4])%nat /\ (_repeat_penalty [1; 2; 3; 4]%Z == 0)%Q.
Proof.
  assert (Hnd : NoDup [1; 2; 3; 4]) by (apply (bool_decide_unpack _); vm_compute; exact I).
  assert (Hlen : (4 <= length [1; 2; 3; 4])%nat) by (cbn; lia).
  split; [exact Hnd |]. split; [exact Hlen |].
  destruct (repeat_penalty_is_max_ngram_ratio [1; 2; 3; 4]) as (_ & _ & H & _).
  exact (H Hnd Hlen).
Defined.

Lemma repeat_penalty_in_unit_interval_witness :
  (length [7] < 2)%nat /\ (_repeat_penalty [7]%Z == 0)%Q.
Proof.
  assert (Hlen : (length [7] < 2)%nat) by (cbn; lia).
  split; [exact Hlen |].
  destruct (repeat_penalty_in_unit_interval [7]) as (_ & _ & H).
  exact (H Hlen).
Defined.

Lemma silence_penalty_two_terms_witness :
  exists pa pb,
    _silence_penalty (repeat 0%Q 25) 10 = inr pa
    /\ _silence_penalty (repeat 1%Q 25) 10 = inr pb
    /\ (pb < pa)%Q.
Proof.
  destruct silence_penalty_two_terms as (_ & _ & _ & _ & H).
  eapply (H (repeat 0%Q 25) (repeat 1%Q 25) 10).
  - lia.
  - repeat constructor.
  - vm_compute. reflexivity.
  - vm_compute. reflexivity.
  - vm_compute. reflexivity.
Defined.

Lemma length_penalty_piecewise_witness :
  [1; 2; 3] <> []
  /\ (_length_penalty failing_g2p_en failing_g2p_ja (lit "hello world") [1; 2; 3]%Z "en"
      == 9 # 11)%Q.
Proof.
  assert (Hne : [1; 2; 3] <> @nil Z) by discriminate.
  split; [exact Hne |].
  destruct (length_penalty_piecewise failing_g2p_en failing_g2p_ja (lit "hello world")
              [1; 2; 3] "en" Hne) as (_ & _ & _ & H & _).
  rewrite H by (vm_compute; reflexivity).
  vm_compute. reflexivity.
Defined.

Lemma asr_error_normalized_edit_distance_witness :
  (_asr_error ascii_lower_str ascii_isalnum
              (_normalize_reference ascii_lower_str ascii_isalnum (lit "the cat sat") "en")
              (lit "the dog sat") "en"
   == 1 # 3)%Q.
Proof.
  destruct (asr_error_normalized_edit_distance ascii_lower_str ascii_isalnum
              (fun s _ => eq_refl)) as (_ & _ & _ & H & _).
  exact H.
Defined.

Lemma selector_returns_first_minimum_witness :
  exists pool best_idx asr_sec,
    score_candidates failing_g2p_en failing_g2p_ja ascii_lower_str ascii_isalnum
                     ticking_clock (lit "the cat sat") sample_pool 100 "en"
                     (Some constant_asr)
    = (pool, inr (best_idx, asr_sec))
    /\ length pool = length sample_pool.
Proof.
  eexists _, _, _.
  assert (Hrun : score_candidates failing_g2p_en failing_g2p_ja ascii_lower_str ascii_isalnum
                                  ticking_clock (lit "the cat sat") sample_pool 100 "en"
                                  (Some constant_asr)
                 = (_, inr (_, _))) by (vm_compute; reflexivity).
  split; [exact Hrun |].
  destruct (selector_returns_first_minimum failing_g2p_en failing_g2p_ja ascii_lower_str
              ascii_isalnum ticking_clock) as (H & _).
  exact (proj1 (H _ _ _ _ _ _ _ _ Hrun)).
Defined.

Lemma constant_asr_contract : one_text_per_waveform constant_asr.
Proof.
  intros audio_list sample_rate lang texts H. injection H as <-. apply length_map.
Qed.




Lemma post_with_retry_policy_witness :
  fst (_post_with_retry raises_unless_success 3 0.5 unavailable_server)
  = attempts_trace 0.5 0 2
  /\ snd (_post_with_retry raises_unless_success 3 0.5 unavailable_server)
     = inl (HTTPStatusError 503).
Proof.
  destruct (post_with_retry_policy raises_unless_success raises_unless_success_error
              3 0.5 unavailable_server) as (_ & H & _).
  apply (H 2%nat).
  - lia.
  - intros i _. reflexivity.
  - right. reflexivity.
Defined.

Lemma fetch_candidates_tolerates_failures_witness :
  snd (_fetch_llm_candidates raises_unless_success 3 0.5 sample_backend 3)
  = inr [lit "<|s_1|>"; lit "<|s_1|>"].
Proof.
  destruct (fetch_candidates_tolerates_failures raises_unless_success
              raises_unless_success_error 3 0.5 sample_backend 3) as (_ & _ & H).
  apply (H (lit "<|s_1|>") (lit "<|s_1|>") (inl "bad request"%string));
    solve [lia | reflexivity].
Defined.


Lemma parse_skips_free_text_witness :
  Forall free_text [Junk (lit "Sure: "); Marker 12; Junk (lit " and "); Marker 7]
  /\ parse_speech_tokens ascii_digit_val 4300 (lit "Sure: <|s_12|> and <|s_7|>") = inr [12; 7].
Proof.
  assert (H : Forall free_text [Junk (lit "Sure: "); Marker 12; Junk (lit " and "); Marker 7]).
  { repeat constructor; discriminate. }
  split; [exact H |].
  apply (proj1 (parse_skips_free_text ascii_digit_val (fun c _ => eq_refl) 4300 _ H)).
  repeat constructor.
Defined.

Lemma parse_tokens_nonempty_nonneg_witness :
  [12; 7] <> [] /\ Forall (fun t => 0 <= t) [12; 7].
Proof.
  apply (parse_tokens_nonempty_nonneg ascii_digit_val 4300 (lit "<|s_12|> then <|s_7|>")).
  - intros c v. unfold ascii_digit_val.
    destruct (N.leb_spec 48 c); [| discriminate].
    destruct (c <=? 57)%N; [| discriminate].
    intros [= <-]. lia.
  - reflexivity.
Defined.

Lemma silence_penalty_range_witness :
  exists penalty,
    _silence_penalty (repeat 0%Q 25) 10 = inr penalty
    /\ (0 <= penalty)%Q
    /\ (penalty <= 1 + Qmax 0 ((Zdivq (len (repeat 0%Q 25)) 10 - 2) / 2))%Q.
Proof. apply silence_penalty_range. lia. Defined.

Lemma scores_at_least_error_witness :
  Forall (fun c => exists e s,
              asr_error c = Some e /\ score c = Some s /\ (0 <= e)%Q /\ (e <= s)%Q)
         (fst (score_candidates failing_g2p_en failing_g2p_ja ascii_lower_str ascii_isalnum
                                ticking_clock (lit "the cat sat") sample_pool 100 "en"
                                (Some constant_asr))).
Proof.
  assert (Hrun : score_candidates failing_g2p_en failing_g2p_ja ascii_lower_str ascii_isalnum
                                  ticking_clock (lit "the cat sat") sample_pool 100 "en"
                                  (Some constant_asr)
                 = (_, inr (_, _))) by (vm_compute; reflexivity).
  pose proof (scores_at_least_error failing_g2p_en failing_g2p_ja ascii_lower_str
                ascii_isalnum ticking_clock _ _ _ _ _ _ _ _ constant_asr_contract Hrun) as H.
  rewrite Hrun. exact H.
Defined.

Lemma post_with_retry_total_sleep_witness :
  (total_sleep (fst (_post_with_retry raises_unless_success 3 0.5 unavailable_server))
   <= 0.5 * inject_Z (2 ^ (3 - 1) - 1))%Q.
Proof.
  apply (post_with_retry_total_sleep raises_unless_success 3 0.5 unavailable_server).
  - unfold Qle. cbn. lia.
  - lia.
Defined.

Lemma resolve_urls_agree_witness :
  Forall (fun u =>
            _resolve_chat_url (u ++ repeat chr_slash 1)
            = lit "http://localhost:8000" ++ lit "/v1/chat/completions"
            /\ _resolve_models_url (u ++ repeat chr_slash 1)
               = lit "http://localhost:8000" ++ lit "/v1/models")
         [lit "http://localhost:8000"; lit "http://localhost:8000" ++ lit "/v1";
          lit "http://localhost:8000" ++ lit "/v1/chat/completions"].
Proof. apply resolve_urls_agree; reflexivity. Defined.

Lemma extract_content_chat_response_witness :
  _extract_content str_of_scalar (JDict sample_response) = inr (lit "<|s_1|><|s_2|>").
Proof.
  destruct (extract_content_chat_response str_of_scalar (fun s => eq_refl)) as [Hshape _].
  destruct (Hshape sample_response sample_choice sample_message [] eq_refl) as [H _].
  destruct (H eq_refl) as [Htext _].
  exact (Htext _ eq_refl).
Defined.

Lemma extract_model_ids_listing_witness :
  _extract_model_ids str_of_scalar (JDict sample_listing) = [lit "mio-tts"; lit "other"].
Proof.
  apply (extract_model_ids_listing str_of_scalar (fun s => eq_refl) sample_listing
           [JDict [(lit "id", JStr (lit "mio-tts")); (lit "object", JStr (lit "model"))];
            JDict [(lit "id", JStr (lit "other"))]]).
  - reflexivity.
  - reflexivity.
  - repeat constructor; eexists; (split; [reflexivity |]); (split; [reflexivity | discriminate]).
Defined.

Lemma parse_render_drops_negative_witness :
  parse_rendered ascii_digit_val 4300 [3; -1; 4] = inr [3; 4].
Proof.
  apply (parse_render_drops_negative ascii_digit_val (fun c _ => eq_refl) 4300 [3; -1; 4]).
  repeat constructor.
Defined.

Lemma estimate_base64_decoded_size_exact_witness :
  _estimate_base64_decoded_size (lit "aGk=") = 2.
Proof.
  apply (estimate_base64_decoded_size_exact (lit "aGk") 2).
  - lia.
  - intros x [= <-]. discriminate.
  - reflexivity.
Defined.

Lemma normalize_for_wer_idempotent_witness :
  _normalize_for_wer ascii_lower_str (lit "The cat's  HAT, 2 hats!") 
  = [lit "the"; lit "cat's"; lit "hat"; lit "2"; lit "hats"]
  /\ _normalize_for_wer ascii_lower_str
       (join_spaces (_normalize_for_wer ascii_lower_str (lit "The cat's  HAT, 2 hats!")))
     = _normalize_for_wer ascii_lower_str (lit "The cat's  HAT, 2 hats!").
Proof.
  split; [reflexivity |].
  apply (normalize_for_wer_idempotent ascii_lower_str (fun s _ => eq_refl)).
Defined.

Lemma transcribe_batch_contract_witness :
  transcribe_batch sample_prepare str_of_scalar {| batch_size := 8; language := "auto" |}
                   (Some sample_pipeline) [[0%Q]; [1%Q]] 16000 (Some "en"%string)
  = inr [lit "the cat"; lit "the cat"]
  /\ length [lit "the cat"; lit "the cat"] = length [[0%Q]; [1%Q]].
Proof.
  assert (Hrun : transcribe_batch sample_prepare str_of_scalar
                   {| batch_size := 8; language := "auto" |}
                   (Some sample_pipeline) [[0%Q]; [1%Q]] 16000 (Some "en"%string)
                 = inr [lit "the cat"; lit "the cat"]) by reflexivity.
  split; [exact Hrun |].
  destruct (transcribe_batch_contract sample_prepare str_of_scalar
              {| batch_size := 8; language := "auto" |} [[0%Q]; [1%Q]] 16000
              (Some "en"%string)) as (_ & _ & H).
  refine (proj1 (H sample_pipeline _ _ Hrun)).
  intros audio_np_list size kwargs outputs [= <-].
  exists (map (fun _ => lit " the cat ") audio_np_list).
  rewrite map_map, length_map. split; reflexivity.
Defined.

Lemma read_reference_file_limit_witness :
  _read_reference_file (byte := N) ascii_lower_str 1 [lit ".wav"; lit ".mp3"]
                       (Some (lit "voice.WAV")) [[1; 2]; [3]; []; [4]]%N
  = inr [1; 2; 3]%N
  /\ _read_reference_file (byte := N) ascii_lower_str 1 [lit ".wav"; lit ".mp3"]
                          (Some (lit "virus.exe")) [[1; 2]; [3]; []; [4]]%N
     = inl (UnsupportedExtension (lit ".exe")).
Proof.
  assert (Hmb : (0 <= 1)%Q) by (unfold Qle; cbn; lia).
  split.
  - destruct (read_reference_file_limit (byte := N) ascii_lower_str 1
                [lit ".wav"; lit ".mp3"] (Some (lit "voice.WAV"))
                [[1; 2]; [3]; []; [4]]%N Hmb) as (Hext & _ & _ & _ & _ & H & _).
    apply H.
    + apply (Hext (lit "voice") (lit "WAV") eq_refl).
      * intros Hin. apply list_elem_of_In in Hin. cbn in Hin. intuition discriminate.
      * apply list_elem_of_In. left. reflexivity.
    + apply Qle_bool_iff. vm_compute. reflexivity.
  - destruct (read_reference_file_limit (byte := N) ascii_lower_str 1
                [lit ".wav"; lit ".mp3"] (Some (lit "virus.exe"))
                [[1; 2]; [3]; []; [4]]%N Hmb) as (Hext & _).
    apply (Hext (lit "virus") (lit "exe") eq_refl).
    + intros Hin. apply list_elem_of_In in Hin. cbn in Hin. intuition discriminate.
    + intros Hin. apply list_elem_of_In in Hin. cbn in Hin. intuition discriminate.
Defined.
